(** * SearchEngine: crawler, inverted index and TF-IDF ranker

    A shallow embedding of the core of the search engine
    ([text_processor.py], [indexer.py], [ranker.py], [web_crawler.py])
    together with the properties stated about it.

    Conventions of the embedding:
    - Python [str] is [string]; characters are code points below 256.
    - Python [int] document identifiers are [Z]; lengths, positions and
      the counts [max_pages], [retry_attempts] and [max_results], which
      every caller in the repository sets to a non-negative value, are
      [nat].
    - Python [float] scores are idealised as real numbers [R]
      ([math.log] is [ln]).
    - [dict] is [gmap], [set] is [gset]; where the iteration order of a
      container is observable it is threaded explicitly. *)

From Stdlib Require Import Ascii String Reals Lra.
From stdpp Require Import gmap strings list fin_maps pretty sorting.
From Equations Require Import Equations.

#[local] Set Warnings "-register-all,-clear-no-such-hyp".

Local Open Scope string_scope.
Local Open Scope list_scope.
Local Open Scope nat_scope.
Local Open Scope stdpp_scope.

(** ** Python string primitives used by the program *)

Module PyStr.

(** [str.isspace] on one character (code points below 256). *)
Definition is_space (c : ascii) : bool :=
  let n := nat_of_ascii c in
  (((9 <=? n) && (n <=? 13)) || ((28 <=? n) && (n <=? 32))
   || (n =? 133) || (n =? 160))%nat.

Fixpoint lstrip_by (p : ascii -> bool) (s : string) : string :=
  match s with
  | EmptyString => EmptyString
  | String c s' => if p c then lstrip_by p s' else s
  end.

Fixpoint rstrip_by (p : ascii -> bool) (s : string) : string :=
  match s with
  | EmptyString => EmptyString
  | String c s' =>
      match rstrip_by p s' with
      | EmptyString => if p c then EmptyString else String c EmptyString
      | r => String c r
      end
  end.

(** [s.strip()] *)
Definition strip (s : string) : string :=
  rstrip_by is_space (lstrip_by is_space s).

(** [s.rstrip(c)] for a one-character argument *)
Definition rstrip_char (c : ascii) (s : string) : string :=
  rstrip_by (Ascii.eqb c) s.

(** [s.endswith(c)] for a one-character argument *)
Fixpoint endswith_char (c : ascii) (s : string) : bool :=
  match s with
  | EmptyString => false
  | String d EmptyString => Ascii.eqb c d
  | String _ s' => endswith_char c s'
  end.

(** [s.count(c)] for a one-character argument *)
Fixpoint count_char (c : ascii) (s : string) : nat :=
  match s with
  | EmptyString => 0
  | String d s' => (if Ascii.eqb c d then 1 else 0) + count_char c s'
  end.

(** [s.split(c)[0]]: the part of [s] before the first [c]. *)
Fixpoint split_head (c : ascii) (s : string) : string :=
  match s with
  | EmptyString => EmptyString
  | String d s' => if Ascii.eqb c d then EmptyString else String d (split_head c s')
  end.

(** [s.startswith(p)] *)
Fixpoint startswith (p s : string) : bool :=
  match p, s with
  | EmptyString, _ => true
  | String a p', String b s' => Ascii.eqb a b && startswith p' s'
  | String _ _, EmptyString => false
  end.

(** [p in s]: substring test. *)
Fixpoint contains (p s : string) : bool :=
  startswith p s ||
  match s with
  | EmptyString => false
  | String _ s' => contains p s'
  end.

(** [s.endswith(p)] *)
Definition endswith (p s : string) : bool :=
  startswith (String.rev p) (String.rev s).

(** [c.lower()] on one character: ASCII and Latin-1 capitals. *)
Definition lower_char (c : ascii) : ascii :=
  let n := nat_of_ascii c in
  if (((65 <=? n) && (n <=? 90))
      || ((192 <=? n) && (n <=? 222) && negb (n =? 215)))%nat
  then ascii_of_nat (n + 32) else c.

(** [s.lower()] *)
Fixpoint lower (s : string) : string :=
  match s with
  | EmptyString => EmptyString
  | String c s' => String (lower_char c) (lower s')
  end.

(** [s.split(c)] for a one-character separator: never an empty list. *)
Fixpoint split_on (c : ascii) (s : string) : list string :=
  match s with
  | EmptyString => [EmptyString]
  | String d s' =>
      if Ascii.eqb c d then EmptyString :: split_on c s'
      else match split_on c s' with
           | h :: t => String d h :: t
           | [] => [String d EmptyString]
           end
  end.

(** [s.split(c, 1)[1]]: what follows the first [c]; [None] is the
    [IndexError] raised when [s] has no [c]. *)
Fixpoint after_first (c : ascii) (s : string) : option string :=
  match s with
  | EmptyString => None
  | String d s' => if Ascii.eqb c d then Some s' else after_first c s'
  end.

(** [s[:n]] *)
Fixpoint str_take (n : nat) (s : string) : string :=
  match n, s with
  | S n', String c s' => String c (str_take n' s')
  | _, _ => EmptyString
  end.

(** [sep.join(l)] *)
Fixpoint join (sep : string) (l : list string) : string :=
  match l with
  | [] => EmptyString
  | [x] => x
  | x :: l' => x +:+ sep +:+ join sep l'
  end.

(** [re.split] on maximal runs of characters satisfying [p]; [in_run]
    tells whether the previous character belonged to a run. *)
Fixpoint split_runs (p : ascii -> bool) (in_run : bool) (s : string) : list string :=
  match s with
  | EmptyString => [EmptyString]
  | String c s' =>
      if p c then
        if in_run then split_runs p true s'
        else EmptyString :: split_runs p true s'
      else
        match split_runs p false s' with
        | h :: t => String c h :: t
        | [] => [String c EmptyString]
        end
  end.

(** [re.sub] of every maximal run of characters satisfying [p] by the
    single character [r]. *)
Fixpoint sub_runs (p : ascii -> bool) (r : ascii) (in_run : bool) (s : string)
  : string :=
  match s with
  | EmptyString => EmptyString
  | String c s' =>
      if p c then
        if in_run then sub_runs p r true s'
        else String r (sub_runs p r true s')
      else String c (sub_runs p r false s')
  end.

(** Does the first (last) character of [s] satisfy [p]?  Do all? *)
Definition first_is (p : ascii -> bool) (s : string) : bool :=
  match s with
  | EmptyString => false
  | String c _ => p c
  end.

Fixpoint last_is (p : ascii -> bool) (s : string) : bool :=
  match s with
  | EmptyString => false
  | String c EmptyString => p c
  | String _ s' => last_is p s'
  end.

Fixpoint all_chars (p : ascii -> bool) (s : string) : bool :=
  match s with
  | EmptyString => true
  | String c s' => p c && all_chars p s'
  end.

End PyStr.

(** ** [text_processor.py]: [URLProcessor] *)

Module URLProcessor.
Import PyStr.

(** [URLProcessor.normalize_url] *)
Definition normalize_url (url : string) : string :=
  let url := strip url in
  let url :=
    if endswith_char "/"%char url && (3 <? count_char "/"%char url)%nat
    then rstrip_char "/"%char url else url in
  split_head "#"%char url.

Section UrlParse.

(** [urllib.parse.urlparse], reduced to the two components the program
    reads: [(scheme, netloc)]. *)
Variable urlparse : string -> string * string.

(** [URLProcessor.is_valid_url] *)
Definition is_valid_url (url : string) : bool :=
  let result := urlparse url in
  negb (String.eqb (fst result) EmptyString)
  && negb (String.eqb (snd result) EmptyString).

(** [URLProcessor.get_domain] *)
Definition get_domain (url : string) : string := snd (urlparse url).

Definition skip_extensions : list string :=
  [".pdf"; ".zip"; ".exe"; ".jpg"; ".png"; ".gif"; ".mp4"].

(** [URLProcessor.should_follow_link] *)
Definition should_follow_link (current_url link_url : string)
  (follow_external : bool) : bool :=
  if negb (is_valid_url link_url) then false
  else if negb follow_external
          && negb (String.eqb (get_domain current_url) (get_domain link_url))
  then false
  else if existsb (fun ext => endswith ext (lower link_url)) skip_extensions
  then false
  else true.

End UrlParse.

End URLProcessor.

(** ** [indexer.py]: [InvertedIndex] *)

Module Indexer.

(** A posting is the Python tuple [(doc_id, frequency, positions)]. *)
Record posting := Posting {
  p_doc : Z;
  p_freq : nat;
  p_positions : list nat
}.

(** Keys of the [documents] dict. [add_document] stores [int] keys; a dict
    read back by [json.load] has [str] keys. *)
Inductive dockey := KInt (z : Z) | KStr (s : string).

#[global] Instance dockey_eq_dec : EqDecision dockey.
Proof. solve_decision. Defined.

#[global] Instance dockey_countable : Countable dockey.
Proof.
  refine (inj_countable'
            (λ k, match k with KInt z => inl z | KStr s => inr s end)
            (λ x, match x with inl z => KInt z | inr s => KStr s end) _).
  by intros [].
Defined.

(** Document metadata: the dict of strings built by [Indexer.index_page]
    (keys [url], [title], [description], [crawl_time]). *)
Abbreviation metadata := (gmap string string).

Record InvertedIndex := mkIndex {
  index : gmap string (list posting);
  document_count : nat;
  documents : gmap dockey metadata
}.

(** [InvertedIndex.__init__] *)
Definition init : InvertedIndex :=
  {| index := ∅; document_count := 0; documents := ∅ |}.

Definition set_index (i : gmap string (list posting)) (self : InvertedIndex) :=
  {| index := i; document_count := document_count self; documents := documents self |}.

(** *** [defaultdict(list)] *)

(** [d[k]]: a missing key is inserted with the default [[]]. *)
Definition dd_getitem {V} (d : gmap string (list V)) (k : string)
  : list V * gmap string (list V) :=
  match d !! k with
  | Some v => (v, d)
  | None => ([], <[k := []]> d)
  end.

(** [d.get(k, [])]: the dict is not touched. *)
Definition dd_get {V} (d : gmap string (list V)) (k : string) : list V :=
  default [] (d !! k).

(** [d[k].append(x)] *)
Definition dd_append {V} (d : gmap string (list V)) (k : string) (x : V)
  : gmap string (list V) :=
  let '(v, d') := dd_getitem d k in <[k := v ++ [x]]> d'.

(** The local [term_positions] of [index_terms] is iterated with [.items()],
    so it is kept as a dict in insertion order. *)
Fixpoint od_append (k : string) (v : nat) (d : list (string * list nat))
  : list (string * list nat) :=
  match d with
  | [] => [(k, [v])]
  | (k', vs) :: d' =>
      if decide (k = k') then (k', vs ++ [v]) :: d'
      else (k', vs) :: od_append k v d'
  end.

(** [d.get(k, [])] on such a dict *)
Fixpoint od_get (k : string) (d : list (string * list nat)) : list nat :=
  match d with
  | [] => []
  | (k', vs) :: d' => if decide (k = k') then vs else od_get k d'
  end.

(** [enumerate(l)], counting from [k] *)
Definition enumerate_from {A} (k : nat) (l : list A) : list (nat * A) :=
  zip (seq k (length l)) l.

(** The first loop of [index_terms]. *)
Definition build_positions (terms : list string) : list (string * list nat) :=
  fold_left (λ tp '(position, term), od_append term position tp)
            (enumerate_from 0 terms) [].

(** [InvertedIndex.add_document] *)
Definition add_document (doc_id : Z) (doc_metadata : metadata)
  (self : InvertedIndex) : InvertedIndex :=
  {| index := index self;
     document_count := document_count self + 1;
     documents := <[KInt doc_id := doc_metadata]> (documents self) |}.

(** [InvertedIndex.index_terms] *)
Definition index_terms (doc_id : Z) (terms : list string)
  (self : InvertedIndex) : InvertedIndex :=
  let term_positions := build_positions terms in
  fold_left
    (λ s '(term, positions),
       let frequency := length positions in
       set_index (dd_append (index s) term (Posting doc_id frequency positions)) s)
    term_positions self.

(** [InvertedIndex.get_postings], with the index it leaves behind. *)
Definition get_postings (term : string) (self : InvertedIndex)
  : list posting * InvertedIndex :=
  (dd_get (index self) term, self).

(** The value returned by [get_postings]. *)
Definition postings_of (self : InvertedIndex) (term : string) : list posting :=
  fst (get_postings term self).

(** [self.documents.get(doc_id, {})] with an [int] identifier *)
Definition get_document (self : InvertedIndex) (doc_id : Z) : metadata :=
  default ∅ (documents self !! KInt doc_id).

(** Calls a client can make on an index. *)
Inductive op :=
| AddDocument (doc_id : Z) (doc_metadata : metadata)
| IndexTerms (doc_id : Z) (terms : list string)
| GetPostings (term : string).

Definition run_op (self : InvertedIndex) (o : op) : InvertedIndex :=
  match o with
  | AddDocument d m => add_document d m self
  | IndexTerms d ts => index_terms d ts self
  | GetPostings t => snd (get_postings t self)
  end.

Definition run (ops : list op) : InvertedIndex := fold_left run_op ops init.

(** The identifiers passed to [add_document], in call order. *)
Definition added_ids (ops : list op) : list Z :=
  omap (λ o, match o with AddDocument d _ => Some d | _ => None end) ops.

(** Number of occurrences of [t] in a token sequence. *)
Definition occurrences (t : string) (terms : list string) : nat :=
  length (filter (λ x, x = t) terms).

(** 0-based offsets of [t] in a token sequence, counting from [k]. *)
Fixpoint offsets_from (k : nat) (t : string) (terms : list string) : list nat :=
  match terms with
  | [] => []
  | x :: terms' =>
      (if decide (x = t) then [k] else []) ++ offsets_from (S k) t terms'
  end.

End Indexer.

(** ** [indexer.py]: persistence through [json.dump] / [json.load] *)

Module Persistence.
Import Indexer.

(** JSON values, as [json.dump] writes them and [json.load] reads them
    back. The textual layer of the [json] library is not modelled. *)
Inductive json :=
| JNum (z : Z)
| JStr (s : string)
| JArr (items : list json)
| JObj (fields : list (string * json)).

(** [json.dump] turns an [int] dict key into its decimal [str]. *)
Definition key_str (k : dockey) : string :=
  match k with
  | KInt z => pretty z
  | KStr s => s
  end.

Definition encode_metadata (m : metadata) : json :=
  JObj (map (λ '(k, v), (k, JStr v)) (map_to_list m)).

(** A posting tuple is written as a three-element array. *)
Definition encode_posting (p : posting) : json :=
  JArr [JNum (p_doc p); JNum (Z.of_nat (p_freq p));
        JArr (map (λ i, JNum (Z.of_nat i)) (p_positions p))].

(** [InvertedIndex.save_to_json]: the contents written to the file. The
    order of the fields of an object is not observable after loading. *)
Definition save_to_json (self : InvertedIndex) : json :=
  JObj [("documents",
         JObj (map (λ '(k, m), (key_str k, encode_metadata m))
                   (map_to_list (documents self))));
        ("index",
         JObj (map (λ '(term, postings), (term, JArr (map encode_posting postings)))
                   (map_to_list (index self))))].

(** The dict [json.load] builds from an object: a repeated key keeps its
    first position and takes the last value. *)
Fixpoint od_set {V} (k : string) (v : V) (d : list (string * V))
  : list (string * V) :=
  match d with
  | [] => [(k, v)]
  | (k', v') :: d' =>
      if decide (k = k') then (k', v) :: d' else (k', v') :: od_set k v d'
  end.

Definition py_items {V} (fields : list (string * V)) : list (string * V) :=
  fold_left (λ d '(k, v), od_set k v d) fields [].

Fixpoint od_lookup {V} (k : string) (d : list (string * V)) : option V :=
  match d with
  | [] => None
  | (k', v) :: d' => if decide (k = k') then Some v else od_lookup k d'
  end.

Definition decode_nat (j : json) : option nat :=
  match j with
  | JNum z => if (0 <=? z)%Z then Some (Z.to_nat z) else None
  | _ => None
  end.

Definition decode_str_field (kv : string * json) : option (string * string) :=
  match kv.2 with
  | JStr s => Some (kv.1, s)
  | _ => None
  end.

Definition decode_metadata (j : json) : option metadata :=
  match j with
  | JObj fields => list_to_map <$> mapM decode_str_field (py_items fields)
  | _ => None
  end.

(** The loaded [documents] dict: every key is a [str]. *)
Definition decode_documents (j : json) : option (gmap dockey metadata) :=
  match j with
  | JObj fields =>
      list_to_map <$>
        mapM (λ kv, m ← decode_metadata kv.2; Some (KStr kv.1, m)) (py_items fields)
  | _ => None
  end.

(** [tuple(p)] for a posting read back from the file. *)
Definition decode_posting (j : json) : option posting :=
  match j with
  | JArr [JNum d; f; JArr ps] =>
      f' ← decode_nat f; ps' ← mapM decode_nat ps; Some (Posting d f' ps')
  | _ => None
  end.

Definition decode_postings (j : json) : option (list posting) :=
  match j with
  | JArr items => mapM decode_posting items
  | _ => None
  end.

(** The loop [for term, postings in data['index'].items()]. A value that
    is not of the shape written by [save_to_json] is treated like the
    exceptions caught by the [try] block: loading stops there. *)
Fixpoint load_terms (items : list (string * json)) (self : InvertedIndex)
  : InvertedIndex :=
  match items with
  | [] => self
  | (term, j) :: rest =>
      match decode_postings j with
      | Some ps => load_terms rest (set_index (<[term := ps]> (index self)) self)
      | None => self
      end
  end.

(** [InvertedIndex.load_from_json]. [file] is [None] when the file cannot
    be opened or parsed. *)
Definition load_from_json (file : option json) (self : InvertedIndex)
  : InvertedIndex :=
  match file with
  | Some (JObj fields) =>
      let data := py_items fields in
      match od_lookup "documents" data ≫= decode_documents with
      | None => self
      | Some docs =>
          let self1 := {| index := index self;
                          document_count := size docs;
                          documents := docs |} in
          match od_lookup "index" data with
          | Some (JObj ifields) => load_terms (py_items ifields) self1
          | _ => self1
          end
      end
  | _ => self
  end.

(** Save, then load into a fresh [InvertedIndex]. *)
Definition reload (self : InvertedIndex) : InvertedIndex :=
  load_from_json (Some (save_to_json self)) init.

End Persistence.

(** ** [ranker.py]: [TFIDFRanker] and [Ranker] *)

Module Ranker.
Import Indexer.

(** The ranker's own state. The index it refers to is shared with its
    creator, so every method takes the index in its current state. *)
Record TFIDFRanker := mkRanker {
  boost_title : R;
  boost_heading : R;
  idf_cache : gmap string R
}.

(** [TFIDFRanker.__init__] *)
Definition new (boost_title boost_heading : R) : TFIDFRanker :=
  {| boost_title := boost_title; boost_heading := boost_heading; idf_cache := ∅ |}.

Definition set_cache (c : gmap string R) (self : TFIDFRanker) : TFIDFRanker :=
  {| boost_title := boost_title self;
     boost_heading := boost_heading self;
     idf_cache := c |}.

(** [TFIDFRanker.calculate_idf] *)
Definition calculate_idf (idx : InvertedIndex) (term : string)
  (self : TFIDFRanker) : R * TFIDFRanker :=
  match idf_cache self !! term with
  | Some v => (v, self)
  | None =>
      let postings := postings_of idx term in
      match postings with
      | [] => (0%R, self)
      | _ :: _ =>
          let N := document_count idx in
          let df := length postings in
          if df =? 0 then (0%R, self)
          else
            let idf := if 0 <? N then ln (INR N / INR df) else 0%R in
            (idf, set_cache (<[term := idf]> (idf_cache self)) self)
      end
  end.

(** The loop of [calculate_tf]: return at the first posting of [doc_id]. *)
Fixpoint first_frequency (doc_id : Z) (postings : list posting) : R :=
  match postings with
  | [] => 0%R
  | p :: rest =>
      if decide (p_doc p = doc_id) then INR (p_freq p)
      else first_frequency doc_id rest
  end.

(** [TFIDFRanker.calculate_tf] *)
Definition calculate_tf (idx : InvertedIndex) (term : string) (doc_id : Z) : R :=
  first_frequency doc_id (postings_of idx term).

(** [(doc_metadata.get('title', '') or '')] *)
Definition title_of (doc_metadata : metadata) : string :=
  default EmptyString (doc_metadata !! "title").

(** [term.lower() in title.lower()] *)
Definition title_match (term : string) (doc_metadata : metadata) : bool :=
  PyStr.contains (PyStr.lower term) (PyStr.lower (title_of doc_metadata)).

(** One iteration of the loop of [score_document]. *)
Definition score_term (idx : InvertedIndex) (doc_id : Z) (doc_metadata : metadata)
  (acc : R * TFIDFRanker) (term : string) : R * TFIDFRanker :=
  let tf := calculate_tf idx term doc_id in
  let '(idf, self) := calculate_idf idx term acc.2 in
  let tfidf := (tf * idf)%R in
  let tfidf :=
    if title_match term doc_metadata then (tfidf * boost_title self)%R else tfidf in
  ((acc.1 + tfidf)%R, self).

(** [TFIDFRanker.score_document] *)
Definition score_document (idx : InvertedIndex) (query_terms : list string)
  (doc_id : Z) (doc_metadata : metadata) (self : TFIDFRanker) : R * TFIDFRanker :=
  fold_left (score_term idx doc_id doc_metadata) query_terms (0%R, self).

(** [score > 0] on floats *)
Definition positive (x : R) : bool := if Rlt_dec 0 x then true else false.

(** [list.sort(key=lambda x: x[1], reverse=True)]: a stable sort, elements
    with equal keys keep their order. *)
Fixpoint insert_desc (x : Z * R) (l : list (Z * R)) : list (Z * R) :=
  match l with
  | [] => [x]
  | y :: l' => if Rlt_dec x.2 y.2 then y :: insert_desc x l' else x :: l
  end.

Definition sort_desc (l : list (Z * R)) : list (Z * R) := foldr insert_desc [] l.

(** One iteration of the loop of [rank_results]. *)
Definition rank_one (idx : InvertedIndex) (query_terms : list string)
  (acc : list (Z * R) * TFIDFRanker) (doc_id : Z) : list (Z * R) * TFIDFRanker :=
  let doc_metadata := get_document idx doc_id in
  let '(score, self) := score_document idx query_terms doc_id doc_metadata acc.2 in
  if positive score then (acc.1 ++ [(doc_id, score)], self) else (acc.1, self).

(** [TFIDFRanker.rank_results] *)
Definition rank_results (idx : InvertedIndex) (query_terms : list string)
  (doc_ids : list Z) (self : TFIDFRanker) : list (Z * R) * TFIDFRanker :=
  let '(scores, self) := fold_left (rank_one idx query_terms) doc_ids ([], self) in
  (sort_desc scores, self).

(** An entry of the list returned by [Ranker.search]. *)
Record result := mkResult {
  r_doc_id : Z;
  r_url : string;
  r_title : string;
  r_description : string;
  r_score : R
}.

(** The first loop of [search]: the set of candidate documents. *)
Definition candidates (idx : InvertedIndex) (query_terms : list string) : gset Z :=
  fold_left
    (λ s term, fold_left (λ s p, {[p_doc p]} ∪ s) (postings_of idx term) s)
    query_terms ∅.

Definition format_result (idx : InvertedIndex) (entry : Z * R) : result :=
  let doc_metadata := get_document idx entry.1 in
  {| r_doc_id := entry.1;
     r_url := default EmptyString (doc_metadata !! "url");
     r_title := default EmptyString (doc_metadata !! "title");
     r_description := default EmptyString (doc_metadata !! "description");
     r_score := entry.2 |}.

Section Search.

(** [list(doc_ids_set)]: the order in which a Python [set] is iterated. *)
Variable set_to_list : gset Z -> list Z.

(** [Ranker.search] *)
Definition search (idx : InvertedIndex) (query_terms : list string)
  (max_results : nat) (self : TFIDFRanker) : list result * TFIDFRanker :=
  let doc_ids_set := candidates idx query_terms in
  if decide (doc_ids_set = ∅) then ([], self)
  else
    let '(ranked, self) :=
      rank_results idx query_terms (set_to_list doc_ids_set) self in
    (map (format_result idx) (take max_results ranked), self).

End Search.

(** *** Notions used to state the ranking properties *)

#[global] Instance R_eq_dec : EqDecision R := Req_dec_T.

#[global] Instance R_lt_dec (x y : R) : Decision (x < y)%R := Rlt_dec x y.

(** The frequency of the first posting of [doc_id] in a posting list, and
    0 when there is none. *)
Definition first_posting_frequency (doc_id : Z) (postings : list posting) : R :=
  match list_find (λ p, p_doc p = doc_id) postings with
  | Some (_, p) => INR (p_freq p)
  | None => 0%R
  end.

(** The IDF the ranker returns for a term in a given state. *)
Definition idf_of (idx : InvertedIndex) (self : TFIDFRanker) (term : string) : R :=
  (calculate_idf idx term self).1.

(** Two ranker states that answer every IDF request alike. *)
Definition same_idf (idx : InvertedIndex) (a b : TFIDFRanker) : Prop :=
  boost_title a = boost_title b ∧ ∀ t, idf_of idx a t = idf_of idx b t.

(** The contribution of one query term to the score of a document. *)
Definition term_contribution (idx : InvertedIndex) (self : TFIDFRanker)
  (doc_id : Z) (doc_metadata : metadata) (term : string) : R :=
  let tfidf :=
    (first_posting_frequency doc_id (postings_of idx term) * idf_of idx self term)%R in
  if title_match term doc_metadata then (tfidf * boost_title self)%R else tfidf.

(** The total score [rank_results] computes for a document. *)
Definition total_score (idx : InvertedIndex) (self : TFIDFRanker)
  (query_terms : list string) (doc_id : Z) : R :=
  (score_document idx query_terms doc_id (get_document idx doc_id) self).1.

(** The documents of a list with a positive total score, in list order. *)
Definition scored (idx : InvertedIndex) (self : TFIDFRanker)
  (query_terms : list string) (doc_ids : list Z) : list (Z * R) :=
  filter (λ e, 0 < e.2)%R
         (map (λ d, (d, total_score idx self query_terms d)) doc_ids).

(** Document frequency as the ranker counts it. *)
Definition df (idx : InvertedIndex) (term : string) : nat :=
  length (postings_of idx term).

(** [ln(N / df)], and 0 for a term without postings or an empty corpus. *)
Definition idf_formula (idx : InvertedIndex) (term : string) : R :=
  if df idx term =? 0 then 0%R
  else if 0 <? document_count idx
       then ln (INR (document_count idx) / INR (df idx term))
       else 0%R.

(** Every cached IDF is the one a new ranker would compute now. *)
Definition cache_consistent (idx : InvertedIndex) (self : TFIDFRanker) : Prop :=
  ∀ term v, idf_cache self !! term = Some v →
            v = idf_of idx (new (boost_title self) (boost_heading self)) term.

(** The order in which CPython iterates a set of distinct small
    non-negative integers: each sits in the slot given by its own value,
    so they come out in increasing order. *)
Definition small_int_set_order (s : gset Z) : list Z :=
  merge_sort Z.le (elements s).

(** The elements of [l] not in [seen], each kept at its first occurrence. *)
Fixpoint first_occurrences (seen : list Z) (l : list Z) : list Z :=
  match l with
  | [] => []
  | x :: l' =>
      if decide (x ∈ seen) then first_occurrences seen l'
      else x :: first_occurrences (x :: seen) l'
  end.

(** The documents in the order in which the first loop of [search] meets
    them for the first time. *)
Definition first_encountered (idx : InvertedIndex) (query_terms : list string)
  : list Z :=
  first_occurrences []
    (concat (map (λ term, map p_doc (postings_of idx term)) query_terms)).

End Ranker.

(** ** [web_crawler.py]: [WebCrawler] *)

Module Crawler.

(** The fields of [CrawlerConfig] read by [fetch_page] and [crawl_worker]. *)
Record CrawlerConfig := mkConfig {
  seed_urls : list string;
  max_pages : nat;
  respect_robots_txt : bool;
  retry_attempts : nat;
  retry_backoff : R;
  follow_external_links : bool
}.

(** [PageContent]; of the extracted fields only [links] is read by the
    crawler. *)
Record PageContent := mkPage {
  url : string;
  html : string;
  status_code : Z;
  links : list string
}.

(** What one [session.get] does. *)
Inductive response :=
| Response (status : Z) (body : string)
| TimeoutError
| ClientError.

(** What the crawler does to the outside world. *)
Inductive event :=
| Get (url : string) (attempt : nat)
| Sleep (seconds : R).

Definition is_get (e : event) : bool :=
  match e with
  | Get _ _ => true
  | Sleep _ => false
  end.

(** Number of requests issued in a trace. *)
Definition requests (tr : list event) : nat := length (filter is_get tr).

(** The delays slept in a trace. *)
Definition delays (tr : list event) : list R :=
  omap (λ e, match e with Sleep d => Some d | Get _ _ => None end) tr.

Record crawler := mkCrawler {
  visited_urls : gset string;
  to_visit : list string;
  crawled_pages : list PageContent;
  trace : list event
}.

Section World.

Variable config : CrawlerConfig.

(** The network: the outcome of the request for [url] made as attempt
    number [attempt]. *)
Variable http_get : string -> nat -> response.

(** [HTMLProcessor.extract_links html base_url] *)
Variable extract_links : string -> string -> list string.

(** The answer of [RobotsTxtParser.can_fetch] for a URL. *)
Variable can_fetch : string -> bool.

Variable urlparse : string -> string * string.

(** [PageContent.__init__] *)
Definition page_content (url html : string) (status_code : Z) : PageContent :=
  {| url := url; html := html; status_code := status_code;
     links := extract_links html url |}.

(** [WebCrawler.fetch_page]; [session] tells whether [self.session] is set.
    The result comes with the requests and sleeps performed. *)
Equations? fetch_page (session : bool) (url : string) (attempt : nat)
  : option PageContent * list event
  by wf (retry_attempts config - attempt) lt :=
fetch_page false url attempt := (None, []);
fetch_page true url attempt with http_get url attempt => {
  | Response status body :=
      if (status =? 200)%Z
      then (Some (page_content url body status), [Get url attempt])
      else (None, [Get url attempt]);
  | TimeoutError with lt_dec attempt (retry_attempts config) => {
      | left _ :=
          let r := fetch_page true url (attempt + 1) in
          (r.1, Get url attempt :: Sleep (retry_backoff config ^ attempt) :: r.2);
      | right _ := (None, [Get url attempt]) };
  | ClientError with lt_dec attempt (retry_attempts config) => {
      | left _ :=
          let r := fetch_page true url (attempt + 1) in
          (r.1, Get url attempt :: Sleep (retry_backoff config ^ attempt) :: r.2);
      | right _ := (None, [Get url attempt]) } }.
Proof. all: lia. Qed.

(** The links of a fetched page that are appended to the frontier. *)
Definition new_links (visited : gset string) (current : string)
  (page : PageContent) : list string :=
  filter
    (λ link, (link ∉ visited) ∧
             URLProcessor.should_follow_link urlparse current link
               (follow_external_links config) = true)
    (map URLProcessor.normalize_url (links page)).

(** One iteration of the [while] loop of [crawl_worker]; [None] when the
    loop condition is false. *)
Definition crawl_step (session : bool) (self : crawler) : option crawler :=
  match to_visit self with
  | [] => None
  | head :: rest =>
      if negb (length (crawled_pages self) <? max_pages config) then None
      else
        let url := URLProcessor.normalize_url head in
        if decide (url ∈ visited_urls self)
        then Some (mkCrawler (visited_urls self) rest (crawled_pages self) (trace self))
        else
          let visited := {[url]} ∪ visited_urls self in
          if respect_robots_txt config && negb (can_fetch url)
          then Some (mkCrawler visited rest (crawled_pages self) (trace self))
          else
            let '(page, tr) := fetch_page session url 0 in
            match page with
            | Some p =>
                Some (mkCrawler visited (rest ++ new_links visited url p)
                        (crawled_pages self ++ [p])
                        (trace self ++ tr ++ [Sleep (1/2)]))
            | None =>
                Some (mkCrawler visited rest (crawled_pages self)
                        (trace self ++ tr ++ [Sleep (1/2)]))
            end
  end.

(** [WebCrawler.crawl_worker], run for at most [fuel] iterations; [None]
    when the loop has not finished by then. *)
Fixpoint crawl_worker (fuel : nat) (session : bool) (self : crawler)
  : option crawler :=
  match crawl_step session self with
  | None => Some self
  | Some self' =>
      match fuel with
      | 0 => None
      | S fuel' => crawl_worker fuel' session self'
      end
  end.

(** [WebCrawler.__init__] *)
Definition init : crawler :=
  {| visited_urls := ∅; to_visit := seed_urls config;
     crawled_pages := []; trace := [] |}.

End World.

End Crawler.

(** ** [text_processor.py]: [TextProcessor] *)

Module TextProcessor.
Import PyStr.

(** [TextProcessor.clean_text]: [re.sub(r'\s+', ' ', text).strip()] *)
Definition clean_text (text : string) : string :=
  strip (sub_runs is_space " " false text).

(** Every white-space character of [s] is a space that is not preceded
    by another one; [prev_space] tells whether the character before [s]
    was white space. *)
Fixpoint single_spaced (prev_space : bool) (s : string) : bool :=
  match s with
  | EmptyString => true
  | String c s' =>
      if is_space c
      then Ascii.eqb c " " && negb prev_space && single_spaced true s'
      else single_spaced false s'
  end.

(** [re.match(r'^[a-z0-9]+$', t)]: one or more lower-case letters or
    digits, then the end of the string or one final newline. *)
Definition is_alnum_lower (c : ascii) : bool :=
  let n := nat_of_ascii c in
  (((97 <=? n) && (n <=? 122)) || ((48 <=? n) && (n <=? 57)))%nat.

Fixpoint all_alnum_then_end (s : string) : bool :=
  match s with
  | EmptyString => true
  | String c EmptyString => is_alnum_lower c || Ascii.eqb c "010"
  | String c s' => is_alnum_lower c && all_alnum_then_end s'
  end.

Definition token_matches (t : string) : bool :=
  match t with
  | EmptyString => false
  | String c _ => is_alnum_lower c && all_alnum_then_end t
  end.

Section Tokenize.

(** [nltk.tokenize.word_tokenize] *)
Variable word_tokenize : string -> list string.

(** [self.remove_stopwords] and [self.stopwords_set] *)
Variable remove_stopwords : bool.
Variable stopwords_set : gset string.

(** [TextProcessor.tokenize] *)
Definition tokenize (text : string) : list string :=
  let text := lower text in
  let tokens := word_tokenize text in
  let tokens := filter (λ t, token_matches t = true) tokens in
  if remove_stopwords then filter (λ t, t ∉ stopwords_set) tokens else tokens.

End Tokenize.

End TextProcessor.

(** ** [web_crawler.py]: [RobotsTxtParser] *)

Module Robots.
Import PyStr.

(** The state of the loop of [_parse_robots_txt]: [current_agent] and
    [disallowed]. *)
Definition parse_state : Type := option string * list string.

(** [current_agent == '*' or current_agent == user_agent] *)
Definition agent_applies (current_agent : option string) (user_agent : string) : bool :=
  match current_agent with
  | Some a => String.eqb a "*" || String.eqb a user_agent
  | None => false
  end.

(** One iteration of the loop; [None] is an [IndexError]. *)
Definition parse_line (user_agent : string) (st : parse_state) (raw : string)
  : option parse_state :=
  let line := strip (split_head "#" raw) in
  if String.eqb line EmptyString then Some st
  else if startswith "user-agent:" (lower line) then
    v ← after_first ":" line; Some (Some (strip v), st.2)
  else if startswith "disallow:" (lower line) && agent_applies st.1 user_agent then
    v ← after_first ":" line;
    let path := strip v in
    if String.eqb path EmptyString then Some st else Some (st.1, st.2 ++ [path])
  else Some st.

Fixpoint parse_lines (user_agent : string) (lines : list string) (st : parse_state)
  : option parse_state :=
  match lines with
  | [] => Some st
  | raw :: rest => st' ← parse_line user_agent st raw; parse_lines user_agent rest st'
  end.

(** The agent a line names, when it is a [User-agent] line. *)
Definition named_agent (raw : string) : option string :=
  let line := strip (split_head "#" raw) in
  if String.eqb line EmptyString then None
  else if startswith "user-agent:" (lower line) then strip <$> after_first ":" line
  else None.

(** [RobotsTxtParser._parse_robots_txt] *)
Definition parse_robots_txt (content user_agent : string) : option (list string) :=
  snd <$> parse_lines user_agent (split_on "010" content) (None, []).

(** A non-empty path without surrounding white space, [#] or line break. *)
Definition clean_path (path : string) : Prop :=
  path ≠ EmptyString
  ∧ first_is is_space path = false ∧ last_is is_space path = false
  ∧ count_char "#" path = 0 ∧ count_char "010" path = 0.

(** The caches of a [RobotsTxtParser]; a [datetime] is a number of
    microseconds. *)
Record RobotsTxtParser := mkRobots {
  cache : gmap string (list string);
  cache_expiry : gmap string Z
}.

(** [timedelta(hours=24)] *)
Definition hours_24 : Z := 86400000000.

(** [not any(url.startswith(f"{domain}{path}") for path in disallowed)] *)
Definition allowed (url domain : string) (disallowed : list string) : bool :=
  negb (existsb (λ path, startswith (domain +:+ path) url) disallowed).

Section CanFetch.

Variable urlparse : string -> string * string.

(** What the request for a robots.txt URL does. *)
Variable robots_get : string -> Crawler.response.

(** [f"{parsed.scheme}://{parsed.netloc}"] *)
Definition domain_of (url : string) : string :=
  (urlparse url).1 +:+ "://" +:+ (urlparse url).2.

(** The cached rules of a domain, if [now] is before their expiry. *)
Definition fresh_rules (now : Z) (domain : string) (self : RobotsTxtParser)
  : option (list string) :=
  match cache self !! domain with
  | Some disallowed =>
      match cache_expiry self !! domain with
      | Some expiry => if (now <? expiry)%Z then Some disallowed else None
      | None => None
      end
  | None => None
  end.

(** [RobotsTxtParser.can_fetch] with an open session. [now] and [later]
    are the two readings of [datetime.now()]. The result comes with the
    parser afterwards and the URLs requested. *)
Definition can_fetch (now later : Z) (url user_agent : string)
  (self : RobotsTxtParser) : bool * RobotsTxtParser * list string :=
  let domain := domain_of url in
  match fresh_rules now domain self with
  | Some disallowed => (allowed url domain disallowed, self, [])
  | None =>
      let robots_url := domain +:+ "/robots.txt" in
      match robots_get robots_url with
      | Crawler.Response status content =>
          if (status =? 200)%Z then
            match parse_robots_txt content user_agent with
            | Some disallowed =>
                (allowed url domain disallowed,
                 {| cache := <[domain := disallowed]> (cache self);
                    cache_expiry := <[domain := (later + hours_24)%Z]> (cache_expiry self) |},
                 [robots_url])
            | None => (true, self, [robots_url])
            end
          else (true, self, [robots_url])
      | _ => (true, self, [robots_url])
      end
  end.

End CanFetch.

End Robots.

(** ** [snippets.py]: [SnippetGenerator] *)

Module Snippets.
Import PyStr.

(** The character class [[.!?]] *)
Definition is_terminator (c : ascii) : bool :=
  Ascii.eqb c "." || Ascii.eqb c "!" || Ascii.eqb c "?".

(** [SnippetGenerator._split_sentences] *)
Definition split_sentences (text : string) : list string :=
  let sentences := split_runs is_terminator false text in
  map strip (filter (λ s, strip s ≠ EmptyString) sentences).

(** [SnippetGenerator._score_sentence]; the score only counts. *)
Definition score_sentence (sentence : string) (query_terms : list string) : nat :=
  let sentence_lower := lower sentence in
  fold_left
    (λ score term, if contains (lower term) sentence_lower then score + 1 else score)
    query_terms 0.

(** The loop of [generate_snippet]: [(best_sentence, best_score)]. *)
Definition best_step (query_terms : list string) (acc : option string * nat)
  (sentence : string) : option string * nat :=
  let score := score_sentence sentence query_terms in
  if acc.2 <? score then (Some sentence, score) else acc.

(** A sentence cut to [snippet_length] characters, with the ellipsis. *)
Definition truncated (snippet_length : nat) (sentence : string) : string :=
  if snippet_length <? String.length sentence
  then str_take snippet_length sentence +:+ "..."
  else sentence.

(** [SnippetGenerator.generate_snippet] *)
Definition generate_snippet (snippet_length : nat) (text : string)
  (query_terms : list string) : string :=
  match text, query_terms with
  | EmptyString, _ => str_take snippet_length text
  | _, [] => str_take snippet_length text
  | _, _ =>
      match split_sentences text with
      | [] => str_take snippet_length text
      | (first :: _) as sentences =>
          let best := fold_left (best_step query_terms) sentences (None, 0) in
          let best_sentence := default first best.1 in
          let best_sentence :=
            if snippet_length <? String.length best_sentence
            then str_take snippet_length best_sentence +:+ "..."
            else best_sentence in
          strip best_sentence
      end
  end.

End Snippets.

(** ** [indexer.py]: [Indexer] *)

Module Pipeline.
Import Indexer.

(** The fields of a [PageContent] read by [index_page]; [crawl_time] is
    already in ISO format. *)
Record page := mkPage {
  pg_url : string;
  pg_title : string;
  pg_text : string;
  pg_headings : list string;
  pg_description : string;
  pg_crawl_time : string
}.

(** [range(int(boost))]: the number of passes for a boost factor. [int]
    rounds towards zero and [Int_part] down; they differ only below zero,
    where the range is empty either way. *)
Definition passes (boost : R) : nat := Z.to_nat (Int_part boost).

(** The postings one [index_terms doc_id tokens] call appends for [t]. *)
Definition new_postings (doc_id : Z) (t : string) (tokens : list string)
  : list posting :=
  if decide (0 < occurrences t tokens)
  then [Posting doc_id (occurrences t tokens) (offsets_from 0 t tokens)]
  else [].

(** [n] copies of a list, one after the other. *)
Definition copies {A} (n : nat) (l : list A) : list A := concat (replicate n l).

Definition repeat_index_terms (n : nat) (doc_id : Z) (tokens : list string)
  (self : InvertedIndex) : InvertedIndex :=
  Nat.iter n (index_terms doc_id tokens) self.

Section IndexPage.

(** [TextProcessor.tokenize] of the indexer's text processor. *)
Variable tokenize : string -> list string.

(** The database and [DatabaseManager.insert_document]. *)
Variable DB : Type.
Variable insert_document : page -> DB -> Z * DB.

Variable index_title_boost index_heading_boost : R.

Definition page_metadata (pc : page) : metadata :=
  <["url" := pg_url pc]>
    (<["title" := pg_title pc]>
       (<["description" := pg_description pc]>
          (<["crawl_time" := pg_crawl_time pc]> ∅))).

(** [Indexer.index_page]; the [doc_id] argument is not read. *)
Definition index_page (doc_id : Z) (pc : page) (self : InvertedIndex * DB)
  : bool * (InvertedIndex * DB) :=
  let doc_metadata := page_metadata pc in
  let '(db_id, db) := insert_document pc self.2 in
  if (db_id <=? 0)%Z then (false, (self.1, db))
  else
    let idx := add_document db_id doc_metadata self.1 in
    let title_tokens := tokenize (pg_title pc) in
    let idx := repeat_index_terms (passes index_title_boost) db_id title_tokens idx in
    let heading_text := PyStr.join " " (pg_headings pc) in
    let heading_tokens := tokenize heading_text in
    let idx := repeat_index_terms (passes index_heading_boost) db_id heading_tokens idx in
    let text_tokens := tokenize (pg_text pc) in
    let idx := index_terms db_id text_tokens idx in
    (true, (idx, db)).

(** The loop of [index_pages]: [(indexed_count, state)]. *)
Definition index_pages_step (acc : nat * (InvertedIndex * DB)) (ip : nat * page)
  : nat * (InvertedIndex * DB) :=
  let '(ok, st) := index_page (Z.of_nat ip.1 + 1) ip.2 acc.2 in
  if ok then (acc.1 + 1, st) else (acc.1, st).

(** [Indexer.index_pages] *)
Definition index_pages (pages : list page) (self : InvertedIndex * DB)
  : nat * (InvertedIndex * DB) :=
  fold_left index_pages_step (enumerate_from 0 pages) (0, self).

End IndexPage.

End Pipeline.

(** ** Concrete inputs, taken from the repository's tests where they exist *)

Module Scenarios.
Import Indexer.

(** The index of [test_json_persistence]. *)
Definition saved_index : InvertedIndex :=
  index_terms 1 ["test"; "data"]
    (add_document 1 {[ "url" := "https://example.com" ]} init).

(** Scenario A of the specification: "hello world" and "hello". *)
Definition hello_world_index : InvertedIndex :=
  index_terms 2 ["hello"]
    (index_terms 1 ["hello"; "world"] (add_document 2 ∅ (add_document 1 ∅ init))).

(** Three documents; "a" is indexed for document 2 first, then for 1. *)
Definition tie_index : InvertedIndex :=
  index_terms 1 ["a"]
    (index_terms 2 ["a"]
       (add_document 3 ∅ (add_document 2 ∅ (add_document 1 ∅ init)))).

(** Three documents and one posting for "x" ... *)
Definition early_index : InvertedIndex :=
  index_terms 1 ["x"]
    (add_document 3 ∅ (add_document 2 ∅ (add_document 1 ∅ init))).

(** ... and the same index after two more documents were indexed. *)
Definition late_index : InvertedIndex :=
  index_terms 3 ["x"; "y"] (index_terms 2 ["x"; "y"] early_index).

(** Two documents, one of them with the term "b"; no document has "a". *)
Definition two_docs_index : InvertedIndex :=
  index_terms 1 ["b"] (add_document 2 ∅ (add_document 1 ∅ init)).

(** One document indexed twice, as the boosting of [index_page] does. *)
Definition boosted_index : InvertedIndex :=
  index_terms 1 ["hello"] (index_terms 1 ["hello"; "hello"] (add_document 1 ∅ init)).

(** A robots.txt file with a group for every agent and one for
    "googlebot" (with a comment and a blank line). *)
Definition robots_file : string :=
  PyStr.join (String "010" EmptyString)
    ["# rules"; "User-agent: *"; "Disallow: /private  # keep out";
     "Disallow:"; "DISALLOW: /tmp/"; EmptyString;
     "User-agent: googlebot"; "Disallow: /search"].

(** A server without robots.txt, and one that serves [robots_file]. *)
Definition robots_down (url : string) : Crawler.response := Crawler.TimeoutError.

Definition robots_up (url : string) : Crawler.response :=
  Crawler.Response 200 robots_file.

(** A crawl of one site: a single seed, a cap of five pages, three
    retries with base 2. *)
Definition demo_config : Crawler.CrawlerConfig :=
  Crawler.mkConfig ["https://example.com"] 5 true 3 2 false.

(** Every request is answered with status 404. *)
Definition always_404 (url : string) (attempt : nat) : Crawler.response :=
  Crawler.Response 404 "Not Found".

(** Every request times out. *)
Definition always_timeout (url : string) (attempt : nat) : Crawler.response :=
  Crawler.TimeoutError.

(** Every request is answered with a page without links. *)
Definition single_page (url : string) (attempt : nat) : Crawler.response :=
  Crawler.Response 200 "<html></html>".

Definition no_links (html base_url : string) : list string := [].

Definition allow_all (url : string) : bool := true.

Definition example_urlparse (url : string) : string * string :=
  ("https", "example.com").

(** A small site: the home page links to a page that times out once, to
    a PDF, to another site and to a page robots.txt disallows. *)
Definition site_get (url : string) (attempt : nat) : Crawler.response :=
  if String.eqb url "https://example.com" then Crawler.Response 200 "home"
  else if String.eqb url "https://example.com/a" then
    match attempt with
    | 0 => Crawler.TimeoutError
    | S _ => Crawler.Response 200 "a"
    end
  else Crawler.Response 404 "missing".

Definition site_links (html base_url : string) : list string :=
  if String.eqb html "home"
  then ["https://example.com/a"; "https://example.com/doc.PDF";
        "https://other.org/x"; "https://example.com/private"]
  else ["https://example.com"].

Definition site_urlparse (url : string) : string * string :=
  if PyStr.startswith "https://example.com" url then ("https", "example.com")
  else ("https", "other.org").

Definition site_can_fetch (url : string) : bool :=
  negb (PyStr.startswith "https://example.com/private" url).

(** The state in which the crawl of the small site ends. *)
Definition site_final : Crawler.crawler :=
  Crawler.mkCrawler
    ({["https://example.com/private"]}
       ∪ ({["https://example.com/a"]} ∪ ({["https://example.com"]} ∪ ∅)))
    []
    [Crawler.page_content site_links "https://example.com" "home" 200;
     Crawler.page_content site_links "https://example.com/a" "a" 200]
    [Crawler.Get "https://example.com" 0; Crawler.Sleep (1/2);
     Crawler.Get "https://example.com/a" 0; Crawler.Sleep (2 ^ 0);
     Crawler.Get "https://example.com/a" 1; Crawler.Sleep (1/2)].

(** The same crawl with a cap of one page, and the state it ends in. *)
Definition capped_config : Crawler.CrawlerConfig :=
  Crawler.mkConfig ["https://example.com"] 1 true 3 2 false.

Definition site_capped : Crawler.crawler :=
  Crawler.mkCrawler
    ({["https://example.com"]} ∪ ∅)
    ["https://example.com/a"; "https://example.com/private"]
    [Crawler.page_content site_links "https://example.com" "home" 200]
    [Crawler.Get "https://example.com" 0; Crawler.Sleep (1/2)].

(** A page, a tokenizer that splits at spaces, and a database that hands
    out the row ids 1, 2, ... *)
Definition demo_page : Pipeline.page :=
  Pipeline.mkPage "https://example.com/" "hello world" "hello there hello"
    ["hello"; "news"] "a page" "2024-01-01T00:00:00".

Definition space_tokenize (text : string) : list string := PyStr.split_on " " text.

Definition next_row (pc : Pipeline.page) (rows : nat) : Z * nat :=
  (Z.of_nat (S rows), S rows).

End Scenarios.

(** * Properties *)

(** ** URL normalisation *)

Section NormalizeUrl.
Import PyStr URLProcessor.

Lemma split_head_no_sep c s : count_char c (split_head c s) = 0.
Proof.
  induction s as [|d s IH]; simpl; [done|].
  destruct (Ascii.eqb c d) eqn:E; simpl; [done|]. by rewrite E.
Qed.

(** The normalised URL never contains a fragment marker. *)
Lemma normalize_url_no_fragment u : count_char "#" (normalize_url u) = 0.
Proof. unfold normalize_url. apply split_head_no_sep. Qed.

Lemma rstrip_char_no_trailing c s : endswith_char c (rstrip_char c s) = false.
Proof.
  unfold rstrip_char. induction s as [|d s IH]; simpl; [done|].
  destruct (rstrip_by (Ascii.eqb c) s) as [|e r] eqn:Hr.
  - destruct (Ascii.eqb c d) eqn:Hcd; simpl; [done|]. by rewrite Hcd.
  - done.
Qed.

Lemma split_head_id c s : count_char c s = 0 → split_head c s = s.
Proof.
  induction s as [|d s IH]; simpl; [done|].
  destruct (Ascii.eqb c d); simpl; [done|]. intros H. by rewrite IH.
Qed.

Lemma rstrip_by_count_0 c p s :
  count_char c s = 0 → count_char c (rstrip_by p s) = 0.
Proof.
  induction s as [|d s IH]; [done|]. cbn [count_char rstrip_by].
  destruct (Ascii.eqb c d) eqn:Hd; [done|]. intros Hs. specialize (IH Hs).
  destruct (rstrip_by p s) as [|e r].
  - destruct (p d); cbn [count_char]; [done|]. by rewrite Hd.
  - cbn [count_char] in *. by rewrite Hd.
Qed.

(** Without a fragment the deep trailing slash does go away: a normalised
    URL that still ends in a slash has at most three slashes. *)
Lemma normalize_url_no_deep_trailing_slash u :
  count_char "#" (strip u) = 0 →
  endswith_char "/" (normalize_url u) = true →
  count_char "/" (normalize_url u) ≤ 3.
Proof.
  unfold normalize_url. intros Hfrag.
  destruct (endswith_char "/" (strip u)) eqn:Hend; simpl.
  - destruct (Nat.ltb_spec 3 (count_char "/" (strip u))) as [Hdeep|Hroot].
    + rewrite split_head_id by (by apply rstrip_by_count_0).
      by rewrite rstrip_char_no_trailing.
    + rewrite split_head_id by done. done.
  - rewrite split_head_id by done. by rewrite Hend.
Qed.

Example normalize_url_plain :
  normalize_url "  https://example.com/a/b/  " = "https://example.com/a/b".
Proof. reflexivity. Qed.

Example normalize_url_root : normalize_url "https://example.com/" = "https://example.com/".
Proof. reflexivity. Qed.

(** C6. [normalize_url] strips the trailing slash before it removes the
    fragment, so for the URL of the repository's own test,
    ["https://example.com/path/#fragment"], the result still ends in a
    slash although its path lies below the domain root (four slashes). *)
Theorem normalize_url_keeps_slash_before_fragment :
  normalize_url "https://example.com/path/#fragment" = "https://example.com/path/"
  ∧ endswith_char "/" (normalize_url "https://example.com/path/#fragment") = true
  ∧ 3 < count_char "/" (normalize_url "https://example.com/path/#fragment")
  ∧ normalize_url "https://example.com/path/" = "https://example.com/path".
Proof. vm_compute. repeat split; lia. Qed.

End NormalizeUrl.

(** ** The inverted index *)

Section IndexerFacts.
Import Indexer.

(** Reading an item of a [defaultdict] with [d[k]] does create the key;
    this is what [get_postings] avoids by calling [.get]. *)
Lemma dd_getitem_creates {V} (d : gmap string (list V)) k :
  d !! k = None → (dd_getitem d k).2 !! k = Some [].
Proof. intros H. unfold dd_getitem. rewrite H. simpl. apply lookup_insert_eq. Qed.

Lemma dd_get_append {V} (d : gmap string (list V)) k x t :
  dd_get (dd_append d k x) t
  = if decide (t = k) then dd_get d k ++ [x] else dd_get d t.
Proof.
  unfold dd_append, dd_getitem, dd_get.
  destruct (decide (t = k)) as [->|Hne].
  - destruct (d !! k) as [v|]; simpl; by rewrite lookup_insert_eq.
  - destruct (d !! k) as [v|]; simpl; by rewrite !lookup_insert_ne.
Qed.

(** C10. [get_postings] only observes: whatever the term, the index it
    leaves behind is the index it was called on (so the term map, the
    documents and the document count are unchanged), and for a term that
    was never indexed it returns the empty sequence without creating an
    entry for it, although reading the same [defaultdict] with
    [self.index[term]] would have created one. *)
Theorem get_postings_observation_only (self : InvertedIndex) (t : string) :
  (get_postings t self).2 = self
  ∧ index (get_postings t self).2 = index self
  ∧ documents (get_postings t self).2 = documents self
  ∧ document_count (get_postings t self).2 = document_count self
  ∧ (index self !! t = None →
     (get_postings t self).1 = []
     ∧ index (get_postings t self).2 !! t = None
     ∧ (dd_getitem (index self) t).2 ≠ index self).
Proof.
  do 4 (split; [done|]).
  intros Hnone. unfold get_postings, dd_get. simpl. rewrite Hnone.
  split_and!; [done|done|].
  intros Heq. pose proof (dd_getitem_creates _ _ Hnone) as Hcreated.
  rewrite Heq in Hcreated. congruence.
Qed.

Lemma get_postings_observation_only_witness :
  index init !! "never" = None
  ∧ (get_postings "never" init).1 = []
  ∧ index (get_postings "never" init).2 !! "never" = None
  ∧ (dd_getitem (index init) "never").2 ≠ index init.
Proof.
  split; [reflexivity|].
  apply (get_postings_observation_only init "never"). reflexivity.
Defined.

(** *** Document count *)

Lemma index_terms_fold_frame doc_id tp self :
  let s := fold_left
    (λ s '(term, positions),
       set_index (dd_append (index s) term
                    (Posting doc_id (length positions) positions)) s) tp self in
  document_count s = document_count self ∧ documents s = documents self.
Proof.
  revert self. induction tp as [|[t ps] tp IH]; intros self; simpl; [done|].
  destruct (IH (set_index (dd_append (index self) t (Posting doc_id (length ps) ps)) self))
    as [H1 H2].
  simpl in *. by rewrite H1, H2.
Qed.

Lemma index_terms_document_count d ts self :
  document_count (index_terms d ts self) = document_count self.
Proof. apply index_terms_fold_frame. Qed.

Lemma index_terms_documents d ts self :
  documents (index_terms d ts self) = documents self.
Proof. apply index_terms_fold_frame. Qed.

Lemma run_snoc ops o : run (ops ++ [o]) = run_op (run ops) o.
Proof. unfold run. by rewrite fold_left_app. Qed.

(** The count is the number of [add_document] calls. *)
Lemma document_count_is_call_count ops :
  document_count (run ops) = length (added_ids ops).
Proof.
  induction ops as [|o ops IH] using rev_ind; [done|].
  rewrite run_snoc. unfold added_ids in *. rewrite omap_app, length_app.
  destruct o; simpl.
  - rewrite IH. lia.
  - rewrite index_terms_document_count, IH. lia.
  - rewrite IH. lia.
Qed.

(** The stored documents are those of the distinct identifiers added. *)
Lemma documents_dom_run ops :
  dom (documents (run ops)) = list_to_set (KInt <$> added_ids ops).
Proof.
  induction ops as [|o ops IH] using rev_ind; [set_solver|].
  rewrite run_snoc. unfold added_ids in *. rewrite omap_app, fmap_app, list_to_set_app_L.
  destruct o; simpl.
  - rewrite dom_insert_L, IH. set_solver.
  - rewrite index_terms_documents, IH. set_solver.
  - rewrite IH. set_solver.
Qed.

(** C4. Adding the same docID twice, as in
    [add_document(1, m); add_document(1, m')], leaves one stored document
    and one distinct identifier, but a document count of 2. *)
Theorem add_document_twice_counts_twice (m m' : metadata) :
  let self := run [AddDocument 1 m; AddDocument 1 m'] in
  document_count self = 2
  ∧ size (documents self) = 1
  ∧ length (remove_dups (added_ids [AddDocument 1 m; AddDocument 1 m'])) = 1.
Proof.
  simpl. split; [reflexivity|]. split; [|reflexivity].
  unfold run, add_document; simpl.
  rewrite insert_insert_eq. rewrite insert_empty. apply map_size_singleton.
Qed.

End IndexerFacts.

(** *** Postings produced by [index_terms] *)

Section IndexTerms.
Import Indexer.

Lemma od_get_append t k v d :
  od_get t (od_append k v d)
  = if decide (t = k) then od_get k d ++ [v] else od_get t d.
Proof.
  induction d as [|[k' vs] d IH]; simpl.
  - by destruct (decide (t = k)).
  - destruct (decide (k = k')) as [->|Hkk']; simpl.
    + by destruct (decide (t = k')).
    + rewrite IH. destruct (decide (t = k')) as [->|?]; [|done].
      by rewrite decide_False by congruence.
Qed.

Lemma od_keys_append k v d :
  (od_append k v d).*1 = if decide (k ∈ d.*1) then d.*1 else d.*1 ++ [k].
Proof.
  induction d as [|[k' vs] d IH]; [done|]. csimpl.
  destruct (decide (k = k')) as [->|Hkk']; csimpl.
    + rewrite decide_True; [done|]. left.
    + rewrite IH. destruct (decide (k ∈ d.*1)) as [Hin|Hnin].
      * rewrite decide_True; [done|]. by right.
      * rewrite decide_False; [done|]. by intros [?|?]%elem_of_cons.
Qed.

Lemma od_append_NoDup k v d : NoDup d.*1 → NoDup (od_append k v d).*1.
Proof.
  intros Hd. rewrite od_keys_append. case_decide; [done|].
  apply NoDup_app. split_and!; [done| |apply NoDup_singleton].
  intros x Hx ->%list_elem_of_singleton. done.
Qed.

Lemma od_append_nonempty k v d :
  Forall (λ e, e.2 ≠ []) d → Forall (λ e, e.2 ≠ []) (od_append k v d).
Proof.
  induction 1 as [|[k' vs] d Hx Hd IH]; simpl.
  - by repeat constructor.
  - case_decide; constructor; simpl; try done.
    by intros [? _]%app_eq_nil.
Qed.

Lemma od_get_key t d :
  Forall (λ e, e.2 ≠ []) d → (t ∈ d.*1 ↔ od_get t d ≠ []).
Proof.
  induction 1 as [|[k' vs] d Hx Hd IH]; simpl.
  - split; [by intros ?%elem_of_nil|done].
  - rewrite elem_of_cons. simpl. case_decide as Hk; [subst; tauto|].
    rewrite <- IH. tauto.
Qed.

Lemma build_positions_fold t l : ∀ k tp,
  let r := fold_left (λ tp '(position, term), od_append term position tp)
                     (enumerate_from k l) tp in
  od_get t r = od_get t tp ++ offsets_from k t l
  ∧ (NoDup tp.*1 → NoDup r.*1)
  ∧ (Forall (λ e, e.2 ≠ []) tp → Forall (λ e, e.2 ≠ []) r).
Proof.
  induction l as [|x l IH]; intros k tp; simpl.
  - by rewrite app_nil_r.
  - unfold enumerate_from in IH.
    destruct (IH (S k) (od_append x k tp)) as (Hget & Hnd & Hne).
    split_and!.
    + rewrite Hget, od_get_append.
      destruct (decide (t = x)) as [->|Hne'].
      * rewrite decide_True by done. by rewrite <- app_assoc.
      * rewrite decide_False by done. done.
    + intros ?. by apply Hnd, od_append_NoDup.
    + intros ?. by apply Hne, od_append_nonempty.
Qed.

Lemma build_positions_spec t terms :
  od_get t (build_positions terms) = offsets_from 0 t terms
  ∧ NoDup (build_positions terms).*1
  ∧ Forall (λ e, e.2 ≠ []) (build_positions terms).
Proof.
  destruct (build_positions_fold t terms 0 []) as (H1 & H2 & H3).
  split_and!; [done|apply H2; constructor|apply H3; constructor].
Qed.

Lemma offsets_from_length k t terms :
  length (offsets_from k t terms) = occurrences t terms.
Proof.
  unfold occurrences. revert k.
  induction terms as [|x terms IH]; intros k; simpl; [done|].
  rewrite length_app, IH, filter_cons.
  destruct (decide (x = t)); simpl; lia.
Qed.

Lemma offsets_from_elem k t terms i :
  i ∈ offsets_from k t terms ↔ k ≤ i ∧ terms !! (i - k) = Some t.
Proof.
  revert k. induction terms as [|x terms IH]; intros k; simpl.
  - rewrite elem_of_nil. naive_solver.
  - rewrite elem_of_app, IH. destruct (decide (x = t)) as [->|Hne].
    + rewrite list_elem_of_singleton. split.
      * intros [->|[Hle Hl]].
        -- split; [lia|]. by replace (k - k) with 0 by lia.
        -- split; [lia|]. by replace (i - k) with (S (i - S k)) by lia.
      * intros [Hle Hl]. destruct (decide (i = k)) as [->|?]; [by left|right].
        split; [lia|]. by replace (i - k) with (S (i - S k)) in Hl by lia.
    + rewrite elem_of_nil. split.
      * intros [[]|[Hle Hl]].
        split; [lia|]. by replace (i - k) with (S (i - S k)) by lia.
      * intros [Hle Hl]. right. destruct (decide (i = k)) as [->|?].
        -- replace (k - k) with 0 in Hl by lia. simpl in Hl. congruence.
        -- split; [lia|]. by replace (i - k) with (S (i - S k)) in Hl by lia.
Qed.

Lemma offsets_from_sorted k t terms : StronglySorted lt (offsets_from k t terms).
Proof.
  revert k. induction terms as [|x terms IH]; intros k; simpl; [constructor|].
  destruct (decide (x = t)); simpl; [|apply IH].
  constructor; [apply IH|].
  apply Forall_forall. intros i [Hle _]%offsets_from_elem. lia.
Qed.

Lemma index_terms_fold_postings doc_id t tp : ∀ self,
  NoDup tp.*1 →
  dd_get (index (fold_left
    (λ s '(term, positions),
       set_index (dd_append (index s) term
                    (Posting doc_id (length positions) positions)) s) tp self)) t
  = dd_get (index self) t
    ++ (if decide (t ∈ tp.*1)
        then [Posting doc_id (length (od_get t tp)) (od_get t tp)] else []).
Proof.
  induction tp as [|[t' ps] tp IH]; intros self Hnd; simpl.
  - by rewrite app_nil_r.
  - apply NoDup_cons in Hnd as [Hnin Hnd]. rewrite IH by done. simpl.
    rewrite dd_get_append.
    destruct (decide (t = t')) as [->|Hne].
    + rewrite (decide_False (P := t' ∈ tp.*1)) by done.
      rewrite decide_True by left. by rewrite app_nil_r.
    + destruct (decide (t ∈ tp.*1)) as [Hin|Hnin'].
      * rewrite decide_True by (by right). done.
      * rewrite decide_False; [done|]. by intros [?|?]%elem_of_cons.
Qed.

(** The postings of [t] after one [index_terms] call. *)
Lemma index_terms_postings_of d terms t self :
  postings_of (index_terms d terms self) t
  = postings_of self t
    ++ (if decide (0 < occurrences t terms)
        then [Posting d (occurrences t terms) (offsets_from 0 t terms)] else []).
Proof.
  unfold postings_of, get_postings, index_terms. simpl.
  destruct (build_positions_spec t terms) as (Hget & Hnd & Hne).
  rewrite index_terms_fold_postings by done.
  f_equal. rewrite Hget, offsets_from_length.
  destruct (decide (t ∈ (build_positions terms).*1)) as [Hin|Hnin].
  - apply (od_get_key t _ Hne) in Hin. rewrite Hget in Hin.
    rewrite decide_True; [done|].
    rewrite <- (offsets_from_length 0). destruct (offsets_from 0 t terms); simpl; [done|lia].
  - rewrite (od_get_key t _ Hne), Hget in Hnin.
    rewrite decide_False; [done|].
    rewrite <- (offsets_from_length 0). destruct (offsets_from 0 t terms); simpl; [lia|].
    exfalso. by apply Hnin.
Qed.

(** C8. One [index_terms(docID, tokens)] call appends, for a term [t] that
    occurs [f > 0] times in [tokens], exactly one posting to [t]'s list:
    it carries [docID], frequency [f] and the [f] increasing 0-based
    offsets of [t] in [tokens]. A later call for the same docID appends a
    second posting of its own; the frequencies are not added up. *)
Theorem index_terms_appends_one_posting
  (self : InvertedIndex) (d : Z) (tokens : list string) (t : string) :
  let f := occurrences t tokens in
  let positions := offsets_from 0 t tokens in
  0 < f →
  postings_of (index_terms d tokens self) t
    = postings_of self t ++ [Posting d f positions]
  ∧ length positions = f
  ∧ (∀ i, i ∈ positions ↔ tokens !! i = Some t)
  ∧ StronglySorted lt positions
  ∧ ∀ tokens', 0 < occurrences t tokens' →
      postings_of (index_terms d tokens' (index_terms d tokens self)) t
      = postings_of self t
        ++ [Posting d f positions;
            Posting d (occurrences t tokens') (offsets_from 0 t tokens')].
Proof.
  intros f positions Hf. split_and!.
  - rewrite index_terms_postings_of. by rewrite decide_True.
  - apply offsets_from_length.
  - intros i. unfold positions. rewrite offsets_from_elem.
    replace (i - 0) with i by lia. split; [tauto|]. split; [lia|done].
  - apply offsets_from_sorted.
  - intros tokens' Hf'. rewrite !index_terms_postings_of.
    rewrite !decide_True by done. by rewrite <- app_assoc.
Qed.

Lemma index_terms_appends_one_posting_witness :
  0 < occurrences "hello" ["hello"; "world"; "hello"]
  ∧ postings_of (index_terms 1 ["hello"; "world"; "hello"] init) "hello"
    = [Posting 1 2 [0; 2]].
Proof.
  split; [vm_compute; lia|].
  apply (index_terms_appends_one_posting init 1 ["hello"; "world"; "hello"] "hello").
  vm_compute; lia.
Defined.

(** A term that does not occur in the tokens gets no posting. *)
Lemma index_terms_absent_term d tokens t self :
  occurrences t tokens = 0 →
  postings_of (index_terms d tokens self) t = postings_of self t.
Proof.
  intros H0. rewrite index_terms_postings_of, H0.
  rewrite decide_False by lia. apply app_nil_r.
Qed.

End IndexTerms.

(** ** Persistence round trip *)

Section PersistenceFacts.
Import Indexer Persistence Scenarios.

Lemma od_set_fresh {V} k (v : V) d : k ∉ d.*1 → od_set k v d = d ++ [(k, v)].
Proof.
  induction d as [|[k' v'] d IH]; [done|]. csimpl.
  intros [Hne Hnin]%not_elem_of_cons. rewrite decide_False by done.
  by rewrite IH.
Qed.

Lemma py_items_fold_NoDup {V} (l : list (string * V)) : ∀ acc,
  NoDup (acc ++ l).*1 →
  fold_left (λ d '(k, v), od_set k v d) l acc = acc ++ l.
Proof.
  induction l as [|[k v] l IH]; intros acc Hnd; simpl.
  - by rewrite app_nil_r.
  - rewrite od_set_fresh.
    + rewrite IH; rewrite <- app_assoc; done.
    + rewrite fmap_app in Hnd. apply NoDup_app in Hnd as (_ & Hd & _).
      intros Hin. apply (Hd k Hin). csimpl. left.
Qed.

(** Distinct keys: the loaded dict lists the fields as written. *)
Lemma py_items_NoDup {V} (l : list (string * V)) : NoDup l.*1 → py_items l = l.
Proof. intros H. unfold py_items. by rewrite py_items_fold_NoDup. Qed.

Lemma od_set_Forall {V} (P : string * V → Prop) k v d :
  P (k, v) → Forall P d → Forall P (od_set k v d).
Proof.
  intros Hkv. induction 1 as [|[k' v'] d Hx Hd IH]; simpl.
  - by repeat constructor.
  - case_decide; subst; by constructor.
Qed.

Lemma py_items_Forall {V} (P : string * V → Prop) l :
  Forall P l → Forall P (py_items l).
Proof.
  unfold py_items. assert (Forall P []) as Hacc by constructor.
  revert Hacc. generalize (@nil (string * V)).
  induction l as [|[k v] l IH]; intros acc Hacc Hl; simpl; [done|].
  apply Forall_cons in Hl as [Hkv Hl]. apply IH; [|done].
  by apply od_set_Forall.
Qed.

Lemma decode_nat_encode n : decode_nat (JNum (Z.of_nat n)) = Some n.
Proof.
  simpl. destruct (Z.leb_spec 0 (Z.of_nat n)); [|lia]. by rewrite Nat2Z.id.
Qed.

Lemma decode_posting_encode p : decode_posting (encode_posting p) = Some p.
Proof.
  destruct p as [d f ps]. unfold encode_posting, decode_posting. simpl p_doc.
  simpl p_freq. simpl p_positions. rewrite decode_nat_encode. simpl.
  rewrite (mapM_fmap_Some decode_nat (λ i, JNum (Z.of_nat i)));
    [done|apply decode_nat_encode].
Qed.

Lemma decode_postings_encode ps :
  decode_postings (JArr (map encode_posting ps)) = Some ps.
Proof. simpl. apply mapM_fmap_Some, decode_posting_encode. Qed.

Lemma decode_metadata_encode m : decode_metadata (encode_metadata m) = Some m.
Proof.
  unfold decode_metadata, encode_metadata.
  rewrite py_items_NoDup.
  - rewrite (mapM_fmap_Some decode_str_field (λ '(k, v), (k, JStr v)) (map_to_list m)).
    + simpl. by rewrite list_to_map_to_list.
    + by intros [k v].
  - replace ((map (λ '(k, v), (k, JStr v)) (map_to_list m)).*1)
      with ((map_to_list m).*1); [apply NoDup_fst_map_to_list|].
    induction (map_to_list m) as [|[k v] l IH]; csimpl; [done|]. by rewrite IH.
Qed.

Lemma load_terms_index l : ∀ self,
  NoDup l.*1 →
  index (load_terms (map (λ '(term, postings),
                            (term, JArr (map encode_posting postings))) l) self)
  = list_to_map l ∪ index self.
Proof.
  induction l as [|[t ps] l IH]; intros self Hnd.
  - simpl. by rewrite (left_id_L ∅ (∪)).
  - rewrite fmap_cons in Hnd. apply NoDup_cons in Hnd as [Hnin Hnd].
    cbn [map load_terms]. rewrite decode_postings_encode, IH by done. simpl.
    rewrite <- insert_union_l.
    symmetry. apply insert_union_r. by apply not_elem_of_list_to_map_1.
Qed.

Lemma load_terms_frame l : ∀ self,
  document_count (load_terms l self) = document_count self
  ∧ documents (load_terms l self) = documents self.
Proof.
  induction l as [|[t j] l IH]; intros self; simpl; [done|].
  destruct (decode_postings j) as [ps|]; [|done].
  apply (IH (set_index (<[t:=ps]> (index self)) self)).
Qed.

(** The documents object written by [save_to_json] is always read back
    as a dict with string keys only. *)
Lemma decode_saved_documents (docs : gmap dockey metadata) :
  ∃ docs', decode_documents
      (JObj (map (λ '(k, m), (key_str k, encode_metadata m)) (map_to_list docs)))
    = Some docs'
    ∧ ∀ d, docs' !! KInt d = None.
Proof.
  unfold decode_documents.
  set (l := map _ (map_to_list docs)).
  destruct (mapM_is_Some_2 (λ kv, m ← decode_metadata kv.2; Some (KStr kv.1, m))
              (py_items l)) as [kvs Hkvs].
  { apply py_items_Forall. unfold l. apply Forall_forall.
    intros [k j] Hin. apply list_elem_of_fmap in Hin as ([k' m] & Heq & _).
    inversion Heq; subst. unfold compose. cbn [snd fst].
    rewrite decode_metadata_encode. by eexists. }
  rewrite Hkvs. eexists. split; [reflexivity|].
  intros d. apply not_elem_of_list_to_map_1.
  apply mapM_Some_1 in Hkvs. intros Hin.
  apply list_elem_of_fmap in Hin as ([k m] & Hk & Hin). simpl in Hk. subst k.
  apply list_elem_of_lookup in Hin as [i Hi].
  destruct (Forall2_lookup_r _ _ _ _ _ Hkvs Hi) as ([k j] & _ & Hdec).
  cbn [fst snd] in Hdec. destruct (decode_metadata j); simpl in Hdec; congruence.
Qed.

(** The postings survive the round trip, for every index and term ... *)
Lemma reload_index self : index (reload self) = index self.
Proof.
  unfold reload, load_from_json, save_to_json.
  change (py_items [("documents", ?a); ("index", ?b)])
    with [("documents", a); ("index", b)]. simpl od_lookup.
  destruct (decode_saved_documents (documents self)) as (docs' & Hdocs & _).
  cbn [mbind option_bind]. rewrite Hdocs.
  rewrite py_items_NoDup.
  - rewrite load_terms_index by apply NoDup_fst_map_to_list.
    simpl. by rewrite (right_id_L ∅ (∪)), list_to_map_to_list.
  - replace ((map (λ '(term, postings), (term, JArr (map encode_posting postings)))
                  (map_to_list (index self))).*1)
      with ((map_to_list (index self)).*1); [apply NoDup_fst_map_to_list|].
    induction (map_to_list (index self)) as [|[k v] l IH]; csimpl; [done|].
    by rewrite IH.
Qed.

Lemma reload_postings self t : postings_of (reload self) t = postings_of self t.
Proof. unfold postings_of, get_postings. simpl. by rewrite reload_index. Qed.

(** ... but no document is found under an [int] identifier afterwards. *)
Lemma reload_documents_int_key self d : documents (reload self) !! KInt d = None.
Proof.
  unfold reload, load_from_json, save_to_json.
  change (py_items [("documents", ?a); ("index", ?b)])
    with [("documents", a); ("index", b)]. simpl od_lookup.
  destruct (decode_saved_documents (documents self)) as (docs' & Hdocs & Hint).
  cbn [mbind option_bind]. rewrite Hdocs.
  match goal with |- documents (load_terms ?l ?s) !! _ = _ =>
    destruct (load_terms_frame l s) as [_ ->] end.
  apply Hint.
Qed.

Example reload_saved_index_postings :
  postings_of (reload saved_index) "test" = [Posting 1 1 [0]]
  ∧ document_count (reload saved_index) = 1.
Proof. vm_compute. done. Qed.

(** C1. After [save_to_json] and [load_from_json] the document stored
    under docID 1 is no longer found under that docID: [json.dump] wrote
    the key as the string "1" and the loaded dict keeps it so. An index in
    which docID 1 was added twice has count 2 before and 1 after. *)
Theorem reload_loses_documents :
  documents saved_index !! KInt 1 = Some {[ "url" := "https://example.com" ]}
  ∧ documents (reload saved_index) !! KInt 1 = None
  ∧ documents (reload saved_index) !! KStr "1"
    = Some {[ "url" := "https://example.com" ]}
  ∧ get_document (reload saved_index) 1 = ∅
  ∧ document_count (add_document 1 ∅ (add_document 1 ∅ init)) = 2
  ∧ document_count (reload (add_document 1 ∅ (add_document 1 ∅ init))) = 1.
Proof. vm_compute. done. Qed.

End PersistenceFacts.

(** ** Ranking *)

Section RankerFacts.
Import Indexer Ranker.

Local Open Scope R_scope.

Lemma same_idf_refl idx a : same_idf idx a a.
Proof. by split. Qed.

Lemma same_idf_trans idx a b c :
  same_idf idx a b → same_idf idx b c → same_idf idx a c.
Proof. intros [H1 H2] [H3 H4]. split; [congruence|]. intros t. by rewrite H2. Qed.

(** Caching a value does not change any later answer. *)
Lemma calculate_idf_same idx t self :
  same_idf idx (calculate_idf idx t self).2 self.
Proof.
  unfold same_idf, idf_of, calculate_idf.
  destruct (idf_cache self !! t) as [v|] eqn:Hc; [done|].
  destruct (postings_of idx t) as [|p ps] eqn:Hp; [done|].
  destruct (length (p :: ps) =? 0)%nat eqn:Hlen; [done|].
  unfold set_cache. cbn [snd fst boost_title idf_cache].
  split; [done|]. intros t'.
  destruct (decide (t' = t)) as [->|Hne].
  - rewrite lookup_insert_eq, Hc, Hp, Hlen. done.
  - rewrite lookup_insert_ne by done.
    destruct (idf_cache self !! t') as [v'|]; [done|].
    destruct (postings_of idx t') as [|p' ps']; [done|].
    by destruct (length (p' :: ps') =? 0)%nat.
Qed.

Lemma first_frequency_find d l :
  first_frequency d l = first_posting_frequency d l.
Proof.
  unfold first_posting_frequency.
  induction l as [|p l IH]; [done|]. cbn [first_frequency list_find].
  destruct (decide (p_doc p = d)); [done|].
  rewrite IH. by destruct (list_find _ l) as [[i q]|].
Qed.

(** Postings of the document that come after its first one are ignored. *)
Lemma first_frequency_ignores_later d pre p rest :
  Forall (λ q, p_doc q ≠ d) pre → p_doc p = d →
  first_frequency d (pre ++ p :: rest) = INR (p_freq p).
Proof.
  intros Hpre Hp. induction Hpre as [|q pre Hq _ IH]; simpl.
  - by rewrite decide_True.
  - by rewrite decide_False.
Qed.

Lemma score_term_spec idx d m acc t :
  (score_term idx d m acc t).1 = acc.1 + term_contribution idx acc.2 d m t
  ∧ same_idf idx (score_term idx d m acc t).2 acc.2.
Proof.
  unfold score_term, term_contribution, idf_of, calculate_tf.
  rewrite first_frequency_find.
  pose proof (calculate_idf_same idx t acc.2) as Hsame.
  destruct (calculate_idf idx t acc.2) as [idf self'] eqn:Hidf.
  destruct Hsame as [Hb Hi]. cbn [fst snd] in *. rewrite Hb.
  split; [done|]. by split.
Qed.

Lemma term_contribution_same idx a b d m t :
  same_idf idx a b → term_contribution idx a d m t = term_contribution idx b d m t.
Proof. intros [Hb Hi]. unfold term_contribution. by rewrite Hb, Hi. Qed.

Lemma score_fold_spec idx d m self q : ∀ acc,
  same_idf idx acc.2 self →
  (fold_left (score_term idx d m) q acc).1
  = fold_left Rplus (map (term_contribution idx self d m) q) acc.1
  ∧ same_idf idx (fold_left (score_term idx d m) q acc).2 self.
Proof.
  induction q as [|t q IH]; intros acc Hacc; [done|]. cbn [fold_left map].
  destruct (score_term_spec idx d m acc t) as [Hv Hs].
  destruct (IH (score_term idx d m acc t)) as [IH1 IH2].
  { by eapply same_idf_trans. }
  split; [|done]. rewrite IH1, Hv. f_equal.
  f_equal. by apply term_contribution_same.
Qed.

(** The value of [score_document] only depends on the IDF answers. *)
Lemma score_document_same idx q d m a b :
  same_idf idx a b →
  (score_document idx q d m a).1 = (score_document idx q d m b).1
  ∧ same_idf idx (score_document idx q d m a).2 b.
Proof.
  intros Hab. unfold score_document.
  destruct (score_fold_spec idx d m b q (0, a) Hab) as [H1 H2].
  destruct (score_fold_spec idx d m b q (0, b) (same_idf_refl _ _)) as [H3 _].
  split; [|done]. by rewrite H1, H3.
Qed.

(** C2. The score of a document is the sum, over the query terms in
    order, of their contributions. The contribution of term [t] is
    [tf * idf], where [tf] is the frequency of the first posting of the
    document in [t]'s posting list (0 without one; later postings of the
    same document are ignored) and [idf] is the value [calculate_idf]
    returns for [t]; it is multiplied by the title boost exactly when the
    lower-cased term is a substring of the lower-cased title. *)
Theorem score_document_is_sum_of_contributions
  (idx : InvertedIndex) (self : TFIDFRanker) (query_terms : list string)
  (d : Z) (m : metadata) :
  (score_document idx query_terms d m self).1
  = fold_left Rplus (map (term_contribution idx self d m) query_terms) 0
  ∧ (∀ t, term_contribution idx self d m t
          = if PyStr.contains (PyStr.lower t) (PyStr.lower (title_of m))
            then calculate_tf idx t d * (calculate_idf idx t self).1 * boost_title self
            else calculate_tf idx t d * (calculate_idf idx t self).1)
  ∧ (∀ t, calculate_tf idx t d
          = match list_find (λ p, p_doc p = d) (postings_of idx t) with
            | Some (_, p) => INR (p_freq p)
            | None => 0
            end)
  ∧ (∀ t pre p rest,
       postings_of idx t = pre ++ p :: rest →
       Forall (λ q, p_doc q ≠ d) pre → p_doc p = d →
       calculate_tf idx t d = INR (p_freq p)).
Proof.
  split_and!.
  - unfold score_document.
    by destruct (score_fold_spec idx d m self query_terms (0, self)
                   (same_idf_refl _ _)) as [-> _].
  - intros t. unfold term_contribution, title_match, idf_of, calculate_tf.
    by rewrite first_frequency_find.
  - intros t. unfold calculate_tf. by rewrite first_frequency_find.
  - intros t pre p rest Hpost Hpre Hp. unfold calculate_tf. rewrite Hpost.
    by apply first_frequency_ignores_later.
Qed.

Lemma score_document_is_sum_of_contributions_witness :
  calculate_tf Scenarios.boosted_index "hello" 1 = INR 2.
Proof.
  apply (proj2 (proj2 (proj2 (score_document_is_sum_of_contributions
           Scenarios.boosted_index (new 2 (3/2)) [] 1 ∅)))
           "hello" [] (Posting 1 2 [0%nat; 1%nat]) [Posting 1 1 [0%nat]]).
  - vm_compute. reflexivity.
  - constructor.
  - reflexivity.
Defined.

(** *** Inverse document frequency *)

Lemma idf_of_new idx bt bh t : idf_of idx (new bt bh) t = idf_formula idx t.
Proof.
  unfold idf_of, calculate_idf, idf_formula, df, new. cbn [idf_cache].
  rewrite lookup_empty.
  destruct (postings_of idx t) as [|p ps]; [done|].
  destruct (length (p :: ps) =? 0)%nat; done.
Qed.

Lemma idf_of_consistent idx self t :
  cache_consistent idx self → idf_of idx self t = idf_formula idx t.
Proof.
  intros Hc. unfold idf_of, calculate_idf.
  destruct (idf_cache self !! t) as [v|] eqn:Hv.
  - rewrite (Hc t v Hv). apply idf_of_new.
  - rewrite <- (idf_of_new idx (boost_title self) (boost_heading self)).
    unfold idf_of, calculate_idf, new. cbn [idf_cache]. rewrite lookup_empty.
    destruct (postings_of idx t) as [|p ps]; [done|].
    destruct (length (p :: ps) =? 0)%nat; done.
Qed.

Lemma idf_formula_antitone idx t1 t2 :
  (0 < df idx t1 < df idx t2)%nat → idf_formula idx t1 >= idf_formula idx t2.
Proof.
  intros [H1 H2]. unfold idf_formula.
  destruct (Nat.eqb_spec (df idx t1) 0); [lia|].
  destruct (Nat.eqb_spec (df idx t2) 0); [lia|].
  destruct (Nat.ltb_spec 0 (document_count idx)) as [HN|HN]; [|lra].
  apply lt_0_INR in H1 as H1'. apply lt_INR in H2 as H2'. apply lt_0_INR in HN as HN'.
  apply Rle_ge, Rlt_le, ln_increasing.
  - apply Rdiv_lt_0_compat; lra.
  - unfold Rdiv. apply Rmult_lt_compat_l; [lra|].
    apply Rinv_lt_contravar; [nra|lra].
Qed.

(** C7 (as the code has it). On a ranker whose cache holds no stale value,
    [calculate_idf] returns [ln(N / df)] for a term with postings in a
    non-empty corpus and 0 for a term without postings; for two terms
    with [0 < df(term1) < df(term2)], [calculate_idf(term1)] is at least
    [calculate_idf(term2)]. *)
Theorem idf_monotone_for_indexed_terms
  (idx : InvertedIndex) (self : TFIDFRanker) (term1 term2 : string) :
  cache_consistent idx self →
  let r1 := calculate_idf idx term1 self in
  let r2 := calculate_idf idx term2 r1.2 in
  ((0 < df idx term1 < df idx term2)%nat → r1.1 >= r2.1)
  ∧ (df idx term1 = 0%nat → r1.1 = 0)
  ∧ ((0 < df idx term1)%nat → (0 < document_count idx)%nat →
     r1.1 = ln (INR (document_count idx) / INR (df idx term1))).
Proof.
  intros Hc r1 r2.
  assert (r1.1 = idf_formula idx term1) as Hr1 by by apply idf_of_consistent.
  assert (r2.1 = idf_formula idx term2) as Hr2.
  { destruct (calculate_idf_same idx term1 self) as [_ Hsame].
    unfold r2, r1. fold (idf_of idx (calculate_idf idx term1 self).2 term2).
    rewrite Hsame. by apply idf_of_consistent. }
  rewrite Hr1, Hr2. split_and!.
  - apply idf_formula_antitone.
  - intros H0. unfold idf_formula. by rewrite H0.
  - intros Hdf HN. unfold idf_formula.
    destruct (Nat.eqb_spec (df idx term1) 0); [lia|].
    destruct (Nat.ltb_spec 0 (document_count idx)); [done|lia].
Qed.

Lemma cache_consistent_new idx bt bh : cache_consistent idx (new bt bh).
Proof. intros t v H. unfold new in H. cbn in H. by rewrite lookup_empty in H. Qed.

Lemma idf_monotone_for_indexed_terms_witness :
  let idx := Scenarios.hello_world_index in
  cache_consistent idx (new 2 (3/2))
  ∧ (0 < df idx "world" < df idx "hello")%nat
  ∧ (calculate_idf idx "world" (new 2 (3/2))).1
    >= (calculate_idf idx "hello" (calculate_idf idx "world" (new 2 (3/2))).2).1.
Proof.
  split; [apply cache_consistent_new|].
  split; [vm_compute; lia|].
  apply (proj1 (idf_monotone_for_indexed_terms Scenarios.hello_world_index
                  (new 2 (3/2)) "world" "hello" (cache_consistent_new _ _ _))).
  vm_compute; lia.
Defined.

Lemma ln_2_pos : 0 < ln 2.
Proof. rewrite <- ln_1. apply ln_increasing; lra. Qed.

Lemma ln_3_2_lt_ln_3 : ln (3/2) < ln 3.
Proof. apply ln_increasing; lra. Qed.

(** A ranker that answered for "x" on the early index keeps that answer,
    [ln 3], on the late index, where "y" with fewer postings gets
    [ln(3/2)]. *)
Lemma stale_idf_cache :
  let stale := (calculate_idf Scenarios.early_index "x" (new 2 (3/2))).2 in
  let r1 := calculate_idf Scenarios.late_index "y" stale in
  let r2 := calculate_idf Scenarios.late_index "x" r1.2 in
  r1.1 = ln (3/2) ∧ r2.1 = ln 3.
Proof.
  intros stale r1 r2.
  assert (idf_cache stale = {[ "x" := ln 3 ]}) as Hstale.
  { unfold stale, calculate_idf. cbn [new idf_cache]. rewrite lookup_empty.
    replace (postings_of Scenarios.early_index "x") with [Posting 1 1 [0%nat]]
      by (vm_compute; reflexivity).
    replace (document_count Scenarios.early_index) with 3%nat
      by (vm_compute; reflexivity).
    simpl. rewrite insert_empty. do 2 f_equal. lra. }
  assert (r1 = (ln (3/2), set_cache (<["y" := ln (3/2)]> (idf_cache stale)) stale))
    as Hr1.
  { unfold r1, calculate_idf. rewrite Hstale.
    rewrite lookup_singleton_ne by done.
    replace (postings_of Scenarios.late_index "y")
      with [Posting 2 1 [1%nat]; Posting 3 1 [1%nat]] by (vm_compute; reflexivity).
    replace (document_count Scenarios.late_index) with 3%nat
      by (vm_compute; reflexivity).
    simpl. replace ((1 + 1 + 1) / (1 + 1)) with (3/2) by lra. done. }
  split; [by rewrite Hr1|].
  unfold r2, calculate_idf. rewrite Hr1. cbn [snd set_cache idf_cache].
  rewrite Hstale, lookup_insert_ne by done. by rewrite lookup_singleton_eq.
Qed.

(** C7 at [df(term1) = 0]: with two documents, "a" in none and "b" in
    one, [df("a") = 0 < 1 = df("b")], but [calculate_idf("a")] is 0 and
    [calculate_idf("b")] is [ln 2]. The ordering is also lost on a ranker
    whose cache is out of date: with [df("y") = 2 < 3 = df("x")] it
    answers [ln(3/2)] for "y" and the cached [ln 3] for "x". *)
Lemma idf_of_unseen_term_is_smaller :
  (let idx := Scenarios.two_docs_index in
   let r1 := calculate_idf idx "a" (new 2 (3/2)) in
   let r2 := calculate_idf idx "b" r1.2 in
   (df idx "a" < df idx "b")%nat ∧ (0 < df idx "b")%nat
   ∧ r1.1 = 0 ∧ r2.1 = ln 2 ∧ ¬ (r1.1 >= r2.1))
  ∧ (let idx := Scenarios.late_index in
     let stale := (calculate_idf Scenarios.early_index "x" (new 2 (3/2))).2 in
     let r1 := calculate_idf idx "y" stale in
     let r2 := calculate_idf idx "x" r1.2 in
     (df idx "y" < df idx "x")%nat ∧ (0 < df idx "x")%nat ∧ ¬ (r1.1 >= r2.1)).
Proof.
  split.
  - intros idx r1 r2.
    assert (df idx "a" = 0%nat) as Ha by (vm_compute; reflexivity).
    assert (df idx "b" = 1%nat) as Hb by (vm_compute; reflexivity).
    assert (document_count idx = 2%nat) as HN by (vm_compute; reflexivity).
    assert (r1.1 = 0) as Hr1.
    { change (idf_of idx (new 2 (3/2)) "a" = 0).
      rewrite idf_of_new. unfold idf_formula. by rewrite Ha. }
    assert (r2.1 = ln 2) as Hr2.
    { change (idf_of idx (calculate_idf idx "a" (new 2 (3/2))).2 "b" = ln 2).
      destruct (calculate_idf_same idx "a" (new 2 (3/2))) as [_ ->].
      rewrite idf_of_new. unfold idf_formula. rewrite Hb, HN. simpl. f_equal. lra. }
    rewrite Ha, Hb, Hr1, Hr2. split_and!; [lia|lia|done|done|].
    pose proof ln_2_pos. lra.
  - intros idx stale r1 r2. pose proof stale_idf_cache as Hstale.
    cbv zeta in Hstale. destruct Hstale as [H1 H2].
    subst r2 r1 stale idx. rewrite H1, H2.
    split_and!; [vm_compute; lia|vm_compute; lia|].
    pose proof ln_3_2_lt_ln_3. lra.
Qed.

(** *** Sorting and the result list *)

Lemma insert_desc_elem x l e : e ∈ insert_desc x l ↔ e = x ∨ e ∈ l.
Proof.
  induction l as [|y l IH]; simpl.
  - rewrite list_elem_of_singleton, elem_of_nil. tauto.
  - destruct (Rlt_dec x.2 y.2); rewrite !elem_of_cons; [rewrite IH|]; tauto.
Qed.

Lemma sort_desc_elem l e : e ∈ sort_desc l ↔ e ∈ l.
Proof.
  induction l as [|x l IH]; simpl; [done|].
  rewrite insert_desc_elem, elem_of_cons, IH. tauto.
Qed.

Lemma insert_desc_sorted x l :
  StronglySorted (λ a b : Z * R, a.2 >= b.2) l →
  StronglySorted (λ a b : Z * R, a.2 >= b.2) (insert_desc x l).
Proof.
  induction 1 as [|y l Hl IH Hy]; simpl.
  - repeat constructor.
  - destruct (Rlt_dec x.2 y.2) as [Hlt|Hge].
    + constructor; [done|]. apply Forall_forall. intros e He.
      apply insert_desc_elem in He as [->|He]; [lra|].
      by apply (proj1 (Forall_forall _ _) Hy).
    + constructor; [by constructor|].
      constructor; [lra|]. apply Forall_forall. intros e He.
      pose proof (proj1 (Forall_forall _ _) Hy e He). simpl in *. lra.
Qed.

Lemma sort_desc_sorted l : StronglySorted (λ a b : Z * R, a.2 >= b.2) (sort_desc l).
Proof.
  induction l as [|x l IH]; simpl; [constructor|]. by apply insert_desc_sorted.
Qed.

(** The sort is stable: entries with one and the same score keep their
    relative order. *)
Lemma insert_desc_stable v x l :
  filter (λ e : Z * R, e.2 = v) (insert_desc x l)
  = filter (λ e : Z * R, e.2 = v) (x :: l).
Proof.
  induction l as [|y l IH]; simpl; [done|].
  destruct (Rlt_dec x.2 y.2) as [Hlt|Hge]; [|done].
  rewrite (filter_cons _ y), IH, !filter_cons.
  destruct (decide (y.2 = v)), (decide (x.2 = v)); try done. lra.
Qed.

Lemma sort_desc_stable v l :
  filter (λ e : Z * R, e.2 = v) (sort_desc l) = filter (λ e : Z * R, e.2 = v) l.
Proof.
  induction l as [|x l IH]; simpl; [done|].
  by rewrite insert_desc_stable, !filter_cons, IH.
Qed.

Lemma rank_fold_spec idx q self doc_ids : ∀ acc,
  same_idf idx acc.2 self →
  (fold_left (rank_one idx q) doc_ids acc).1 = acc.1 ++ scored idx self q doc_ids
  ∧ same_idf idx (fold_left (rank_one idx q) doc_ids acc).2 self.
Proof.
  unfold scored.
  induction doc_ids as [|d doc_ids IH]; intros acc Hacc; simpl.
  - by rewrite app_nil_r.
  - destruct (score_document_same idx q d (get_document idx d) acc.2 self Hacc)
      as [Hv Hs].
    unfold rank_one at 2 4.
    destruct (score_document idx q d (get_document idx d) acc.2) as [sc self'].
    cbn [fst snd] in Hv, Hs. rewrite filter_cons.
    change (sc = total_score idx self q d) in Hv. subst sc.
    cbn [snd]. unfold positive, decide, R_lt_dec.
    destruct (Rlt_dec 0 (total_score idx self q d)).
    + destruct (IH (acc.1 ++ [(d, total_score idx self q d)], self') Hs) as [-> ?].
      split; [|done]. cbn [fst]. by rewrite <- app_assoc.
    + by destruct (IH (acc.1, self') Hs) as [-> ?].
Qed.

Lemma rank_results_spec idx q doc_ids self :
  (rank_results idx q doc_ids self).1 = sort_desc (scored idx self q doc_ids).
Proof.
  unfold rank_results.
  destruct (rank_fold_spec idx q self doc_ids ([], self) (same_idf_refl _ _))
    as [H1 _].
  destruct (fold_left (rank_one idx q) doc_ids ([], self)) as [scores self'].
  simpl in *. by rewrite H1.
Qed.

Lemma search_spec set_to_list idx q n self :
  (search set_to_list idx q n self).1
  = if decide (candidates idx q = ∅) then []
    else map (format_result idx)
             (take n (sort_desc (scored idx self q (set_to_list (candidates idx q))))).
Proof.
  unfold search. destruct (decide (candidates idx q = ∅)); [done|].
  rewrite <- rank_results_spec.
  by destruct (rank_results idx q (set_to_list (candidates idx q)) self).
Qed.

Lemma scored_elem idx self q doc_ids e :
  e ∈ scored idx self q doc_ids
  ↔ e.1 ∈ doc_ids ∧ e.2 = total_score idx self q e.1 ∧ 0 < e.2.
Proof.
  unfold scored. rewrite list_elem_of_filter, list_elem_of_fmap. split.
  - intros [Hpos (d & -> & Hd)]. done.
  - intros (Hd & He & Hpos). split; [done|]. exists e.1. split; [|done].
    destruct e as [d sc]. simpl in *. by rewrite He.
Qed.

Lemma scored_ties idx self q doc_ids v :
  map fst (filter (λ e : Z * R, e.2 = v) (scored idx self q doc_ids))
  = if decide (0 < v) then filter (λ d, total_score idx self q d = v) doc_ids
    else [].
Proof.
  unfold scored. induction doc_ids as [|d doc_ids IH]; simpl.
  - by destruct (decide (0 < v)).
  - rewrite (filter_cons (λ e : Z * R, 0 < e.2)). cbn [snd].
    rewrite (filter_cons (λ d, total_score idx self q d = v)).
    destruct (decide (0 < total_score idx self q d)) as [Hpos|Hnpos].
    + rewrite filter_cons. cbn [snd].
      destruct (decide (total_score idx self q d = v)) as [Hv|Hv].
      * cbn [map fst]. rewrite IH. destruct (decide (0 < v)); [done|lra].
      * rewrite IH. by destruct (decide (0 < v)).
    + rewrite IH. destruct (decide (0 < v)); [|done].
      destruct (decide (total_score idx self q d = v)); [lra|done].
Qed.

Lemma filter_take_prefix {A} (P : A → Prop) `{∀ x, Decision (P x)} n (l : list A) :
  filter P (take n l) `prefix_of` filter P l.
Proof.
  rewrite <- (take_drop n l) at 2. rewrite filter_app. by apply prefix_app_r.
Qed.

Lemma prefix_map {A B} (f : A → B) (l1 l2 : list A) :
  l1 `prefix_of` l2 → map f l1 `prefix_of` map f l2.
Proof. intros [k ->]. exists (map f k). apply map_app. Qed.

Lemma filter_map_format idx v (l : list (Z * R)) :
  map r_doc_id (filter (λ r, r_score r = v) (map (format_result idx) l))
  = map fst (filter (λ e : Z * R, e.2 = v) l).
Proof.
  induction l as [|e l IH]; simpl; [done|].
  rewrite !filter_cons. cbn [r_score format_result].
  destruct (decide (e.2 = v)); simpl; by rewrite IH.
Qed.

(** C3 (as the code has it). [search] returns at most [max_results]
    entries; each carries the total score of its document, which is
    positive, so a document whose score is not positive is left out; the
    entries are in descending order of score; and entries with the same
    score follow the order in which the candidate set is iterated. *)
Theorem search_results_shape
  (set_to_list : gset Z → list Z) (idx : InvertedIndex)
  (query_terms : list string) (max_results : nat) (self : TFIDFRanker) :
  let results := (search set_to_list idx query_terms max_results self).1 in
  let order := set_to_list (candidates idx query_terms) in
  (length results ≤ max_results)%nat
  ∧ (∀ r, r ∈ results →
       0 < r_score r ∧ r_score r = total_score idx self query_terms (r_doc_id r))
  ∧ (∀ d, total_score idx self query_terms d <= 0 → d ∉ map r_doc_id results)
  ∧ StronglySorted (λ a b, r_score a >= r_score b) results
  ∧ (∀ v, map r_doc_id (filter (λ r, r_score r = v) results)
          `prefix_of` filter (λ d, total_score idx self query_terms d = v) order).
Proof.
  intros results order. unfold results. rewrite search_spec.
  destruct (decide (candidates idx query_terms = ∅)) as [Hempty|Hne].
  { split_and!; simpl; [lia|by intros r ?%elem_of_nil|by intros d _ ?%elem_of_nil
                       |constructor|intros v; apply prefix_nil]. }
  fold order. set (sorted := sort_desc (scored idx self query_terms order)).
  assert (∀ r, r ∈ map (format_result idx) (take max_results sorted) →
            0 < r_score r
            ∧ r_score r = total_score idx self query_terms (r_doc_id r)) as Hscore.
  { intros r Hr. apply list_elem_of_fmap in Hr as (e & -> & He).
    apply subseteq_take, sort_desc_elem, scored_elem in He as (_ & He & Hpos).
    by split. }
  split_and!.
  - rewrite length_map, length_take. lia.
  - done.
  - intros d Hd Hin. apply list_elem_of_fmap in Hin as (r & -> & Hr).
    destruct (Hscore r Hr) as [Hpos Heq]. lra.
  - apply (StronglySorted_fmap _ (λ a b : Z * R, a.2 >= b.2)); [done|].
    pose proof (sort_desc_sorted (scored idx self query_terms order)) as Hs.
    fold sorted in Hs. rewrite <- (take_drop max_results sorted) in Hs.
    by apply StronglySorted_app_1_l in Hs.
  - intros v. rewrite filter_map_format.
    etrans; [apply prefix_map, filter_take_prefix|].
    unfold sorted. rewrite sort_desc_stable, scored_ties.
    destruct (decide (0 < v)); [done|apply prefix_nil].
Qed.

(** *** The tie between documents 2 and 1 *)

Lemma total_score_sum idx self q d :
  total_score idx self q d
  = fold_left Rplus (map (term_contribution idx self d (get_document idx d)) q) 0.
Proof.
  unfold total_score, score_document.
  by destruct (score_fold_spec idx d (get_document idx d) self q (0, self)
                 (same_idf_refl _ _)) as [-> _].
Qed.

Lemma tie_index_idf : idf_of Scenarios.tie_index (new 2 (3/2)) "a" = ln (3/2).
Proof.
  rewrite idf_of_new. unfold idf_formula.
  replace (df Scenarios.tie_index "a") with 2%nat by (vm_compute; reflexivity).
  replace (document_count Scenarios.tie_index) with 3%nat by (vm_compute; reflexivity).
  simpl. f_equal. lra.
Qed.

Lemma tie_index_postings :
  postings_of Scenarios.tie_index "a" = [Posting 2 1 [0%nat]; Posting 1 1 [0%nat]].
Proof. vm_compute. reflexivity. Qed.

Lemma tie_index_title d : title_match "a" (get_document Scenarios.tie_index d) = false.
Proof.
  unfold title_match, title_of, get_document.
  assert (∀ m, documents Scenarios.tie_index !! KInt d = Some m → m = ∅) as Hm.
  { intros m. unfold Scenarios.tie_index.
    rewrite !index_terms_documents. unfold add_document, init. cbn [documents].
    intros H. repeat (apply lookup_insert_Some in H as [[_ <-]|[_ H]]; [done|]).
    by rewrite lookup_empty in H. }
  destruct (documents Scenarios.tie_index !! KInt d) as [m|] eqn:Hd.
  - rewrite (Hm m eq_refl). simpl. by rewrite lookup_empty.
  - simpl. by rewrite lookup_empty.
Qed.

Lemma tie_index_total_score d :
  total_score Scenarios.tie_index (new 2 (3/2)) ["a"] d
  = if decide (d = 1%Z ∨ d = 2%Z) then ln (3/2) else 0.
Proof.
  rewrite total_score_sum. cbn [map fold_left]. unfold term_contribution.
  rewrite tie_index_title, tie_index_idf, tie_index_postings.
  unfold first_posting_frequency. cbn [list_find p_doc].
  destruct (decide (2%Z = d)) as [<-|H2]; [simpl; lra|].
  destruct (decide (1%Z = d)) as [<-|H1]; [simpl; lra|].
  rewrite decide_False by (intros [?|?]; congruence). simpl. lra.
Qed.

Lemma ln_3_2_pos : 0 < ln (3/2).
Proof. rewrite <- ln_1. apply ln_increasing; lra. Qed.

Lemma tie_index_search :
  (search small_int_set_order Scenarios.tie_index ["a"] 20 (new 2 (3/2))).1
  = [format_result Scenarios.tie_index (1%Z, ln (3/2));
     format_result Scenarios.tie_index (2%Z, ln (3/2))].
Proof.
  rewrite search_spec.
  replace (candidates Scenarios.tie_index ["a"]) with ({[1%Z; 2%Z]} : gset Z)
    by (vm_compute; reflexivity).
  rewrite decide_False by (vm_compute; discriminate).
  replace (small_int_set_order {[1%Z; 2%Z]}) with [1%Z; 2%Z] by (vm_compute; reflexivity).
  unfold scored. cbn [map]. rewrite !tie_index_total_score.
  rewrite !decide_True by auto.
  pose proof ln_3_2_pos as Hpos.
  rewrite !filter_cons, filter_nil. cbn [snd].
  rewrite !decide_True by done. cbn [sort_desc foldr insert_desc snd].
  destruct (Rlt_dec (ln (3/2)) (ln (3/2))); [lra|]. reflexivity.
Qed.

(** C3 on ties: "a" is indexed for document 2 and then for
    document 1, so the query ["a"] meets 2 first. Both documents score
    [ln(3/2)]. The candidate set {2, 1} is iterated as 1, 2, and the
    stable sort returns document 1 before document 2. *)
Lemma search_tie_not_in_first_encountered_order :
  let results :=
    (search small_int_set_order Scenarios.tie_index ["a"] 20 (new 2 (3/2))).1 in
  first_encountered Scenarios.tie_index ["a"] = [2%Z; 1%Z]
  ∧ map r_doc_id results = [1%Z; 2%Z]
  ∧ map r_score results = [ln (3/2); ln (3/2)]
  ∧ map r_doc_id results ≠ first_encountered Scenarios.tie_index ["a"].
Proof.
  intros results. unfold results. rewrite tie_index_search.
  replace (first_encountered Scenarios.tie_index ["a"]) with [2%Z; 1%Z]
    by (vm_compute; reflexivity).
  split_and!; [done|done|done|]. simpl. discriminate.
Qed.

Lemma search_results_shape_witness :
  total_score Scenarios.tie_index (new 2 (3/2)) ["a"] 3 <= 0
  ∧ 3%Z ∉ map r_doc_id
      (search small_int_set_order Scenarios.tie_index ["a"] 20 (new 2 (3/2))).1.
Proof.
  assert (total_score Scenarios.tie_index (new 2 (3/2)) ["a"] 3 <= 0) as H0.
  { rewrite tie_index_total_score. rewrite decide_False; [lra|].
    intros [?|?]; discriminate. }
  split; [exact H0|].
  exact (proj1 (proj2 (proj2 (search_results_shape small_int_set_order
           Scenarios.tie_index ["a"] 20 (new 2 (3/2))))) 3%Z H0).
Defined.

End RankerFacts.

(** ** The crawler *)

Section CrawlerFacts.
Import Crawler.

Context (config : CrawlerConfig) (http_get : string → nat → response)
        (extract_links : string → string → list string)
        (can_fetch : string → bool) (urlparse : string → string * string).

Local Abbreviation fetch := (fetch_page config http_get extract_links).
Local Abbreviation step := (crawl_step config http_get extract_links can_fetch urlparse).
Local Abbreviation worker := (crawl_worker config http_get extract_links can_fetch urlparse).

(** [fetch_page] with an open session, one unfolding. *)
Lemma fetch_page_unfold url attempt :
  fetch true url attempt
  = match http_get url attempt with
    | Response status body =>
        if (status =? 200)%Z
        then (Some (page_content extract_links url body status), [Get url attempt])
        else (None, [Get url attempt])
    | TimeoutError | ClientError =>
        if decide (attempt < retry_attempts config)
        then ((fetch true url (attempt + 1)).1,
              Get url attempt :: Sleep (retry_backoff config ^ attempt)
                :: (fetch true url (attempt + 1)).2)
        else (None, [Get url attempt])
    end.
Proof.
  rewrite fetch_page_unfold_eq at 1.
  unfold fetch_page_unfold, fetch_page_unfold_clause_2,
    fetch_page_unfold_clause_2_clause_2, fetch_page_unfold_clause_2_clause_3.
  destruct (http_get url attempt); [done| |];
    destruct (lt_dec attempt (retry_attempts config)),
             (decide (attempt < retry_attempts config)); done || lia.
Qed.

Lemma requests_cons_get url a tr : requests (Get url a :: tr) = S (requests tr).
Proof. done. Qed.

Lemma requests_cons_sleep d tr : requests (Sleep d :: tr) = requests tr.
Proof. done. Qed.

Lemma delays_cons_get url a tr : delays (Get url a :: tr) = delays tr.
Proof. done. Qed.

Lemma delays_cons_sleep d tr : delays (Sleep d :: tr) = d :: delays tr.
Proof. done. Qed.

(** A chain of attempts that all time out or raise. *)
Lemma fetch_page_all_fail url k : ∀ attempt,
  attempt ≤ retry_attempts config →
  retry_attempts config - attempt = k →
  (∀ a, a ≤ retry_attempts config →
        http_get url a = TimeoutError ∨ http_get url a = ClientError) →
  (fetch true url attempt).1 = None
  ∧ requests (fetch true url attempt).2 = S k
  ∧ delays (fetch true url attempt).2
    = map (λ a, (retry_backoff config ^ a)%R) (seq attempt k).
Proof.
  induction k as [|k IH]; intros attempt Hle Hk Hfail; rewrite fetch_page_unfold.
  - assert (¬ attempt < retry_attempts config) by lia.
    destruct (Hfail attempt Hle) as [-> | ->]; by rewrite decide_False.
  - assert (attempt < retry_attempts config) as Hlt by lia.
    destruct (IH (attempt + 1)) as (H1 & H2 & H3); [lia|lia|done|].
    destruct (Hfail attempt Hle) as [-> | ->];
      rewrite decide_True by done; cbn [fst snd];
      rewrite requests_cons_get, requests_cons_sleep, H2;
      (split_and!; [done|done|]);
      rewrite delays_cons_get, delays_cons_sleep, H3;
      by replace (attempt + 1) with (S attempt) by lia.
Qed.

(** A status other than 200 ends the chain on the spot. *)
Lemma fetch_page_status url attempt status body :
  http_get url attempt = Response status body → status ≠ 200%Z →
  fetch true url attempt = (None, [Get url attempt]).
Proof.
  intros Hget Hst. rewrite fetch_page_unfold, Hget.
  destruct (Z.eqb_spec status 200); [done|done].
Qed.

(** A URL whose fetch gives no page leaves the loop without a page and
    without being put back on the frontier. *)
Lemma crawl_step_dropped session self head rest self' :
  to_visit self = head :: rest →
  step session self = Some self' →
  (fetch_page config http_get extract_links session
     (URLProcessor.normalize_url head) 0).1 = None →
  crawled_pages self' = crawled_pages self ∧ to_visit self' = rest.
Proof.
  intros Hq Hstep Hnone. unfold crawl_step in Hstep. rewrite Hq in Hstep.
  destruct (negb _); [done|].
  destruct (decide _); [by inversion Hstep|].
  destruct (_ && _); [by inversion Hstep|].
  destruct (fetch_page _ _ _ _ _ _) as [[p|] tr]; [done|].
  by inversion Hstep.
Qed.

(** C5 (as the code has it). A fetch that times out or raises on every
    attempt is retried [retry_attempts] times, sleeping
    [retry_backoff ^ attempt] before each retry, and gives no page after
    [retry_attempts + 1] requests. A response with a status other than
    200 is not retried: it ends the fetch at once, without a page. In both
    cases the URL is dropped: no page is added and it is not put back on
    the frontier. *)
Theorem fetch_page_retry_policy (url : string) :
  ((∀ a, a ≤ retry_attempts config →
         http_get url a = TimeoutError ∨ http_get url a = ClientError) →
   (fetch true url 0).1 = None
   ∧ requests (fetch true url 0).2 = retry_attempts config + 1
   ∧ delays (fetch true url 0).2
     = map (λ a, (retry_backoff config ^ a)%R) (seq 0 (retry_attempts config)))
  ∧ (∀ attempt status body,
       http_get url attempt = Response status body → status ≠ 200%Z →
       fetch true url attempt = (None, [Get url attempt]))
  ∧ (∀ session self head rest self',
       URLProcessor.normalize_url head = url →
       to_visit self = head :: rest →
       step session self = Some self' →
       (fetch_page config http_get extract_links session url 0).1 = None →
       crawled_pages self' = crawled_pages self ∧ to_visit self' = rest).
Proof.
  split_and!.
  - intros Hfail.
    destruct (fetch_page_all_fail url (retry_attempts config) 0) as (H1 & H2 & H3);
      [lia|lia|done|].
    split_and!; [done|lia|done].
  - apply fetch_page_status.
  - intros session self head rest self' <- Hq Hstep Hnone.
    by eapply crawl_step_dropped.
Qed.

(** *** Termination of the crawl loop *)

Lemma crawl_step_None session self :
  step session self = None
  ↔ to_visit self = [] ∨ max_pages config ≤ length (crawled_pages self).
Proof.
  unfold crawl_step. destruct (to_visit self) as [|head rest]; [naive_solver|].
  destruct (Nat.ltb_spec (length (crawled_pages self)) (max_pages config));
    simpl.
  - split; [|intros [?|?]; [done|lia]].
    destruct (decide _); [done|]. destruct (_ && _); [done|].
    by destruct (fetch_page _ _ _ _ _ _) as [[p|] tr].
  - split; [by right|done].
Qed.

(** An iteration either shortens the frontier or adds one page below the
    cap. *)
Lemma crawl_step_progress session self self' :
  step session self = Some self' →
  (length (crawled_pages self') = length (crawled_pages self)
   ∧ length (to_visit self') < length (to_visit self))
  ∨ (length (crawled_pages self') = S (length (crawled_pages self))
     ∧ length (crawled_pages self) < max_pages config).
Proof.
  unfold crawl_step. destruct (to_visit self) as [|head rest]; [done|].
  destruct (Nat.ltb_spec (length (crawled_pages self)) (max_pages config));
    simpl; [|done].
  destruct (decide _); [intros [= <-]; left; simpl; lia|].
  destruct (_ && _); [intros [= <-]; left; simpl; lia|].
  destruct (fetch_page _ _ _ _ _ _) as [[p|] tr]; intros [= <-].
  - right. simpl. rewrite length_app. simpl. lia.
  - left. simpl. lia.
Qed.

Lemma crawl_worker_exit fuel session : ∀ self final,
  worker fuel session self = Some final → step session final = None.
Proof.
  induction fuel as [|fuel IH]; intros self final; simpl;
    destruct (step session self) as [self'|] eqn:Hstep; try done.
  - by intros [= <-].
  - apply IH.
  - by intros [= <-].
Qed.

Lemma crawl_worker_cap fuel session : ∀ self final,
  worker fuel session self = Some final →
  length (crawled_pages self) ≤ max_pages config →
  length (crawled_pages final) ≤ max_pages config.
Proof.
  induction fuel as [|fuel IH]; intros self final; simpl;
    destruct (step session self) as [self'|] eqn:Hstep; try done.
  - by intros [= <-].
  - intros Hrun Hcap. apply (IH self' final Hrun).
    destruct (crawl_step_progress _ _ _ Hstep) as [[-> _]|[-> ?]]; lia.
  - by intros [= <-].
Qed.

(** More fuel does not change the outcome. *)
Lemma crawl_worker_more_fuel fuel session : ∀ self final fuel',
  worker fuel session self = Some final → fuel ≤ fuel' →
  worker fuel' session self = Some final.
Proof.
  induction fuel as [|fuel IH]; intros self final fuel'; simpl;
    destruct (step session self) as [self'|] eqn:Hstep; try done.
  - intros [= <-] _. destruct fuel'; simpl; by rewrite Hstep.
  - intros Hrun Hle. destruct fuel' as [|fuel']; [lia|]. simpl. rewrite Hstep.
    apply IH; [done|lia].
  - intros [= <-] _. destruct fuel'; simpl; by rewrite Hstep.
Qed.

Lemma crawl_worker_terminates_from session n : ∀ k self,
  max_pages config - length (crawled_pages self) ≤ n →
  length (to_visit self) ≤ k →
  ∃ fuel final, worker fuel session self = Some final.
Proof.
  induction n as [|n IHn]; induction k as [|k IHk]; intros self Hn Hk;
    destruct (step session self) as [self'|] eqn:Hstep;
    try (exists 0, self; simpl; by rewrite Hstep);
    destruct (crawl_step_progress _ _ _ Hstep) as [[Hc Hq]|[Hc Hlt]];
    try lia.
  - destruct (IHk self') as (fuel & final & Hrun); [lia|lia|].
    exists (S fuel), final. simpl. by rewrite Hstep.
  - destruct (IHn (length (to_visit self')) self') as (fuel & final & Hrun);
      [lia|lia|].
    exists (S fuel), final. simpl. by rewrite Hstep.
  - destruct (IHk self') as (fuel & final & Hrun); [lia|lia|].
    exists (S fuel), final. simpl. by rewrite Hstep.
  - destruct (IHn (length (to_visit self')) self') as (fuel & final & Hrun);
      [lia|lia|].
    exists (S fuel), final. simpl. by rewrite Hstep.
Qed.

(** C9. From the seed list the loop of a single worker finishes: with
    enough fuel [crawl_worker] returns a final state, the same for any
    larger fuel. It holds at most [max_pages] pages, and either its
    frontier is empty or it holds exactly [max_pages] pages. When the only
    seed is fetched with status 200 and has no outbound links (and robots
    rules allow it), the result under a cap of at least one page, 5 say,
    is exactly that one page with an empty frontier. *)
Theorem crawl_terminates_within_page_cap (session : bool) :
  (∃ fuel final,
     worker fuel session (init config) = Some final
     ∧ (∀ fuel', fuel ≤ fuel' → worker fuel' session (init config) = Some final)
     ∧ length (crawled_pages final) ≤ max_pages config
     ∧ (to_visit final = [] ∨ length (crawled_pages final) = max_pages config))
  ∧ (∀ seed body,
       seed_urls config = [seed] →
       1 ≤ max_pages config →
       (respect_robots_txt config = false
        ∨ can_fetch (URLProcessor.normalize_url seed) = true) →
       http_get (URLProcessor.normalize_url seed) 0 = Response 200 body →
       extract_links body (URLProcessor.normalize_url seed) = [] →
       ∃ fuel final,
         worker fuel true (init config) = Some final
         ∧ crawled_pages final
           = [page_content extract_links (URLProcessor.normalize_url seed) body 200]
         ∧ to_visit final = []).
Proof.
  split.
  - destruct (crawl_worker_terminates_from session (max_pages config)
                (length (to_visit (init config))) (init config))
      as (fuel & final & Hrun); [simpl; lia|done|].
    exists fuel, final. split_and!; [done| | |].
    + intros fuel' Hle. by eapply crawl_worker_more_fuel.
    + eapply crawl_worker_cap; [done|]. simpl. lia.
    + pose proof (crawl_worker_cap _ _ _ _ Hrun) as Hcap.
      apply crawl_worker_exit, crawl_step_None in Hrun as [?|?]; [by left|right].
      simpl in Hcap. lia.
  - intros seed body Hseed Hmax Hrobots Hget Hlinks.
    set (url := URLProcessor.normalize_url seed) in *.
    set (page := page_content extract_links url body 200).
    exists 1, (mkCrawler {[url]} [] [page] [Get url 0; Sleep (1/2)]).
    assert (step true (init config)
            = Some (mkCrawler {[url]} [] [page] [Get url 0; Sleep (1/2)])) as Hstep.
    { unfold crawl_step, init. cbn [to_visit crawled_pages visited_urls trace].
      rewrite Hseed. cbn [length].
      destruct (Nat.ltb_spec 0 (max_pages config)); [|lia]. cbn [negb].
      fold url. rewrite decide_False by set_solver.
      replace (respect_robots_txt config && negb (can_fetch url)) with false
        by (destruct Hrobots as [-> | ->]; [done|by rewrite andb_false_r]).
      rewrite fetch_page_unfold, Hget. cbn [Z.eqb Pos.eqb].
      fold page. unfold new_links. cbn [links page page_content].
      rewrite Hlinks. cbn [map]. rewrite filter_nil.
      by rewrite (right_id_L ∅ (∪)). }
    split_and!; [|done|done].
    simpl. rewrite Hstep. simpl. done.
Qed.

End CrawlerFacts.

Section CrawlerScenarios.
Import Crawler Scenarios.

Local Open Scope R_scope.

Lemma fetch_page_retry_policy_witness :
  let r := fetch_page demo_config always_timeout no_links true "https://example.com" 0 in
  (∀ a, (a ≤ retry_attempts demo_config)%nat →
        always_timeout "https://example.com" a = TimeoutError
        ∨ always_timeout "https://example.com" a = ClientError)
  ∧ r.1 = None
  ∧ requests r.2 = 4%nat
  ∧ delays r.2 = map (λ a, 2 ^ a) [0; 1; 2]%nat.
Proof.
  split; [intros a _; left; reflexivity|].
  apply (proj1 (fetch_page_retry_policy demo_config always_timeout no_links
                  allow_all example_urlparse "https://example.com")).
  intros a _. left. reflexivity.
Defined.

(** C5 on a non-200 status: with three retries configured, a
    URL answered with status 404 is requested once, not four times. *)
Lemma fetch_page_status_is_not_retried :
  let r := fetch_page demo_config always_404 no_links true "https://example.com" 0 in
  r.1 = None
  ∧ requests r.2 = 1%nat
  ∧ requests r.2 ≠ (retry_attempts demo_config + 1)%nat.
Proof.
  intros r. unfold r.
  rewrite (fetch_page_status demo_config always_404 no_links
             "https://example.com" 0 404 "Not Found") by done.
  split_and!; [done|done|]. vm_compute. lia.
Qed.

Lemma crawl_terminates_within_page_cap_witness :
  ∃ fuel final,
    crawl_worker demo_config single_page no_links allow_all example_urlparse
      fuel true (init demo_config) = Some final
    ∧ crawled_pages final
      = [page_content no_links "https://example.com" "<html></html>" 200]
    ∧ to_visit final = [].
Proof.
  apply (proj2 (crawl_terminates_within_page_cap demo_config single_page
                  no_links allow_all example_urlparse true)
           "https://example.com" "<html></html>").
  - reflexivity.
  - simpl. lia.
  - right. reflexivity.
  - reflexivity.
  - reflexivity.
Defined.

End CrawlerScenarios.

(** ** Further properties: strings *)

Section StringFacts.
Import PyStr.

Lemma lstrip_by_first p s : first_is p (lstrip_by p s) = false.
Proof.
  induction s as [|c s IH]; simpl; [done|].
  destruct (p c) eqn:Hc; [done|]. simpl. done.
Qed.

Lemma rstrip_by_last p s : last_is p (rstrip_by p s) = false.
Proof.
  induction s as [|c s IH]; simpl; [done|].
  destruct (rstrip_by p s) as [|d r] eqn:Hr.
  - destruct (p c) eqn:Hc; simpl; done.
  - done.
Qed.

Lemma rstrip_by_first p s : first_is p s = false → first_is p (rstrip_by p s) = false.
Proof.
  destruct s as [|c s]; simpl; [done|]. intros Hc.
  destruct (rstrip_by p s); [by rewrite Hc|done].
Qed.

Lemma lstrip_by_id p s : first_is p s = false → lstrip_by p s = s.
Proof. destruct s as [|c s]; simpl; [done|]. by intros ->. Qed.

Lemma rstrip_by_id p s : last_is p s = false → rstrip_by p s = s.
Proof.
  induction s as [|c s IH]; simpl; [done|].
  destruct s as [|d s]; [by intros ->|].
  intros H. rewrite IH by done. done.
Qed.

Lemma strip_first s : first_is is_space (strip s) = false.
Proof. unfold strip. apply rstrip_by_first, lstrip_by_first. Qed.

Lemma strip_last s : last_is is_space (strip s) = false.
Proof. unfold strip. apply rstrip_by_last. Qed.

(** A string without surrounding white space is its own [strip]. *)
Lemma strip_id s :
  first_is is_space s = false → last_is is_space s = false → strip s = s.
Proof. intros H1 H2. unfold strip. by rewrite lstrip_by_id, rstrip_by_id. Qed.

Lemma strip_strip s : strip (strip s) = strip s.
Proof. apply strip_id; [apply strip_first|apply strip_last]. Qed.

Lemma lstrip_by_length p s : String.length (lstrip_by p s) ≤ String.length s.
Proof. induction s as [|c s IH]; simpl; [done|]. destruct (p c); simpl; lia. Qed.

Lemma rstrip_by_length p s : String.length (rstrip_by p s) ≤ String.length s.
Proof.
  induction s as [|c s IH]; simpl; [done|].
  destruct (rstrip_by p s); [destruct (p c)|]; simpl in *; lia.
Qed.

Lemma strip_length s : String.length (strip s) ≤ String.length s.
Proof.
  unfold strip. etrans; [apply rstrip_by_length|apply lstrip_by_length].
Qed.

Lemma lstrip_by_all q p s : all_chars q s = true → all_chars q (lstrip_by p s) = true.
Proof.
  induction s as [|c s IH]; simpl; [done|].
  intros [Hc Hs]%andb_true_iff. destruct (p c); [by apply IH|].
  simpl. by rewrite Hc, Hs.
Qed.

Lemma rstrip_by_all q p s : all_chars q s = true → all_chars q (rstrip_by p s) = true.
Proof.
  induction s as [|c s IH]; simpl; [done|].
  intros [Hc Hs]%andb_true_iff. specialize (IH Hs).
  destruct (rstrip_by p s); [destruct (p c)|]; simpl in *; by rewrite ?Hc, ?IH.
Qed.

Lemma strip_all q s : all_chars q s = true → all_chars q (strip s) = true.
Proof. intros H. unfold strip. by apply rstrip_by_all, lstrip_by_all. Qed.

Lemma str_take_length n s : String.length (str_take n s) = n `min` String.length s.
Proof.
  revert s. induction n as [|n IH]; intros [|c s]; simpl; try done.
  by rewrite IH.
Qed.

Lemma append_length a b :
  String.length (a +:+ b) = String.length a + String.length b.
Proof. induction a as [|c a IH]; simpl; [done|]. by rewrite IH. Qed.

End StringFacts.

(** ** Further properties: snippets *)

Section SnippetFacts.
Import PyStr Snippets.

Lemma split_runs_nonempty p b s : split_runs p b s ≠ [].
Proof.
  revert b. induction s as [|c s IH]; intros b; simpl; [done|].
  destruct (p c).
  - destruct b; [apply IH|done].
  - by destruct (split_runs p false s).
Qed.

Lemma split_runs_pieces p s : ∀ b,
  Forall (λ x, all_chars (λ c, negb (p c)) x = true) (split_runs p b s).
Proof.
  induction s as [|c s IH]; intros b; simpl; [by repeat constructor|].
  destruct (p c) eqn:Hc.
  - destruct b; [apply IH|]. constructor; [done|apply IH].
  - specialize (IH false). destruct (split_runs p false s) as [|h t].
    + repeat constructor. simpl. by rewrite Hc.
    + apply Forall_cons in IH as [Hh Ht]. constructor; [|done].
      simpl. by rewrite Hc, Hh.
Qed.

Lemma split_sentences_elem (text s : string) :
  s ∈ split_sentences text →
  s ≠ EmptyString
  ∧ first_is is_space s = false
  ∧ last_is is_space s = false
  ∧ all_chars (λ c, negb (is_terminator c)) s = true.
Proof.
  unfold split_sentences. intros Hs.
  apply list_elem_of_fmap in Hs as (x & -> & Hx).
  apply list_elem_of_filter in Hx as [Hne Hx].
  split_and!; [done|apply strip_first|apply strip_last|].
  apply strip_all.
  by apply (proj1 (Forall_forall _ _) (split_runs_pieces is_terminator text false)).
Qed.

(** X1. Every sentence [_split_sentences] returns is non-empty, has no
    white space at either end and contains none of the characters
    [.], [!] and [?]. *)
Theorem split_sentences_shape (text s : string) :
  s ∈ split_sentences text →
  s ≠ EmptyString
  ∧ first_is is_space s = false
  ∧ last_is is_space s = false
  ∧ all_chars (λ c, negb (is_terminator c)) s = true.
Proof. apply split_sentences_elem. Qed.

Lemma split_sentences_shape_witness :
  "Python is great" ∈ split_sentences "Hello world. Python is great! Really?"
  ∧ last_is is_space "Python is great" = false.
Proof.
  assert ("Python is great" ∈ split_sentences "Hello world. Python is great! Really?")
    as Hin by (vm_compute; apply list_elem_of_In; simpl; tauto).
  split; [exact Hin|].
  exact (proj1 (proj2 (proj2 (split_sentences_shape _ _ Hin)))).
Defined.

Lemma score_sentence_fold sentence q : ∀ k,
  fold_left
    (λ score term,
       if contains (lower term) (lower sentence) then score + 1 else score) q k
  = k + length (filter (λ term, contains (lower term) (lower sentence) = true) q).
Proof.
  induction q as [|t q IH]; intros k; simpl; [lia|].
  rewrite IH, filter_cons.
  destruct (contains (lower t) (lower sentence)) eqn:Ht.
  - rewrite decide_True by done. simpl. lia.
  - rewrite decide_False by done. lia.
Qed.

(** The first sentence of maximal score wins the loop of
    [generate_snippet]. *)
Lemma best_fold_spec q l : ∀ acc,
  let r := fold_left (best_step q) l acc in
  (r = acc ∧ ∀ x, x ∈ l → score_sentence x q ≤ acc.2)
  ∨ (∃ l1 s l2, l = l1 ++ s :: l2
       ∧ r = (Some s, score_sentence s q)
       ∧ acc.2 < score_sentence s q
       ∧ (∀ x, x ∈ l1 → score_sentence x q < score_sentence s q)
       ∧ (∀ x, x ∈ l2 → score_sentence x q ≤ score_sentence s q)).
Proof.
  induction l as [|y l IH] using rev_ind; intros acc r.
  - left. split; [done|]. by intros x ?%elem_of_nil.
  - unfold r. rewrite fold_left_app. cbn [fold_left].
    destruct (IH acc) as [[Hr Hle]|(l1 & s & l2 & -> & Hr & Hlt & H1 & H2)];
      rewrite Hr; unfold best_step; cbn [snd].
    + destruct (Nat.ltb_spec acc.2 (score_sentence y q)) as [Hy|Hy].
      * right. exists l, y, [].
        split_and!; [done|done|done| |by intros x ?%elem_of_nil].
        intros x Hx. specialize (Hle x Hx). lia.
      * left. split; [done|].
        intros x [Hx| ->%list_elem_of_singleton]%elem_of_app; [by apply Hle|done].
    + destruct (Nat.ltb_spec (score_sentence s q) (score_sentence y q)) as [Hy|Hy].
      * right. exists (l1 ++ s :: l2), y, [].
        split_and!; [done|done|lia| |by intros x ?%elem_of_nil].
        intros x [Hx|[->|Hx]%elem_of_cons]%elem_of_app;
          [specialize (H1 x Hx); lia|lia|specialize (H2 x Hx); lia].
      * right. exists l1, s, (l2 ++ [y]).
        split_and!; [by rewrite <- app_assoc|done|done|done|].
        intros x [Hx| ->%list_elem_of_singleton]%elem_of_app; [by apply H2|done].
Qed.

Lemma last_is_append p a b :
  b ≠ EmptyString → last_is p (a +:+ b) = last_is p b.
Proof.
  intros Hb. induction a as [|c a IH]; simpl; [done|].
  destruct (a +:+ b) eqn:Hab; [|done].
  destruct a; simpl in Hab; [done|discriminate].
Qed.

Lemma strip_truncated n s :
  first_is is_space s = false → last_is is_space s = false →
  strip (truncated n s) = truncated n s.
Proof.
  intros H1 H2. unfold truncated. destruct (n <? String.length s); [|by apply strip_id].
  apply strip_id.
  - destruct n as [|n], s as [|c s]; simpl in *; done.
  - by rewrite last_is_append.
Qed.

(** X2. When the text has sentences and the query has terms,
    [generate_snippet] returns the first sentence whose score no other
    sentence exceeds (the very first sentence when no term occurs
    anywhere), cut to [snippet_length] characters plus an ellipsis when it
    is longer. *)
Theorem generate_snippet_picks_first_best
  (n : nat) (text : string) (q : list string) :
  text ≠ EmptyString → q ≠ [] → split_sentences text ≠ [] →
  ∃ l1 best l2,
    split_sentences text = l1 ++ best :: l2
    ∧ (∀ x, x ∈ l1 → score_sentence x q < score_sentence best q)
    ∧ (∀ x, x ∈ l2 → score_sentence x q ≤ score_sentence best q)
    ∧ generate_snippet n text q = truncated n best.
Proof.
  intros Ht Hq Hs. unfold generate_snippet.
  destruct text as [|a text]; [done|]. destruct q as [|t q]; [done|].
  destruct (split_sentences (String a text)) as [|first rest] eqn:Hsplit; [done|].
  assert (∀ x, x ∈ first :: rest →
            first_is is_space x = false ∧ last_is is_space x = false) as Hshape.
  { intros x Hx. rewrite <- Hsplit in Hx.
    apply split_sentences_elem in Hx. tauto. }
  destruct (best_fold_spec (t :: q) (first :: rest) (None, 0))
    as [[Hr Hle]|(l1 & s & l2 & Heq & Hr & _ & H1 & H2)]; rewrite Hr; cbn [fst snd default].
  - exists [], first, rest. split_and!; [done|by intros x ?%elem_of_nil| |].
    + intros x Hx. specialize (Hle x (list_elem_of_further _ _ _ Hx)). simpl in Hle. lia.
    + destruct (Hshape first) as [? ?]; [left|]. by apply strip_truncated.
  - exists l1, s, l2. split_and!; [done|done|done|].
    destruct (Hshape s) as [? ?].
    { rewrite Heq. apply elem_of_app. right. left. }
    by apply strip_truncated.
Qed.

Lemma generate_snippet_picks_first_best_witness :
  ∃ l1 best l2,
    split_sentences "Hello world. Python is great! Really?" = l1 ++ best :: l2
    ∧ (∀ x, x ∈ l1 → score_sentence x ["python"] < score_sentence best ["python"])
    ∧ (∀ x, x ∈ l2 → score_sentence x ["python"] ≤ score_sentence best ["python"])
    ∧ generate_snippet 200 "Hello world. Python is great! Really?" ["python"]
      = truncated 200 best.
Proof.
  apply (generate_snippet_picks_first_best 200
           "Hello world. Python is great! Really?" ["python"]).
  - discriminate.
  - discriminate.
  - vm_compute. discriminate.
Defined.

Example generate_snippet_example :
  generate_snippet 200 "Hello world. Python is great! Really?" ["python"]
  = "Python is great"
  ∧ generate_snippet 6 "Hello world. Python is great! Really?" ["python"]
    = "Python...".
Proof. vm_compute. done. Qed.

(** X3. A snippet is never longer than [snippet_length + 3] characters.
    For an empty text, an empty query or a text without any sentence it
    is the first [snippet_length] characters of the text as they are. *)
Theorem generate_snippet_length (n : nat) (text : string) (q : list string) :
  String.length (generate_snippet n text q) ≤ n + 3
  ∧ (text = EmptyString ∨ q = [] ∨ split_sentences text = [] →
     generate_snippet n text q = str_take n text).
Proof.
  unfold generate_snippet. split.
  - destruct text as [|a text]; [rewrite str_take_length; lia|].
    destruct q as [|t q]; [rewrite str_take_length; lia|].
    destruct (split_sentences (String a text)) as [|first rest];
      [rewrite str_take_length; lia|].
    etrans; [apply strip_length|].
    destruct (Nat.ltb_spec n
                (String.length
                   (default first (fold_left (best_step (t :: q)) (first :: rest)
                                     (None, 0)).1))).
    + rewrite append_length, str_take_length. simpl. lia.
    + lia.
  - intros [-> |[-> | Hs]].
    + done.
    + by destruct text.
    + destruct text as [|a text]; [done|]. destruct q; [done|]. by rewrite Hs.
Qed.

Lemma generate_snippet_length_witness :
  split_sentences " ... !? " = []
  ∧ generate_snippet 3 " ... !? " ["python"] = " ..".
Proof.
  split; [vm_compute; reflexivity|].
  apply (generate_snippet_length 3 " ... !? " ["python"]).
  right. right. vm_compute. reflexivity.
Defined.

End SnippetFacts.

(** ** Further properties: robots.txt *)

Section RobotsFacts.
Import PyStr Robots.

Lemma lower_char_colon d : lower_char d = ":"%char → d = ":"%char.
Proof.
  destruct d as [[] [] [] [] [] [] [] []]; vm_compute; intros H;
    first [reflexivity | discriminate H].
Qed.

Lemma startswith_lower_count p : ∀ s,
  startswith p (lower s) = true →
  count_char ":" p ≠ 0 → count_char ":" s ≠ 0.
Proof.
  induction p as [|a p IH]; intros [|b s]; cbn [startswith lower count_char];
    try done.
  intros [Hab Hp]%andb_true_iff Hcount.
  destruct (Ascii.eqb ":" a) eqn:Ha.
  - apply Ascii.eqb_eq in Ha as <-. apply Ascii.eqb_eq in Hab.
    symmetry in Hab. apply lower_char_colon in Hab as ->.
    rewrite Ascii.eqb_refl. lia.
  - specialize (IH s Hp Hcount). lia.
Qed.

Lemma after_first_is_Some c s : count_char c s ≠ 0 → is_Some (after_first c s).
Proof.
  induction s as [|d s IH]; cbn [count_char after_first]; [done|].
  destruct (Ascii.eqb c d); [by eexists|]. intros H. apply IH. lia.
Qed.

Lemma after_first_count c d s v :
  after_first d s = Some v → count_char c s = 0 → count_char c v = 0.
Proof.
  induction s as [|e s IH]; cbn [count_char after_first]; [done|].
  destruct (Ascii.eqb d e).
  - intros [= <-] H. lia.
  - intros Hv H. apply IH; [done|lia].
Qed.

Lemma lstrip_by_count_0 c p s :
  count_char c s = 0 → count_char c (lstrip_by p s) = 0.
Proof.
  induction s as [|d s IH]; cbn [count_char lstrip_by]; [done|].
  intros H. destruct (p d); [apply IH; lia|]. cbn [count_char]. lia.
Qed.

Lemma strip_count_0 c s : count_char c s = 0 → count_char c (strip s) = 0.
Proof. intros H. unfold strip. by apply rstrip_by_count_0, lstrip_by_count_0. Qed.

Lemma split_head_count_0 c d s :
  count_char c s = 0 → count_char c (split_head d s) = 0.
Proof.
  induction s as [|e s IH]; cbn [count_char split_head]; [done|].
  intros H. destruct (Ascii.eqb d e); [done|]. cbn [count_char].
  rewrite IH by lia. lia.
Qed.

Lemma split_on_pieces c s : Forall (λ x, count_char c x = 0) (split_on c s).
Proof.
  induction s as [|d s IH]; cbn [split_on]; [by repeat constructor|].
  destruct (Ascii.eqb c d) eqn:Hd; [by constructor|].
  destruct (split_on c s) as [|h t].
  - repeat constructor. cbn [count_char]. by rewrite Hd.
  - apply Forall_cons in IH as [Hh Ht]. constructor; [|done].
    cbn [count_char]. by rewrite Hd, Hh.
Qed.

Lemma parse_line_total ua st raw :
  count_char "010" raw = 0 →
  Forall clean_path st.2 →
  ∃ st', parse_line ua st raw = Some st' ∧ Forall clean_path st'.2.
Proof.
  intros Hnl Hst. unfold parse_line.
  set (line := strip (split_head "#" raw)).
  assert (count_char "#" line = 0) as Hhash
    by apply strip_count_0, split_head_no_sep.
  assert (count_char "010" line = 0) as Hline
    by by apply strip_count_0, split_head_count_0.
  destruct (String.eqb line EmptyString); [by eexists|].
  destruct (startswith "user-agent:" (lower line)) eqn:Hua.
  { destruct (after_first_is_Some ":" line) as [v Hv].
    { apply (startswith_lower_count "user-agent:"); [done|]. vm_compute. lia. }
    rewrite Hv. by eexists. }
  destruct (startswith "disallow:" (lower line) && agent_applies st.1 ua) eqn:Hdis;
    [|by eexists].
  apply andb_true_iff in Hdis as [Hdis _].
  destruct (after_first_is_Some ":" line) as [v Hv].
  { apply (startswith_lower_count "disallow:"); [done|]. vm_compute. lia. }
  rewrite Hv. cbn [mbind option_bind].
  destruct (String.eqb_spec (strip v) EmptyString) as [Hempty|Hne]; [by eexists|].
  eexists. split; [done|]. cbn [snd]. apply Forall_app. split; [done|].
  repeat constructor; [done|apply strip_first|apply strip_last| |].
  - by eapply strip_count_0, after_first_count.
  - by eapply strip_count_0, after_first_count.
Qed.

Lemma parse_lines_total ua lines : ∀ st,
  Forall (λ raw, count_char "010" raw = 0) lines →
  Forall clean_path st.2 →
  ∃ st', parse_lines ua lines st = Some st' ∧ Forall clean_path st'.2.
Proof.
  induction lines as [|raw lines IH]; intros st Hl Hst; cbn [parse_lines].
  - by eexists.
  - apply Forall_cons in Hl as [Hraw Hl].
    destruct (parse_line_total ua st raw Hraw Hst) as (st' & -> & Hst').
    cbn [mbind option_bind]. by apply IH.
Qed.

(** X4. [_parse_robots_txt] never fails with an [IndexError], whatever
    the content, and every path it returns is non-empty, has no white
    space at either end and contains neither [#] nor a line break. *)
Theorem parse_robots_txt_paths (content user_agent : string) :
  ∃ rules, parse_robots_txt content user_agent = Some rules
           ∧ Forall clean_path rules.
Proof.
  unfold parse_robots_txt.
  destruct (parse_lines_total user_agent (split_on "010" content) (None, []))
    as (st' & -> & Hst'); [apply split_on_pieces|constructor|].
  by exists st'.2.
Qed.

Lemma parse_line_agent ua ua' st raw :
  (∀ a, st.1 = Some a → a ≠ ua ∧ a ≠ ua') →
  named_agent raw ≠ Some ua → named_agent raw ≠ Some ua' →
  parse_line ua st raw = parse_line ua' st raw
  ∧ ∀ st' a, parse_line ua st raw = Some st' → st'.1 = Some a → a ≠ ua ∧ a ≠ ua'.
Proof.
  intros Hst Hn Hn'. unfold parse_line, named_agent in *.
  set (line := strip (split_head "#" raw)) in *.
  destruct (String.eqb line EmptyString);
    [split; [done|]; intros st' a [= <-]; apply Hst|].
  destruct (startswith "user-agent:" (lower line)).
  { split; [done|]. intros st' a. destruct (after_first ":" line) as [v|]; [|done].
    cbn in *. intros [= <-] [= <-]. split; congruence. }
  assert (agent_applies st.1 ua = agent_applies st.1 ua') as ->.
  { unfold agent_applies. destruct st.1 as [a|]; [|done].
    destruct (Hst a eq_refl) as [H1 H2].
    by rewrite (proj2 (String.eqb_neq a ua)), (proj2 (String.eqb_neq a ua')). }
  split; [done|]. intros st' a.
  destruct (_ && _); [|intros [= <-]; apply Hst].
  destruct (after_first ":" line) as [v|]; [|done]. cbn.
  destruct (String.eqb (strip v) EmptyString); intros [= <-]; apply Hst.
Qed.

Lemma parse_lines_agent ua ua' lines : ∀ st,
  (∀ a, st.1 = Some a → a ≠ ua ∧ a ≠ ua') →
  ua ∉ omap named_agent lines → ua' ∉ omap named_agent lines →
  parse_lines ua lines st = parse_lines ua' lines st.
Proof.
  induction lines as [|raw lines IH]; intros st Hst Hn Hn'; cbn [parse_lines]; [done|].
  assert (named_agent raw ≠ Some ua ∧ ua ∉ omap named_agent lines) as [H1 H2].
  { cbn [omap list_omap] in Hn. destruct (named_agent raw) as [a|].
    - apply not_elem_of_cons in Hn as [? ?]. split; congruence.
    - done. }
  assert (named_agent raw ≠ Some ua' ∧ ua' ∉ omap named_agent lines) as [H1' H2'].
  { cbn [omap list_omap] in Hn'. destruct (named_agent raw) as [a|].
    - apply not_elem_of_cons in Hn' as [? ?]. split; congruence.
    - done. }
  destruct (parse_line_agent ua ua' st raw Hst H1 H1') as [Heq Hnext].
  rewrite <- Heq. destruct (parse_line ua st raw) as [st'|]; [|done].
  cbn [mbind option_bind]. apply IH; [|done|done].
  intros a. by apply Hnext.
Qed.

(** X5. Two user agents that no [User-agent] line of the file names get
    the same rules (those of the [*] groups): a group applies to an agent
    only when its line carries the agent's whole configured string. *)
Theorem parse_robots_txt_unnamed_agents (content ua ua' : string) :
  ua ∉ omap named_agent (split_on "010" content) →
  ua' ∉ omap named_agent (split_on "010" content) →
  parse_robots_txt content ua = parse_robots_txt content ua'.
Proof.
  intros H1 H2. unfold parse_robots_txt.
  by rewrite (parse_lines_agent ua ua').
Qed.

Example parse_robots_txt_example :
  parse_robots_txt Scenarios.robots_file "SearchEngineBot/1.0"
  = Some ["/private"; "/tmp/"]
  ∧ parse_robots_txt Scenarios.robots_file "googlebot"
    = Some ["/private"; "/tmp/"; "/search"].
Proof. vm_compute. done. Qed.

Lemma parse_robots_txt_unnamed_agents_witness :
  parse_robots_txt Scenarios.robots_file "SearchEngineBot/1.0"
  = parse_robots_txt Scenarios.robots_file "Googlebot".
Proof.
  apply (parse_robots_txt_unnamed_agents Scenarios.robots_file
           "SearchEngineBot/1.0" "Googlebot").
  - apply (bool_decide_unpack _). vm_compute. exact I.
  - apply (bool_decide_unpack _). vm_compute. exact I.
Defined.

Section CanFetchFacts.

Context (urlparse : string → string * string)
        (robots_get : string → Crawler.response).

Local Abbreviation can_fetch_ := (can_fetch urlparse robots_get).
Local Abbreviation domain_ := (domain_of urlparse).

(** X6. Without fresh cached rules, a robots.txt request that times out,
    raises or is answered with a status other than 200 makes [can_fetch]
    allow the URL; the caches stay as they were and one request was
    made. *)
Theorem can_fetch_permissive_on_failure
  (now later : Z) (url ua : string) (self : RobotsTxtParser) :
  fresh_rules now (domain_ url) self = None →
  (∀ content, robots_get (domain_ url +:+ "/robots.txt")
              ≠ Crawler.Response 200 content) →
  can_fetch_ now later url ua self
  = (true, self, [domain_ url +:+ "/robots.txt"]).
Proof.
  intros Hfresh Hfail. unfold can_fetch. rewrite Hfresh.
  destruct (robots_get _) as [status content| |] eqn:Hget; [|done|done].
  destruct (Z.eqb_spec status 200) as [->|]; [|done].
  by destruct (Hfail content).
Qed.

(** X7. After a robots.txt was fetched with status 200, its rules are
    stored for the domain with an expiry 24 hours after the second clock
    reading. Until then every [can_fetch] for a URL of that domain makes
    no request, leaves the caches alone and answers from the stored
    rules, whatever user agent it is called with: the URL is refused
    exactly when it starts with the domain followed by one of the stored
    paths. From the expiry on a request is made again. *)
Theorem can_fetch_caches_for_a_day
  (now later : Z) (url ua content : string) (rules : list string)
  (self : RobotsTxtParser) :
  fresh_rules now (domain_ url) self = None →
  robots_get (domain_ url +:+ "/robots.txt") = Crawler.Response 200 content →
  parse_robots_txt content ua = Some rules →
  ∃ self',
    can_fetch_ now later url ua self
    = (allowed url (domain_ url) rules, self', [domain_ url +:+ "/robots.txt"])
    ∧ cache self' !! domain_ url = Some rules
    ∧ cache_expiry self' !! domain_ url = Some (later + hours_24)%Z
    ∧ (∀ now2 later2 url2 ua2,
         domain_ url2 = domain_ url → (now2 < later + hours_24)%Z →
         can_fetch_ now2 later2 url2 ua2 self'
         = (allowed url2 (domain_ url) rules, self', [])
         ∧ (allowed url2 (domain_ url) rules = false
            ↔ ∃ path, path ∈ rules
                      ∧ startswith (domain_ url +:+ path) url2 = true))
    ∧ (∀ now2 later2 url2 ua2,
         domain_ url2 = domain_ url → (later + hours_24 ≤ now2)%Z →
         (can_fetch_ now2 later2 url2 ua2 self').2
         = [domain_ url +:+ "/robots.txt"]).
Proof.
  intros Hfresh Hget Hparse. eexists. split_and!.
  - unfold can_fetch. rewrite Hfresh, Hget. cbn [Z.eqb Pos.eqb].
    rewrite Hparse. reflexivity.
  - cbn [cache]. apply lookup_insert_eq.
  - cbn [cache_expiry]. apply lookup_insert_eq.
  - intros now2 later2 url2 ua2 Hdom Hnow. split.
    + unfold can_fetch, fresh_rules. rewrite Hdom. cbn [cache cache_expiry].
      rewrite !lookup_insert_eq.
      destruct (Z.ltb_spec now2 (later + hours_24)); [done|lia].
    + unfold allowed. rewrite negb_false_iff, existsb_exists.
      split; intros (path & Hin & Hp); exists path;
        (split; [by apply list_elem_of_In|done]).
  - intros now2 later2 url2 ua2 Hdom Hnow.
    unfold can_fetch, fresh_rules. rewrite Hdom. cbn [cache cache_expiry].
    rewrite !lookup_insert_eq.
    destruct (Z.ltb_spec now2 (later + hours_24)); [lia|].
    destruct (robots_get _) as [status c| |]; [|done|done].
    destruct (status =? 200)%Z; [|done].
    by destruct (parse_robots_txt c ua2).
Qed.

End CanFetchFacts.

Section CanFetchScenarios.
Import Scenarios.

Lemma can_fetch_permissive_on_failure_witness :
  can_fetch example_urlparse robots_down 0 5 "https://example.com/private/x"
    "SearchEngineBot/1.0" (mkRobots ∅ ∅)
  = (true, mkRobots ∅ ∅, ["https://example.com/robots.txt"]).
Proof.
  apply (can_fetch_permissive_on_failure example_urlparse robots_down 0 5
           "https://example.com/private/x" "SearchEngineBot/1.0" (mkRobots ∅ ∅)).
  - vm_compute. reflexivity.
  - intros content. discriminate.
Defined.

Lemma can_fetch_caches_for_a_day_witness :
  ∃ self',
    can_fetch example_urlparse robots_up 0 5 "https://example.com/private/x"
      "SearchEngineBot/1.0" (mkRobots ∅ ∅)
    = (false, self', ["https://example.com/robots.txt"])
    ∧ (can_fetch example_urlparse robots_up 10 15 "https://example.com/open"
         "SomeOtherBot" self').1.1 = true.
Proof.
  destruct (can_fetch_caches_for_a_day example_urlparse robots_up 0 5
              "https://example.com/private/x" "SearchEngineBot/1.0" robots_file
              ["/private"; "/tmp/"] (mkRobots ∅ ∅))
    as (self' & Hfirst & _ & _ & Hcached & _).
  - vm_compute. reflexivity.
  - reflexivity.
  - vm_compute. reflexivity.
  - exists self'. split; [exact Hfirst|].
    destruct (Hcached 10%Z 15%Z "https://example.com/open" "SomeOtherBot")
      as [-> _]; [reflexivity|vm_compute; reflexivity|].
    vm_compute. reflexivity.
Defined.

End CanFetchScenarios.

End RobotsFacts.

(** ** Further properties: the crawl loop *)

Lemma fetch_page_one_step config http_get extract_links u attempt :
  Crawler.fetch_page config http_get extract_links true u attempt
  = match http_get u attempt with
    | Crawler.Response status body =>
        if (status =? 200)%Z
        then (Some (Crawler.page_content extract_links u body status),
              [Crawler.Get u attempt])
        else (None, [Crawler.Get u attempt])
    | Crawler.TimeoutError | Crawler.ClientError =>
        if decide (attempt < Crawler.retry_attempts config)
        then ((Crawler.fetch_page config http_get extract_links true u (attempt + 1)).1,
              Crawler.Get u attempt
                :: Crawler.Sleep (Crawler.retry_backoff config ^ attempt)
                :: (Crawler.fetch_page config http_get extract_links true u
                      (attempt + 1)).2)
        else (None, [Crawler.Get u attempt])
    end.
Proof. apply fetch_page_unfold. Qed.

Section CrawlerInvariants.
Import Crawler.

Context (config : CrawlerConfig) (http_get : string → nat → response)
        (extract_links : string → string → list string)
        (can_fetch : string → bool) (urlparse : string → string * string).

Local Abbreviation fetch := (fetch_page config http_get extract_links).
Local Abbreviation step := (crawl_step config http_get extract_links can_fetch urlparse).
Local Abbreviation worker := (crawl_worker config http_get extract_links can_fetch urlparse).

Lemma fetch_page_closed u attempt : fetch false u attempt = (None, []).
Proof. by rewrite fetch_page_unfold_eq. Qed.

Lemma fetch_single_request u a n (res : option PageContent) :
  (∀ p, res = Some p →
        url p = u ∧ status_code p = 200%Z ∧ links p = extract_links (html p) u) →
  1 ≤ requests (res, [Get u a]).2
  ∧ requests (res, [Get u a]).2 ≤ S n
  ∧ S (length (delays (res, [Get u a]).2)) = requests (res, [Get u a]).2
  ∧ (∀ v b, Get v b ∈ (res, [Get u a]).2 → v = u)
  ∧ (∀ p, (res, [Get u a]).1 = Some p →
          url p = u ∧ status_code p = 200%Z ∧ links p = extract_links (html p) u).
Proof.
  intros Hres. cbn [fst snd].
  assert (requests [Get u a] = 1) as -> by done.
  split_and!; [done|lia|done| |done].
  intros v b ?%list_elem_of_singleton. congruence.
Qed.

Lemma fetch_page_open_spec u k : ∀ attempt,
  retry_attempts config - attempt ≤ k →
  1 ≤ requests (fetch true u attempt).2
  ∧ requests (fetch true u attempt).2 ≤ S (retry_attempts config - attempt)
  ∧ S (length (delays (fetch true u attempt).2)) = requests (fetch true u attempt).2
  ∧ (∀ v a, Get v a ∈ (fetch true u attempt).2 → v = u)
  ∧ (∀ p, (fetch true u attempt).1 = Some p →
          url p = u ∧ status_code p = 200%Z ∧ links p = extract_links (html p) u).
Proof.
  induction k as [|k IH]; intros attempt Hk;
    remember (fetch true u attempt) as r eqn:Hr;
    rewrite fetch_page_one_step in Hr.
  - destruct (http_get u attempt) as [status body| |].
    + destruct (Z.eqb_spec status 200) as [->|]; subst r;
        apply fetch_single_request; [by intros p [= <-]|done].
    + rewrite decide_False in Hr by lia. subst r. by apply fetch_single_request.
    + rewrite decide_False in Hr by lia. subst r. by apply fetch_single_request.
  - assert (∀ res tr,
              (res, tr) = fetch true u (attempt + 1) →
              attempt < retry_attempts config →
              r = (res, Get u attempt :: Sleep (retry_backoff config ^ attempt) :: tr) →
              1 ≤ requests r.2
              ∧ requests r.2 ≤ S (retry_attempts config - attempt)
              ∧ S (length (delays r.2)) = requests r.2
              ∧ (∀ v a, Get v a ∈ r.2 → v = u)
              ∧ (∀ p, r.1 = Some p →
                      url p = u ∧ status_code p = 200%Z
                      ∧ links p = extract_links (html p) u)) as Hrec.
    { intros res tr Hnext Hlt ->.
      destruct (IH (attempt + 1)) as (H1 & H2 & H3 & H4 & H5); [lia|].
      rewrite <- Hnext in H1, H2, H3, H4, H5. cbn [fst snd] in *.
      rewrite requests_cons_get, requests_cons_sleep, delays_cons_get,
        delays_cons_sleep. cbn [length].
      split_and!; [lia|lia|lia| |done].
      intros v a [Heq|[Heq|Hin]%elem_of_cons]%elem_of_cons;
        [congruence|discriminate|by eapply H4]. }
    destruct (http_get u attempt) as [status body| |].
    + destruct (Z.eqb_spec status 200) as [->|]; subst r;
        apply fetch_single_request; [by intros p [= <-]|done].
    + destruct (decide (attempt < retry_attempts config)) as [Hlt|Hge].
      * eapply Hrec; [|done|done]. by destruct (fetch true u (attempt + 1)).
      * subst r. by apply fetch_single_request.
    + destruct (decide (attempt < retry_attempts config)) as [Hlt|Hge].
      * eapply Hrec; [|done|done]. by destruct (fetch true u (attempt + 1)).
      * subst r. by apply fetch_single_request.
Qed.

(** X8. With an open session [fetch_page] issues at least one request
    and at most [retry_attempts + 1], all of them for the URL it was given,
    and sleeps once between two requests; a page it returns carries that
    URL, status 200 and the links extracted from its own body. With no
    session it issues no request and returns nothing. *)
Theorem fetch_page_requests_and_result (u : string) :
  1 ≤ requests (fetch true u 0).2
  ∧ requests (fetch true u 0).2 ≤ retry_attempts config + 1
  ∧ length (delays (fetch true u 0).2) = requests (fetch true u 0).2 - 1
  ∧ (∀ v a, Get v a ∈ (fetch true u 0).2 → v = u)
  ∧ (∀ p, (fetch true u 0).1 = Some p →
          url p = u ∧ status_code p = 200%Z ∧ links p = extract_links (html p) u)
  ∧ fetch false u 0 = (None, []).
Proof.
  destruct (fetch_page_open_spec u (retry_attempts config) 0)
    as (H1 & H2 & H3 & H4 & H5); [lia|].
  split_and!; [done|lia|lia|done|done|apply fetch_page_closed].
Qed.

Lemma fetch_page_any_spec session u :
  requests (fetch session u 0).2 ≤ retry_attempts config + 1
  ∧ (∀ v a, Get v a ∈ (fetch session u 0).2 → v = u)
  ∧ (∀ p, (fetch session u 0).1 = Some p → url p = u ∧ status_code p = 200%Z).
Proof.
  destruct session.
  - destruct (fetch_page_open_spec u (retry_attempts config) 0)
      as (H1 & H2 & H3 & H4 & H5); [lia|].
    split_and!; [lia|done|]. intros p Hp. destruct (H5 p Hp) as (? & ? & ?). done.
  - rewrite fetch_page_closed. cbn [fst snd].
    split_and!; [change (requests []) with 0; lia| |done].
    by intros v a ?%elem_of_nil.
Qed.

(** What one iteration of the loop does. *)
Lemma crawl_step_cases session self self' :
  step session self = Some self' →
  ∃ head rest,
    to_visit self = head :: rest
    ∧ length (crawled_pages self) < max_pages config
    ∧ let u := URLProcessor.normalize_url head in
      (u ∈ visited_urls self
       ∧ self' = mkCrawler (visited_urls self) rest (crawled_pages self) (trace self))
      ∨ ((u ∉ visited_urls self)
         ∧ respect_robots_txt config = true ∧ can_fetch u = false
         ∧ self' = mkCrawler ({[u]} ∪ visited_urls self) rest
                     (crawled_pages self) (trace self))
      ∨ ((u ∉ visited_urls self)
         ∧ (respect_robots_txt config = true → can_fetch u = true)
         ∧ ((∃ p, (fetch session u 0).1 = Some p
                  ∧ self' = mkCrawler ({[u]} ∪ visited_urls self)
                              (rest ++ new_links config urlparse
                                         ({[u]} ∪ visited_urls self) u p)
                              (crawled_pages self ++ [p])
                              (trace self ++ (fetch session u 0).2 ++ [Sleep (1/2)]))
            ∨ ((fetch session u 0).1 = None
               ∧ self' = mkCrawler ({[u]} ∪ visited_urls self) rest
                           (crawled_pages self)
                           (trace self ++ (fetch session u 0).2 ++ [Sleep (1/2)])))).
Proof.
  unfold crawl_step. destruct (to_visit self) as [|head rest]; [done|].
  destruct (Nat.ltb_spec (length (crawled_pages self)) (max_pages config));
    cbn [negb]; [|done].
  intros Hstep. exists head, rest. split_and!; [done|done|]. cbv zeta.
  destruct (decide (URLProcessor.normalize_url head ∈ visited_urls self)) as [Hin|Hnin].
  { left. split; [done|]. by injection Hstep as <-. }
  right. destruct (respect_robots_txt config) eqn:Hrob;
    destruct (can_fetch (URLProcessor.normalize_url head)) eqn:Hcf; cbn in Hstep;
    try (left; split_and!; [done|done|done|]; by injection Hstep as <-).
  all: right; split_and!; [done|done|];
    destruct (fetch session (URLProcessor.normalize_url head) 0) as [[p|] tr];
    injection Hstep as <-; [left; by exists p|by right].
Qed.

Lemma crawl_worker_preserves (P : crawler → Prop) session :
  (∀ self self', P self → step session self = Some self' → P self') →
  ∀ fuel self final, worker fuel session self = Some final → P self → P final.
Proof.
  intros Hstep. induction fuel as [|fuel IH]; intros self final; simpl;
    destruct (step session self) as [self'|] eqn:Hs; try done.
  - by intros [= <-].
  - intros Hrun HP. apply (IH self' final Hrun). by eapply Hstep.
  - by intros [= <-].
Qed.

Lemma size_add_visited (u : string) (visited : gset string) :
  u ∉ visited → size ({[u]} ∪ visited) = S (size visited).
Proof.
  intros Hu. rewrite size_union by set_solver. by rewrite size_singleton.
Qed.

(** X9. In the result of a crawl no URL occurs twice among the crawled
    pages; every crawled page was answered with status 200, its URL is
    in the visited set and has no fragment, and there are never more
    pages than visited URLs. *)
Theorem crawl_pages_are_distinct (session : bool) (fuel : nat) (final : crawler) :
  worker fuel session (init config) = Some final →
  NoDup (map url (crawled_pages final))
  ∧ (∀ p, p ∈ crawled_pages final →
          url p ∈ visited_urls final ∧ status_code p = 200%Z
          ∧ PyStr.count_char "#" (url p) = 0)
  ∧ length (crawled_pages final) ≤ size (visited_urls final).
Proof.
  intros Hrun.
  pose (P := λ self : crawler,
         NoDup (map url (crawled_pages self))
         ∧ (∀ p, p ∈ crawled_pages self →
                 url p ∈ visited_urls self ∧ status_code p = 200%Z
                 ∧ PyStr.count_char "#" (url p) = 0)
         ∧ length (crawled_pages self) ≤ size (visited_urls self)).
  apply (crawl_worker_preserves P session) with (fuel := fuel) (self := init config);
    [|done|].
  - clear. intros self self' (Hnd & Hp & Hlen) Hstep.
    apply crawl_step_cases in Hstep
      as (head & rest & Hq & Hcap & [[Hin ->]|[(Hnin & _ & _ & ->)|(Hnin & _ & Hf)]]);
      unfold P; cbn [crawled_pages visited_urls].
    + done.
    + split_and!; [done| |rewrite size_add_visited by done; lia].
      intros p Hin. destruct (Hp p Hin) as (? & ? & ?). split_and!; [set_solver|done|done].
    + destruct Hf as [(p & Hfetch & ->)|[_ ->]]; cbn [crawled_pages visited_urls].
      * destruct (fetch_page_any_spec session (URLProcessor.normalize_url head))
          as (_ & _ & Hpage). destruct (Hpage p Hfetch) as [Hurl Hst].
        split_and!.
        -- rewrite map_app. apply NoDup_app. split_and!; [done| |apply NoDup_singleton].
           intros v Hv ->%list_elem_of_singleton.
           apply list_elem_of_fmap in Hv as (p' & Heq & Hp').
           destruct (Hp p' Hp') as (Hvis & _ & _). rewrite <- Heq, Hurl in Hvis. done.
        -- intros p' [Hp'| ->%list_elem_of_singleton]%elem_of_app.
           ++ destruct (Hp p' Hp') as (? & ? & ?). split_and!; [set_solver|done|done].
           ++ rewrite Hurl. split_and!; [set_solver|done|].
              apply normalize_url_no_fragment.
        -- rewrite length_app, size_add_visited by done. simpl. lia.
      * split_and!; [done| |rewrite size_add_visited by done; lia].
        intros p Hin. destruct (Hp p Hin) as (? & ? & ?).
        split_and!; [set_solver|done|done].
  - unfold P. simpl. split_and!; [constructor|by intros p ?%elem_of_nil|lia].
Qed.


(** X11. Every URL on the frontier at the end of a crawl is a seed or a
    link found on a crawled page: such a link is a valid URL whose
    lower-cased form ends in none of the skipped file extensions and,
    unless external links are followed, has the domain of that page. *)
Theorem crawl_frontier_is_filtered (session : bool) (fuel : nat) (final : crawler) :
  worker fuel session (init config) = Some final →
  ∀ u, u ∈ to_visit final →
    u ∈ seed_urls config
    ∨ (URLProcessor.is_valid_url urlparse u = true
       ∧ (∀ ext, ext ∈ URLProcessor.skip_extensions →
                 PyStr.endswith ext (PyStr.lower u) = false)
       ∧ ∃ p, p ∈ crawled_pages final
              ∧ (follow_external_links config = false →
                 URLProcessor.get_domain urlparse (url p)
                 = URLProcessor.get_domain urlparse u)).
Proof.
  intros Hrun.
  pose (Q := λ (pages : list PageContent) (u : string),
         u ∈ seed_urls config
         ∨ (URLProcessor.is_valid_url urlparse u = true
            ∧ (∀ ext, ext ∈ URLProcessor.skip_extensions →
                      PyStr.endswith ext (PyStr.lower u) = false)
            ∧ ∃ p, p ∈ pages
                   ∧ (follow_external_links config = false →
                      URLProcessor.get_domain urlparse (url p)
                      = URLProcessor.get_domain urlparse u))).
  pose (P := λ self : crawler, ∀ u, u ∈ to_visit self → Q (crawled_pages self) u).
  assert (∀ pages p u, Q pages u → Q (pages ++ [p]) u) as Hmono.
  { intros pages p u [?|(? & ? & p' & ? & ?)]; [by left|right].
    split_and!; [done|done|]. exists p'. split; [|done]. apply elem_of_app. by left. }
  apply (crawl_worker_preserves P session) with (fuel := fuel) (self := init config);
    [|done|].
  - clear Hrun. intros self self' HP Hstep.
    apply crawl_step_cases in Hstep
      as (head & rest & Hq & Hcap & [[Hin ->]|[(Hnin & _ & _ & ->)|(Hnin & Hrob & Hf)]]);
      unfold P; cbn [to_visit crawled_pages].
    + intros u Hu. apply HP. rewrite Hq. by right.
    + intros u Hu. apply HP. rewrite Hq. by right.
    + destruct Hf as [(p & Hfetch & ->)|[_ ->]]; cbn [to_visit crawled_pages].
      * intros u [Hu|Hu]%elem_of_app.
        -- apply Hmono, HP. rewrite Hq. by right.
        -- unfold new_links in Hu. apply list_elem_of_filter in Hu as [[_ Hfollow] _].
           destruct (fetch_page_any_spec session (URLProcessor.normalize_url head))
             as (_ & _ & Hpage). destruct (Hpage p Hfetch) as [Hurl _].
           unfold URLProcessor.should_follow_link in Hfollow.
           destruct (URLProcessor.is_valid_url urlparse u) eqn:Hvalid;
             cbn [negb] in Hfollow; [|done].
           destruct (negb (follow_external_links config)
                     && negb (String.eqb
                                (URLProcessor.get_domain urlparse
                                   (URLProcessor.normalize_url head))
                                (URLProcessor.get_domain urlparse u))) eqn:Hext;
             [done|].
           destruct (existsb _ URLProcessor.skip_extensions) eqn:Hskip; [done|].
           right. split_and!; [done| |].
           ++ intros ext Hin. apply list_elem_of_In in Hin.
              destruct (PyStr.endswith ext (PyStr.lower u)) eqn:He; [|done].
              assert (existsb (λ ext, PyStr.endswith ext (PyStr.lower u))
                        URLProcessor.skip_extensions = true) as Habs
                by (apply existsb_exists; by exists ext).
              congruence.
           ++ exists p. split; [apply elem_of_app; right; left|].
              intros Hno. rewrite Hno in Hext. cbn in Hext.
              apply negb_false_iff, String.eqb_eq in Hext. by rewrite Hurl.
      * intros u Hu. apply HP. rewrite Hq. by right.
  - unfold P. simpl. intros u Hu. by left.
Qed.

End CrawlerInvariants.

Section CrawlScenarios.
Import Crawler Scenarios.

Lemma fetch_page_requests_and_result_witness :
  (fetch_page demo_config site_get site_links true "https://example.com/a" 0).1
  = Some (page_content site_links "https://example.com/a" "a" 200)
  ∧ url (page_content site_links "https://example.com/a" "a" 200)
    = "https://example.com/a"
  ∧ status_code (page_content site_links "https://example.com/a" "a" 200) = 200%Z.
Proof.
  split; [reflexivity|].
  pose proof (proj1 (proj2 (proj2 (proj2 (proj2
    (fetch_page_requests_and_result demo_config site_get site_links
       "https://example.com/a")))))
    (page_content site_links "https://example.com/a" "a" 200) eq_refl) as H.
  split; [exact (proj1 H)|exact (proj1 (proj2 H))].
Defined.

Lemma crawl_pages_are_distinct_witness :
  crawl_worker demo_config site_get site_links site_can_fetch site_urlparse
    3 true (init demo_config) = Some site_final
  ∧ NoDup (map url (crawled_pages site_final))
  ∧ length (crawled_pages site_final) ≤ size (visited_urls site_final).
Proof.
  split; [reflexivity|].
  pose proof (crawl_pages_are_distinct demo_config site_get site_links
                site_can_fetch site_urlparse true 3 site_final eq_refl) as H.
  split; [exact (proj1 H)|exact (proj2 (proj2 H))].
Defined.


Lemma crawl_frontier_is_filtered_witness :
  crawl_worker capped_config site_get site_links site_can_fetch site_urlparse
    1 true (init capped_config) = Some site_capped
  ∧ ∀ u, u ∈ ["https://example.com/a"; "https://example.com/private"] →
      u ∈ seed_urls capped_config
      ∨ (URLProcessor.is_valid_url site_urlparse u = true
         ∧ (∀ ext, ext ∈ URLProcessor.skip_extensions →
                   PyStr.endswith ext (PyStr.lower u) = false)
         ∧ ∃ p, p ∈ crawled_pages site_capped
                ∧ (follow_external_links capped_config = false →
                   URLProcessor.get_domain site_urlparse (url p)
                   = URLProcessor.get_domain site_urlparse u)).
Proof.
  split; [reflexivity|].
  exact (crawl_frontier_is_filtered capped_config site_get site_links
           site_can_fetch site_urlparse true 1 site_capped eq_refl).
Defined.

End CrawlScenarios.

(** ** Further properties: the inverted index *)

Section IndexInvariants.
Import Indexer.

Lemma run_app ops ops' : run (ops ++ ops') = fold_left run_op ops' (run ops).
Proof. unfold run. by rewrite fold_left_app. Qed.

Lemma run_op_postings self o t :
  postings_of (run_op self o) t
  = postings_of self t
    ++ match o with
       | IndexTerms d tokens =>
           if decide (0 < occurrences t tokens)
           then [Posting d (occurrences t tokens) (offsets_from 0 t tokens)]
           else []
       | _ => []
       end.
Proof.
  destruct o as [d m|d tokens|t']; cbn [run_op].
  - by rewrite app_nil_r.
  - apply index_terms_postings_of.
  - by rewrite app_nil_r.
Qed.

(** X12. In an index built by any sequence of calls, every posting of a
    term comes from one [index_terms] call for its document: its frequency
    is the number of occurrences of the term in that call's tokens, which
    is positive and equal to the number of its positions, and the
    positions are the increasing offsets of the term. *)
Theorem postings_come_from_index_terms (ops : list op) (t : string) (p : posting) :
  p ∈ postings_of (run ops) t →
  (∃ tokens, IndexTerms (p_doc p) tokens ∈ ops
             ∧ p_freq p = occurrences t tokens
             ∧ p_positions p = offsets_from 0 t tokens)
  ∧ 0 < p_freq p
  ∧ p_freq p = length (p_positions p)
  ∧ StronglySorted lt (p_positions p).
Proof.
  intros Hp.
  assert (∃ tokens, IndexTerms (p_doc p) tokens ∈ ops
                    ∧ p_freq p = occurrences t tokens
                    ∧ p_positions p = offsets_from 0 t tokens
                    ∧ 0 < occurrences t tokens) as (tokens & Hin & Hf & Hpos & Hocc).
  { induction ops as [|o ops IH] using rev_ind.
    - by apply elem_of_nil in Hp.
    - rewrite run_snoc, run_op_postings in Hp.
      apply elem_of_app in Hp as [Hp|Hp].
      + destruct (IH Hp) as (tokens & Hin & ?). exists tokens.
        split; [apply elem_of_app; by left|done].
      + destruct o as [d m|d tokens|t']; try by apply elem_of_nil in Hp.
        destruct (decide (0 < occurrences t tokens)); [|by apply elem_of_nil in Hp].
        apply list_elem_of_singleton in Hp as ->. exists tokens. cbn.
        split; [apply elem_of_app; right; left|done]. }
  split_and!.
  - by exists tokens.
  - lia.
  - by rewrite Hpos, offsets_from_length.
  - rewrite Hpos. apply offsets_from_sorted.
Qed.

Lemma postings_come_from_index_terms_witness :
  Posting 1 2 [0; 2] ∈ postings_of (run [AddDocument 1 ∅;
                                          IndexTerms 1 ["hello"; "world"; "hello"];
                                          GetPostings "absent"]) "hello"
  ∧ 0 < p_freq (Posting 1 2 [0; 2]).
Proof.
  assert (Posting 1 2 [0; 2]
          ∈ postings_of (run [AddDocument 1 ∅;
                              IndexTerms 1 ["hello"; "world"; "hello"];
                              GetPostings "absent"]) "hello") as Hin
    by (vm_compute; left).
  split; [exact Hin|].
  exact (proj1 (proj2 (postings_come_from_index_terms _ _ _ Hin))).
Defined.

(** X13. Calls only ever append: whatever calls follow, the posting list
    each term had stays a prefix of the one it has afterwards, the
    document count does not decrease and no stored document disappears. *)
Theorem index_is_append_only (ops ops' : list op) (t : string) :
  postings_of (run ops) t `prefix_of` postings_of (run (ops ++ ops')) t
  ∧ document_count (run ops) ≤ document_count (run (ops ++ ops'))
  ∧ dom (documents (run ops)) ⊆ dom (documents (run (ops ++ ops'))).
Proof.
  induction ops' as [|o ops' IH] using rev_ind.
  - by rewrite app_nil_r.
  - destruct IH as (H1 & H2 & H3). rewrite app_assoc, run_snoc. split_and!.
    + rewrite run_op_postings. by apply prefix_app_r.
    + destruct o; cbn [run_op add_document document_count get_postings snd];
        rewrite ?index_terms_document_count; lia.
    + destruct o; cbn [run_op add_document documents get_postings snd];
        rewrite ?index_terms_documents, ?dom_insert; set_solver.
Qed.

Lemma index_terms_fold_lookup doc_id t tp : ∀ self,
  NoDup tp.*1 →
  index (fold_left
    (λ s '(term, positions),
       set_index (dd_append (index s) term
                    (Posting doc_id (length positions) positions)) s) tp self) !! t
  = if decide (t ∈ tp.*1)
    then Some (dd_get (index self) t
               ++ [Posting doc_id (length (od_get t tp)) (od_get t tp)])
    else index self !! t.
Proof.
  induction tp as [|[t' ps] tp IH]; intros self Hnd; [done|].
  rewrite fmap_cons in Hnd. apply NoDup_cons in Hnd as [Hnin Hnd].
  cbn [fold_left]. rewrite IH by done. cbn [index set_index fst].
  rewrite fmap_cons. cbn [fst od_get].
  destruct (decide (t = t')) as [->|Hne].
  - rewrite (decide_False (P := t' ∈ tp.*1)) by done.
    rewrite decide_True by left.
    unfold dd_append, dd_getitem, dd_get.
    destruct (index self !! t'); cbn; by rewrite lookup_insert_eq.
  - destruct (decide (t ∈ tp.*1)) as [Hin|Hnin'].
    + rewrite decide_True by (by right). by rewrite dd_get_append, decide_False.
    + rewrite decide_False by (by intros [?|?]%elem_of_cons).
      unfold dd_append, dd_getitem.
      destruct (index self !! t'); cbn; by rewrite !lookup_insert_ne.
Qed.

Lemma index_terms_lookup d tokens t self :
  index (index_terms d tokens self) !! t
  = if decide (0 < occurrences t tokens)
    then Some (dd_get (index self) t
               ++ [Posting d (occurrences t tokens) (offsets_from 0 t tokens)])
    else index self !! t.
Proof.
  unfold index_terms.
  destruct (build_positions_spec t tokens) as (Hget & Hnd & Hne).
  rewrite index_terms_fold_lookup by done.
  rewrite Hget, offsets_from_length.
  destruct (decide (t ∈ (build_positions tokens).*1)) as [Hin|Hnin].
  - apply (od_get_key t _ Hne) in Hin. rewrite Hget in Hin.
    rewrite decide_True; [done|].
    rewrite <- (offsets_from_length 0). destruct (offsets_from 0 t tokens); simpl; [done|lia].
  - rewrite (od_get_key t _ Hne), Hget in Hnin.
    rewrite decide_False; [done|].
    rewrite <- (offsets_from_length 0). destruct (offsets_from 0 t tokens); simpl; [lia|].
    exfalso. by apply Hnin.
Qed.

Lemma occurrences_pos t tokens : 0 < occurrences t tokens ↔ t ∈ tokens.
Proof.
  unfold occurrences. split.
  - intros H. destruct (filter (λ x, x = t) tokens) as [|x l] eqn:Hf; [simpl in H; lia|].
    assert (x ∈ filter (λ x, x = t) tokens) as Hx by (rewrite Hf; left).
    apply list_elem_of_filter in Hx as [-> ?]. done.
  - intros Hin.
    assert (t ∈ filter (λ x, x = t) tokens) as Hx by by apply list_elem_of_filter.
    destruct (filter (λ x, x = t) tokens); [by apply elem_of_nil in Hx|simpl; lia].
Qed.

(** X14. The term map of an index built by any sequence of calls holds
    exactly the tokens that some [index_terms] call was given, each with a
    non-empty posting list: looking up an unknown term, however often,
    adds nothing. *)
Theorem index_holds_exactly_the_indexed_tokens (ops : list op) (t : string) :
  (is_Some (index (run ops) !! t)
   ↔ ∃ d tokens, IndexTerms d tokens ∈ ops ∧ t ∈ tokens)
  ∧ index (run ops) !! t ≠ Some [].
Proof.
  induction ops as [|o ops [IH1 IH2]] using rev_ind.
  - split; [|done]. unfold run. cbn. rewrite lookup_empty. split.
    + by intros [? ?].
    + by intros (d & tokens & ?%elem_of_nil & _).
  - rewrite run_snoc.
    assert (∀ o', (∃ d tokens, IndexTerms d tokens ∈ ops ++ [o'] ∧ t ∈ tokens)
                  ↔ (∃ d tokens, IndexTerms d tokens ∈ ops ∧ t ∈ tokens)
                    ∨ (∃ d tokens, o' = IndexTerms d tokens ∧ t ∈ tokens)) as Hsplit.
    { intros o'. split.
      - intros (d & tokens & [Hin|Hin%list_elem_of_singleton]%elem_of_app & Ht).
        + left. by exists d, tokens.
        + right. by exists d, tokens.
      - intros [(d & tokens & Hin & Ht)|(d & tokens & -> & Ht)]; exists d, tokens.
        + split; [apply elem_of_app; by left|done].
        + split; [apply elem_of_app; right; left|done]. }
    rewrite Hsplit. destruct o as [d m|d tokens|t']; cbn [run_op].
    + cbn [add_document index]. split; [|done]. rewrite IH1. split; [by left|].
      by intros [?|(? & ? & ? & _)].
    + rewrite index_terms_lookup.
      destruct (decide (0 < occurrences t tokens)) as [Hocc|Hocc].
      * split; [|by destruct (dd_get (index (run ops)) t)].
        split; [|by eexists]. intros _. right. exists d, tokens.
        split; [done|]. by apply occurrences_pos.
      * split; [|done]. rewrite IH1. split; [by left|].
        intros [?|(d' & tokens' & [= -> ->] & Ht)]; [done|].
        by apply occurrences_pos in Ht.
    + cbn [get_postings snd]. split; [|done]. rewrite IH1. split; [by left|].
      by intros [?|(? & ? & ? & _)].
Qed.

(** X15. The metadata found for a docID is the one given to the last
    [add_document] call for it, and empty if there was none; the calls
    for other documents and for terms do not matter. *)
Theorem get_document_is_last_added (ops : list op) (d : Z) :
  get_document (run ops) d
  = default ∅
      (last (omap (λ o, match o with
                        | AddDocument d' m => if decide (d' = d) then Some m else None
                        | _ => None
                        end) ops)).
Proof.
  unfold get_document. f_equal.
  induction ops as [|o ops IH] using rev_ind; [done|].
  rewrite run_snoc, omap_app. destruct o as [d' m|d' tokens|t']; cbn [run_op omap list_omap].
  - cbn [add_document documents]. destruct (decide (d' = d)) as [->|Hne].
    + by rewrite lookup_insert_eq, last_snoc.
    + rewrite lookup_insert_ne by congruence. by rewrite app_nil_r.
  - by rewrite index_terms_documents, app_nil_r.
  - by rewrite app_nil_r.
Qed.

End IndexInvariants.

(** ** Further properties: persistence *)

Section PersistenceRoundTrip.
Import Indexer Persistence.

(** X16. Saving an index and loading the file into a new index gives
    back the same term map, so every term has the same postings in the
    same order; this holds for every index, whatever its documents. *)
Theorem save_load_preserves_postings (self : InvertedIndex) (t : string) :
  index (reload self) = index self
  ∧ postings_of (reload self) t = postings_of self t.
Proof. split; [apply reload_index|apply reload_postings]. Qed.

Lemma mapM_map_Some {A B C} (f : B → option C) (g : A → B) (h : A → C) l :
  (∀ x, f (g x) = Some (h x)) → mapM f (map g l) = Some (map h l).
Proof.
  intros Hfg. induction l as [|x l IH]; [done|].
  cbn [map]. cbn. rewrite Hfg. cbn. fold (mapM f (map g l)). rewrite IH. done.
Qed.

Lemma decode_documents_int_keys (docs : gmap dockey metadata) :
  (∀ k, k ∈ dom docs → ∃ z, k = KInt z) →
  ∃ docs', decode_documents
      (JObj (map (λ '(k, m), (key_str k, encode_metadata m)) (map_to_list docs)))
    = Some docs'
    ∧ size docs' = size docs
    ∧ ∀ d, docs' !! KStr (pretty d) = docs !! KInt d.
Proof.
  intros Hint. unfold decode_documents.
  pose proof (NoDup_fst_map_to_list docs) as HndL.
  assert (∀ k m, (k, m) ∈ map_to_list docs → ∃ z, k = KInt z) as HL.
  { intros k m Hin. apply Hint, elem_of_dom. exists m.
    by apply elem_of_map_to_list. }
  assert (∀ k m d, (k, m) ∈ map_to_list docs → key_str k = pretty d → k = KInt d)
    as Hkey.
  { intros k m d Hin Hk. destruct (HL k m Hin) as [z ->]. simpl in Hk.
    f_equal. by apply (inj pretty). }
  assert (∀ d m, docs !! KInt d = Some m ↔ (KInt d, m) ∈ map_to_list docs) as Hlook.
  { intros d m. by rewrite elem_of_map_to_list. }
  revert HndL HL Hkey Hlook. rewrite <- (length_map_to_list docs).
  generalize (map_to_list docs). intros L HndL HL Hkey Hlook.
  set (h := λ km : dockey * metadata, (KStr (key_str km.1), km.2)).
  assert (NoDup (map h L).*1) as Hndh.
  { clear Hlook Hkey. induction L as [|[k m] L IH]; csimpl; [constructor|].
    rewrite fmap_cons in HndL. apply NoDup_cons in HndL as [Hk HndL].
    apply NoDup_cons. split.
    - intros Hin. apply list_elem_of_fmap in Hin as ([s j] & Hs & Hin).
      apply list_elem_of_fmap in Hin as ([k' m'] & Heq & Hin'). simpl in Hs.
      unfold h in Heq. simpl in Heq. inversion Heq; subst. apply Hk.
      apply list_elem_of_fmap. exists (k', m'). split; [|done]. simpl.
      destruct (HL k m) as [z ->]; [left|].
      destruct (HL k' m') as [z' ->]; [by right|].
      simpl in *. f_equal. apply (inj pretty). congruence.
    - apply IH; [done|]. intros k' m' Hin. eapply HL. by right. }
  assert (NoDup (map (λ '(k, m), (key_str k, encode_metadata m)) L).*1) as Hnd.
  { replace ((map (λ '(k, m), (key_str k, encode_metadata m)) L).*1)
      with (map (λ km : dockey * metadata, key_str km.1) L).
    - clear -Hndh. induction L as [|[k m] L IH]; csimpl; [constructor|].
      csimpl in Hndh. apply NoDup_cons in Hndh as [Hk Hnd].
      apply NoDup_cons. split; [|by apply IH].
      intros Hin. apply Hk. apply list_elem_of_fmap in Hin as (km & Heq & Hin).
      apply list_elem_of_fmap. exists (h km). split; [unfold h; simpl; congruence|].
      by apply list_elem_of_fmap_2.
    - clear. induction L as [|[k m] L IH]; csimpl; [done|]. by rewrite IH. }
  rewrite py_items_NoDup by done.
  rewrite (mapM_map_Some _ _ h).
  2:{ intros [k m]. cbn [fst snd]. rewrite decode_metadata_encode. done. }
  eexists. split; [reflexivity|]. split.
  - rewrite map_size_list_to_map by done. apply length_map.
  - intros d. destruct (list_to_map (map h L) !! KStr (pretty d)) as [m|] eqn:Hd.
    + apply elem_of_list_to_map in Hd; [|done].
      apply list_elem_of_fmap in Hd as ([k m'] & Heq & Hin).
      unfold h in Heq. simpl in Heq. inversion Heq; subst.
      symmetry. apply Hlook.
      by rewrite <- (Hkey k m' d Hin) by congruence.
    + destruct (docs !! KInt d) as [m|] eqn:Hdocs; [|done].
      apply Hlook in Hdocs. apply not_elem_of_list_to_map in Hd. exfalso. apply Hd.
      apply list_elem_of_fmap. exists (KStr (pretty d), m). split; [done|].
      apply list_elem_of_fmap. exists (KInt d, m). done.
Qed.

(** X17. For an index built by [add_document] and [index_terms] calls,
    the index loaded from its saved file holds every document under the
    decimal string of its docID, with the same metadata, and its document
    count is the number of distinct docIDs that were added. *)
Theorem reload_keeps_documents_under_string_keys (ops : list op) (d : Z) :
  documents (reload (run ops)) !! KStr (pretty d) = documents (run ops) !! KInt d
  ∧ document_count (reload (run ops)) = size (documents (run ops))
  ∧ document_count (reload (run ops)) = length (remove_dups (added_ids ops)).
Proof.
  destruct (decode_documents_int_keys (documents (run ops)))
    as (docs' & Hdec & Hsize & Hlook).
  { intros k. rewrite documents_dom_run, elem_of_list_to_set.
    intros (z & -> & _)%list_elem_of_fmap. by exists z. }
  assert (documents (reload (run ops)) = docs'
          ∧ document_count (reload (run ops)) = size docs') as [Hdocs Hcount].
  { unfold reload, load_from_json, save_to_json.
    change (py_items [("documents", ?a); ("index", ?b)])
      with [("documents", a); ("index", b)]. simpl od_lookup.
    cbn [mbind option_bind]. rewrite Hdec.
    match goal with |- documents (load_terms ?l ?s) = _ ∧ _ =>
      destruct (load_terms_frame l s) as [-> ->] end.
    done. }
  rewrite Hdocs, Hcount, Hsize. split_and!; [apply Hlook|done|].
  rewrite <- size_dom, documents_dom_run.
  transitivity (size (list_to_set (KInt <$> remove_dups (added_ids ops))
                      : gset dockey)).
  - f_equal. apply set_eq. intros k.
    rewrite !elem_of_list_to_set, !list_elem_of_fmap.
    by setoid_rewrite elem_of_remove_dups.
  - rewrite size_list_to_set; [by rewrite length_fmap|].
    apply NoDup_fmap_2; [|apply NoDup_remove_dups]. by intros x y [= ->].
Qed.

(** X18. [load_from_json] does not clear the term map: after loading
    the saved file of [a] into an index [b], the terms of [a] have the
    postings of [a] and every term only [b] has keeps its postings, while
    no document is found under an int docID any more. An unreadable file
    leaves the index as it is. *)
Theorem load_merges_into_existing_index (a b : InvertedIndex) (t : string) :
  index (load_from_json (Some (save_to_json a)) b) = index a ∪ index b
  ∧ postings_of (load_from_json (Some (save_to_json a)) b) t
    = (if decide (is_Some (index a !! t)) then postings_of a t else postings_of b t)
  ∧ (∀ d, documents (load_from_json (Some (save_to_json a)) b) !! KInt d = None)
  ∧ load_from_json None b = b.
Proof.
  assert (index (load_from_json (Some (save_to_json a)) b) = index a ∪ index b
          ∧ ∀ d, documents (load_from_json (Some (save_to_json a)) b) !! KInt d = None)
    as [Hidx Hdocs].
  { unfold load_from_json, save_to_json.
    change (py_items [("documents", ?a); ("index", ?b)])
      with [("documents", a); ("index", b)]. simpl od_lookup.
    destruct (decode_saved_documents (documents a)) as (docs' & Hdocs & Hint).
    cbn [mbind option_bind]. rewrite Hdocs.
    rewrite py_items_NoDup.
    - split.
      + rewrite load_terms_index by apply NoDup_fst_map_to_list.
        simpl. by rewrite list_to_map_to_list.
      + intros d.
        match goal with |- documents (load_terms ?l ?s) !! _ = _ =>
          destruct (load_terms_frame l s) as [_ ->] end.
        apply Hint.
    - replace ((map (λ '(term, postings), (term, JArr (map encode_posting postings)))
                    (map_to_list (index a))).*1)
        with ((map_to_list (index a)).*1); [apply NoDup_fst_map_to_list|].
      induction (map_to_list (index a)) as [|[k v] l IH]; csimpl; [done|].
      by rewrite IH. }
  split_and!; [done| |done|done].
  unfold postings_of, get_postings, dd_get. cbn [fst]. rewrite Hidx.
  rewrite lookup_union. destruct (index a !! t) as [l|] eqn:Ha.
  - rewrite decide_True by by eexists. by destruct (index b !! t).
  - rewrite decide_False by by intros [? ?]. by destruct (index b !! t).
Qed.

End PersistenceRoundTrip.

(** ** Further properties: ranking *)

Section RankerMore.
Import Indexer Ranker.

Local Open Scope R_scope.

Lemma candidates_inner d l : ∀ s0 : gset Z,
  d ∈ fold_left (λ s p, {[p_doc p]} ∪ s) l s0
  ↔ d ∈ s0 ∨ ∃ p, p ∈ l ∧ p_doc p = d.
Proof.
  induction l as [|p l IH]; intros s0; cbn [fold_left].
  - split; [by left|]. by intros [?|(p & ?%elem_of_nil & _)].
  - rewrite IH, elem_of_union, elem_of_singleton. split.
    + intros [[->|?]|(p' & Hin & Hd)].
      * right. exists p. split; [left|done].
      * by left.
      * right. exists p'. split; [by right|done].
    + intros [?|(p' & [->|Hin]%elem_of_cons & Hd)].
      * left. by right.
      * left. by left.
      * right. by exists p'.
Qed.

Lemma candidates_fold d idx q : ∀ s0 : gset Z,
  d ∈ fold_left
        (λ s term, fold_left (λ s p, {[p_doc p]} ∪ s) (postings_of idx term) s) q s0
  ↔ d ∈ s0 ∨ ∃ t p, t ∈ q ∧ p ∈ postings_of idx t ∧ p_doc p = d.
Proof.
  induction q as [|t q IH]; intros s0; cbn [fold_left].
  - split; [by left|]. by intros [?|(t & p & ?%elem_of_nil & _)].
  - rewrite IH, candidates_inner. split.
    + intros [[?|(p & Hp & Hd)]|(t' & p & Ht & Hp & Hd)].
      * by left.
      * right. exists t, p. split_and!; [left|done|done].
      * right. exists t', p. split_and!; [by right|done|done].
    + intros [?|(t' & p & [->|Ht]%elem_of_cons & Hp & Hd)].
      * left. by left.
      * left. right. by exists p.
      * right. by exists t', p.
Qed.

(** The candidates are the documents of the postings of the query terms. *)
Lemma candidates_elem idx q d :
  d ∈ candidates idx q ↔ ∃ t p, t ∈ q ∧ p ∈ postings_of idx t ∧ p_doc p = d.
Proof.
  unfold candidates. rewrite candidates_fold. split; [|by right].
  by intros [?%elem_of_empty|?].
Qed.

Lemma scored_same idx a b q l :
  same_idf idx a b → scored idx a q l = scored idx b q l.
Proof.
  intros Hab. unfold scored. f_equal. apply map_ext. intros d. f_equal.
  unfold total_score. by destruct (score_document_same idx q d (get_document idx d) a b).
Qed.

Lemma search_same o idx q n a b :
  same_idf idx a b → (search o idx q n a).1 = (search o idx q n b).1.
Proof. intros Hab. rewrite !search_spec. by rewrite (scored_same idx a b). Qed.

Lemma search_state o idx q n self : same_idf idx (search o idx q n self).2 self.
Proof.
  unfold search. destruct (decide (candidates idx q = ∅)); [apply same_idf_refl|].
  unfold rank_results.
  destruct (rank_fold_spec idx q self (o (candidates idx q)) ([], self)
              (same_idf_refl _ _)) as [_ Hs].
  by destruct (fold_left (rank_one idx q) (o (candidates idx q)) ([], self)).
Qed.

(** X19. The result of [search] does not depend on the searches made
    before it on the same index: the IDF cache they leave behind never
    changes a later answer. In particular the same search repeated
    returns the same list. *)
Theorem search_is_repeatable
  (o : gset Z → list Z) (idx : InvertedIndex) (q q' : list string)
  (n n' : nat) (self : TFIDFRanker) :
  (search o idx q n (search o idx q' n' self).2).1 = (search o idx q n self).1.
Proof. apply search_same, search_state. Qed.

Lemma insert_desc_perm x l : insert_desc x l ≡ₚ x :: l.
Proof.
  induction l as [|y l IH]; simpl; [done|].
  destruct (Rlt_dec x.2 y.2); [|done]. rewrite IH. apply Permutation_swap.
Qed.

Lemma sort_desc_perm l : sort_desc l ≡ₚ l.
Proof.
  induction l as [|x l IH]; simpl; [done|]. by rewrite insert_desc_perm, IH.
Qed.

Lemma scored_docs idx self q l :
  map fst (scored idx self q l) = filter (λ d, 0 < total_score idx self q d) l.
Proof.
  unfold scored. induction l as [|d l IH]; [done|].
  cbn [map]. rewrite !filter_cons. cbn [snd].
  destruct (decide (0 < total_score idx self q d)); cbn [map fst]; by rewrite IH.
Qed.

(** X20. When the candidate set is listed without repetition, every
    entry [search] returns is for a document that has a posting of some
    query term, and no document is returned twice. *)
Theorem search_returns_candidates_once
  (o : gset Z → list Z) (idx : InvertedIndex) (q : list string)
  (n : nat) (self : TFIDFRanker) :
  (∀ s d, d ∈ o s → d ∈ s) → (∀ s, NoDup (o s)) →
  NoDup (map r_doc_id (search o idx q n self).1)
  ∧ ∀ r, r ∈ (search o idx q n self).1 →
         ∃ t p, t ∈ q ∧ p ∈ postings_of idx t ∧ p_doc p = r_doc_id r.
Proof.
  intros Hsub Hnd. rewrite search_spec.
  destruct (decide (candidates idx q = ∅)); [split; [constructor|by intros r ?%elem_of_nil]|].
  set (l := o (candidates idx q)).
  assert (map r_doc_id (map (format_result idx) (take n (sort_desc (scored idx self q l))))
          = map fst (take n (sort_desc (scored idx self q l)))) as Hids.
  { rewrite map_map. by apply map_ext. }
  split.
  - rewrite Hids.
    apply (sublist_NoDup _ (fst <$> sort_desc (scored idx self q l))).
    + rewrite sort_desc_perm.
      change (NoDup (map fst (scored idx self q l))).
      rewrite scored_docs. apply NoDup_filter, Hnd.
    + apply (fmap_sublist fst), sublist_take.
  - intros r Hr. apply candidates_elem, (Hsub (candidates idx q)). fold l.
    apply list_elem_of_fmap in Hr as (e & -> & He).
    apply subseteq_take, sort_desc_elem, scored_elem in He as (He & _). done.
Qed.

Lemma small_int_set_order_perm (s : gset Z) : small_int_set_order s ≡ₚ elements s.
Proof. unfold small_int_set_order. apply merge_sort_Permutation. Qed.

Lemma search_returns_candidates_once_witness :
  NoDup (map r_doc_id
           (search small_int_set_order Scenarios.tie_index ["a"] 20 (new 2 (3/2))).1).
Proof.
  apply (search_returns_candidates_once small_int_set_order Scenarios.tie_index
           ["a"] 20 (new 2 (3/2))).
  - intros s d. rewrite small_int_set_order_perm. apply elem_of_elements.
  - intros s. rewrite small_int_set_order_perm. apply NoDup_elements.
Defined.

(** X21. A query none of whose terms has postings (the empty query among
    them) gets the empty list, and the ranker is left as it was. *)
Theorem search_without_postings
  (o : gset Z → list Z) (idx : InvertedIndex) (q : list string)
  (n : nat) (self : TFIDFRanker) :
  (∀ t, t ∈ q → postings_of idx t = []) →
  search o idx q n self = ([], self).
Proof.
  intros Hq. unfold search. rewrite decide_True; [done|].
  apply set_eq. intros d. rewrite candidates_elem. split; [|by intros ?%elem_of_empty].
  intros (t & p & Ht & Hp & _). rewrite (Hq t Ht) in Hp. by apply elem_of_nil in Hp.
Qed.

Lemma search_without_postings_witness :
  search small_int_set_order Scenarios.tie_index ["zebra"] 20 (new 2 (3/2))
  = ([], new 2 (3/2)).
Proof.
  apply (search_without_postings small_int_set_order Scenarios.tie_index
           ["zebra"] 20 (new 2 (3/2))).
  intros t ->%list_elem_of_singleton. vm_compute. reflexivity.
Defined.

(** X22. Raising [max_results] only adds entries at the end: the list
    returned for a smaller limit is a prefix of the list returned for a
    larger one. *)
Theorem search_limit_gives_prefix
  (o : gset Z → list Z) (idx : InvertedIndex) (q : list string)
  (n m : nat) (self : TFIDFRanker) :
  (n ≤ m)%nat →
  (search o idx q n self).1 `prefix_of` (search o idx q m self).1.
Proof.
  intros Hnm. rewrite !search_spec.
  destruct (decide (candidates idx q = ∅)); [done|].
  apply prefix_map.
  replace n with (n `min` m)%nat by lia.
  rewrite <- take_take. apply prefix_take.
Qed.

Lemma search_limit_gives_prefix_witness :
  (search small_int_set_order Scenarios.hello_world_index ["hello"; "world"] 1
     (new 2 (3/2))).1
  `prefix_of`
  (search small_int_set_order Scenarios.hello_world_index ["hello"; "world"] 2
     (new 2 (3/2))).1.
Proof.
  apply (search_limit_gives_prefix small_int_set_order
           Scenarios.hello_world_index ["hello"; "world"] 1 2 (new 2 (3/2))).
  lia.
Defined.

(** X23. Once [calculate_idf] has answered for a term that has postings,
    the ranker gives that same answer for the term from then on, also
    when the index has changed in the meantime: the cached value is never
    recomputed, and the later call changes nothing in the ranker. *)
Theorem calculate_idf_keeps_first_answer
  (idx idx' : InvertedIndex) (t : string) (self : TFIDFRanker) :
  postings_of idx t ≠ [] →
  calculate_idf idx' t (calculate_idf idx t self).2 = calculate_idf idx t self.
Proof.
  intros Hp. unfold calculate_idf at 2 3.
  destruct (idf_cache self !! t) as [v|] eqn:Hc.
  - cbn [snd]. unfold calculate_idf. by rewrite Hc.
  - destruct (postings_of idx t) as [|p l]; [done|].
    cbn [length Nat.eqb snd]. unfold calculate_idf, set_cache. cbn [idf_cache].
    by rewrite lookup_insert_eq.
Qed.

Lemma calculate_idf_keeps_first_answer_witness :
  calculate_idf Scenarios.hello_world_index "a"
    (calculate_idf Scenarios.tie_index "a" (new 2 (3/2))).2
  = calculate_idf Scenarios.tie_index "a" (new 2 (3/2)).
Proof.
  apply (calculate_idf_keeps_first_answer Scenarios.tie_index
           Scenarios.hello_world_index "a" (new 2 (3/2))).
  vm_compute. discriminate.
Defined.

Lemma first_posting_frequency_nonneg d l : 0 <= first_posting_frequency d l.
Proof.
  unfold first_posting_frequency.
  destruct (list_find _ l) as [[i p]|]; [apply pos_INR|lra].
Qed.

Lemma idf_formula_nonpos idx t :
  (document_count idx ≤ df idx t)%nat → idf_formula idx t <= 0.
Proof.
  intros Hle. unfold idf_formula.
  destruct (df idx t =? 0)%nat eqn:Hdf; [lra|].
  destruct (0 <? document_count idx)%nat eqn:HN; [|lra].
  apply Nat.eqb_neq in Hdf. apply Nat.ltb_lt in HN.
  assert (0 < INR (document_count idx)) by (apply lt_0_INR; lia).
  assert (0 < INR (df idx t)) by (apply lt_0_INR; lia).
  assert (INR (document_count idx) <= INR (df idx t)) by (apply le_INR; lia).
  assert (0 < INR (document_count idx) / INR (df idx t)) as Hpos
    by (by apply Rdiv_lt_0_compat).
  assert (INR (document_count idx) / INR (df idx t) <= 1) as Hle1.
  { apply (Rmult_le_reg_r (INR (df idx t))); [done|].
    unfold Rdiv. rewrite Rmult_assoc, Rinv_l by lra. lra. }
  destruct (Req_dec_T (INR (document_count idx) / INR (df idx t)) 1) as [->|Hne].
  - rewrite ln_1. lra.
  - rewrite <- ln_1. left. apply ln_increasing; [done|lra].
Qed.

Lemma fold_left_Rplus_nonpos l : ∀ a,
  a <= 0 → Forall (λ x, x <= 0) l → fold_left Rplus l a <= 0.
Proof.
  induction l as [|x l IH]; intros a Ha Hl; cbn [fold_left]; [done|].
  inversion Hl; subst. apply IH; [lra|done].
Qed.

(** X24. A query all of whose terms have at least as many postings as
    there are documents finds nothing: each IDF is [ln (N / df) <= 0], so
    no document reaches a positive score, although every document that
    holds a term is a candidate. *)
Theorem search_finds_nothing_for_ubiquitous_terms
  (o : gset Z → list Z) (idx : InvertedIndex) (q : list string)
  (n : nat) (self : TFIDFRanker) :
  cache_consistent idx self → 0 <= boost_title self →
  (∀ t, t ∈ q → (document_count idx ≤ df idx t)%nat) →
  (search o idx q n self).1 = [].
Proof.
  intros Hc Hb Hq. rewrite search_spec.
  destruct (decide (candidates idx q = ∅)); [done|].
  assert (∀ l, scored idx self q l = []) as ->; [|by destruct n].
  intros l. unfold scored. induction l as [|d l IH]; [done|].
  cbn [map]. rewrite filter_cons, IH. cbn [snd].
  destruct (decide (0 < total_score idx self q d)) as [Hpos|]; [exfalso|done].
  rewrite total_score_sum in Hpos.
  assert (fold_left Rplus
            (map (term_contribution idx self d (get_document idx d)) q) 0 <= 0);
    [|lra].
  apply fold_left_Rplus_nonpos; [lra|].
  apply Forall_forall. intros x Hx.
  apply list_elem_of_fmap in Hx as (t & -> & Ht).
  unfold term_contribution. rewrite (idf_of_consistent idx self t Hc).
  pose proof (first_posting_frequency_nonneg d (postings_of idx t)) as Hf.
  pose proof (idf_formula_nonpos idx t (Hq t Ht)) as Hi.
  assert (first_posting_frequency d (postings_of idx t) * idf_formula idx t <= 0)
    by nra.
  destruct (title_match t (get_document idx d)); [nra|done].
Qed.

Lemma search_finds_nothing_for_ubiquitous_terms_witness :
  (search small_int_set_order Scenarios.hello_world_index ["hello"] 20
     (new 2 (3/2))).1 = [].
Proof.
  apply (search_finds_nothing_for_ubiquitous_terms small_int_set_order
           Scenarios.hello_world_index ["hello"] 20 (new 2 (3/2))).
  - apply cache_consistent_new.
  - simpl. lra.
  - intros t ->%list_elem_of_singleton. vm_compute. lia.
Defined.

End RankerMore.

(** ** Further properties: indexing a crawled page *)

Section PipelineFacts.
Import Indexer Pipeline.

Lemma copies_snoc {A} n (l : list A) : copies (S n) l = copies n l ++ l.
Proof.
  unfold copies. induction n as [|n IH]; cbn [replicate concat] in *.
  - by rewrite app_nil_r.
  - rewrite IH at 1. by rewrite app_assoc.
Qed.

Lemma index_terms_new_postings d tokens t self :
  postings_of (index_terms d tokens self) t
  = postings_of self t ++ new_postings d t tokens.
Proof. apply index_terms_postings_of. Qed.

Lemma repeat_index_terms_postings n d tokens t self :
  postings_of (repeat_index_terms n d tokens self) t
  = postings_of self t ++ copies n (new_postings d t tokens).
Proof.
  unfold repeat_index_terms. induction n as [|n IH].
  - unfold copies. cbn [replicate concat]. by rewrite app_nil_r.
  - rewrite Nat.iter_succ, index_terms_new_postings, IH, copies_snoc.
    by rewrite app_assoc.
Qed.

Lemma repeat_index_terms_document_count n d tokens self :
  document_count (repeat_index_terms n d tokens self) = document_count self.
Proof.
  unfold repeat_index_terms. induction n as [|n IH]; [done|].
  by rewrite Nat.iter_succ, index_terms_document_count.
Qed.

Lemma repeat_index_terms_documents n d tokens self :
  documents (repeat_index_terms n d tokens self) = documents self.
Proof.
  unfold repeat_index_terms. induction n as [|n IH]; [done|].
  by rewrite Nat.iter_succ, index_terms_documents.
Qed.

Lemma first_frequency_app_skip d l1 l2 :
  (∀ p, p ∈ l1 → p_doc p ≠ d) →
  Ranker.first_frequency d (l1 ++ l2) = Ranker.first_frequency d l2.
Proof.
  induction l1 as [|p l1 IH]; intros Hl; [done|].
  cbn [app Ranker.first_frequency].
  rewrite decide_False by (apply Hl; left).
  apply IH. intros p' Hp'. apply Hl. by right.
Qed.

Section WithIndexer.
Variable tokenize : string → list string.
Variable DB : Type.
Variable insert_document : page → DB → Z * DB.
Variable index_title_boost index_heading_boost : R.

Local Abbreviation index_page' :=
  (index_page tokenize DB insert_document index_title_boost index_heading_boost).
Local Abbreviation index_pages' :=
  (index_pages tokenize DB insert_document index_title_boost index_heading_boost).

Lemma index_page_postings_of d pc st db_id db t :
  insert_document pc st.2 = (db_id, db) → (0 < db_id)%Z →
  postings_of (index_page' d pc st).2.1 t
  = postings_of st.1 t
    ++ copies (passes index_title_boost)
         (new_postings db_id t (tokenize (pg_title pc)))
    ++ copies (passes index_heading_boost)
         (new_postings db_id t (tokenize (PyStr.join " " (pg_headings pc))))
    ++ new_postings db_id t (tokenize (pg_text pc)).
Proof.
  intros Hins Hpos. unfold index_page. rewrite Hins.
  destruct (db_id <=? 0)%Z eqn:Hle; [apply Z.leb_le in Hle; lia|].
  cbn [fst snd].
  rewrite index_terms_new_postings, !repeat_index_terms_postings.
  by rewrite <- !app_assoc.
Qed.

Lemma index_page_count d pc st :
  document_count (index_page' d pc st).2.1
  = document_count st.1 + (if (index_page' d pc st).1 then 1 else 0).
Proof.
  unfold index_page.
  destruct (insert_document pc st.2) as [db_id db].
  destruct (db_id <=? 0)%Z; cbn [fst snd]; [lia|].
  by rewrite index_terms_document_count, !repeat_index_terms_document_count.
Qed.


(** X26. On success [index_page] appends to the posting list of a term,
    in this order: [int(index_title_boost)] copies of the posting for
    the title tokens, [int(index_heading_boost)] copies of the posting
    for the tokens of the space-joined headings, and the posting for the
    body tokens; all of them are for the database row id. *)
Theorem index_page_appends_boosted_postings
  (d : Z) (pc : page) (st : InvertedIndex * DB) (db_id : Z) (db : DB) (t : string) :
  insert_document pc st.2 = (db_id, db) → (0 < db_id)%Z →
  postings_of (index_page' d pc st).2.1 t
  = postings_of st.1 t
    ++ copies (passes index_title_boost)
         (new_postings db_id t (tokenize (pg_title pc)))
    ++ copies (passes index_heading_boost)
         (new_postings db_id t (tokenize (PyStr.join " " (pg_headings pc))))
    ++ new_postings db_id t (tokenize (pg_text pc)).
Proof. apply index_page_postings_of. Qed.

(** X27. For a page indexed under a row id that had no posting for a
    term, with a title boost of at least 1 and the term among the title
    tokens, [calculate_tf] is the number of occurrences of the term in
    the title: the occurrences in the headings and in the body are in
    later postings, which [calculate_tf] does not read. *)
Theorem title_term_frequency_ignores_body
  (d : Z) (pc : page) (st : InvertedIndex * DB) (db_id : Z) (db : DB) (t : string) :
  insert_document pc st.2 = (db_id, db) → (0 < db_id)%Z →
  (∀ p, p ∈ postings_of st.1 t → p_doc p ≠ db_id) →
  1 ≤ passes index_title_boost →
  0 < occurrences t (tokenize (pg_title pc)) →
  Ranker.calculate_tf (index_page' d pc st).2.1 t db_id
  = INR (occurrences t (tokenize (pg_title pc))).
Proof.
  intros Hins Hpos Hfresh Hboost Hocc. unfold Ranker.calculate_tf.
  rewrite (index_page_postings_of d pc st db_id db t Hins Hpos).
  rewrite first_frequency_app_skip by done.
  destruct (passes index_title_boost) as [|n]; [lia|].
  unfold copies, new_postings at 1. rewrite decide_True by done.
  cbn [replicate concat app Ranker.first_frequency p_doc p_freq].
  by rewrite decide_True.
Qed.

Lemma index_pages_fold (l : list (nat * page)) : ∀ acc,
  let r := fold_left (index_pages_step tokenize DB insert_document
                        index_title_boost index_heading_boost) l acc in
  acc.1 ≤ r.1 ∧ r.1 ≤ acc.1 + length l
  ∧ document_count r.2.1 + acc.1 = document_count acc.2.1 + r.1.
Proof.
  induction l as [|[i pc] l IH]; intros acc; cbn [fold_left length]; [cbv zeta; lia|].
  cbv zeta. specialize (IH (index_pages_step tokenize DB insert_document
                             index_title_boost index_heading_boost acc (i, pc))).
  cbv zeta in IH. revert IH.
  generalize (fold_left (index_pages_step tokenize DB insert_document
                index_title_boost index_heading_boost) l
                (index_pages_step tokenize DB insert_document
                   index_title_boost index_heading_boost acc (i, pc))).
  intros r. unfold index_pages_step. cbn [fst snd].
  pose proof (index_page_count (Z.of_nat i + 1) pc acc.2) as Hc.
  destruct (index_page tokenize DB insert_document index_title_boost
              index_heading_boost (Z.of_nat i + 1) pc acc.2) as [[|] st'];
    cbn [fst snd] in *; lia.
Qed.


End WithIndexer.

Lemma passes_spec (boost : R) (k : nat) :
  (INR k <= boost < INR k + 1)%R → passes boost = k.
Proof.
  intros [Hlo Hhi]. unfold passes.
  rewrite <- (Int_part_spec boost (Z.of_nat k)); [apply Nat2Z.id|].
  rewrite <- INR_IZR_INZ. lra.
Qed.

Lemma index_page_appends_boosted_postings_witness :
  postings_of
    (index_page Scenarios.space_tokenize nat Scenarios.next_row 2 (3/2)
       1 Scenarios.demo_page (init, 0)).2.1 "hello"
  = postings_of init "hello"
    ++ copies (passes 2)
         (new_postings 1 "hello" (Scenarios.space_tokenize "hello world"))
    ++ copies (passes (3/2))
         (new_postings 1 "hello" (Scenarios.space_tokenize "hello news"))
    ++ new_postings 1 "hello" (Scenarios.space_tokenize "hello there hello").
Proof.
  apply (index_page_appends_boosted_postings Scenarios.space_tokenize nat
           Scenarios.next_row 2 (3/2) 1 Scenarios.demo_page (init, 0) 1%Z 1
           "hello").
  - reflexivity.
  - lia.
Defined.

Lemma title_term_frequency_ignores_body_witness :
  Ranker.calculate_tf
    (index_page Scenarios.space_tokenize nat Scenarios.next_row 2 (3/2)
       1 Scenarios.demo_page (init, 0)).2.1 "hello" 1
  = INR 1.
Proof.
  apply (title_term_frequency_ignores_body Scenarios.space_tokenize nat
           Scenarios.next_row 2 (3/2) 1 Scenarios.demo_page (init, 0) 1%Z 1
           "hello").
  - reflexivity.
  - lia.
  - by intros p ?%elem_of_nil.
  - rewrite (passes_spec 2 2); [lia|]. simpl. lra.
  - vm_compute. lia.
Defined.

(** X29. A boost factor is cut to its whole part: a boost of at least
    [k] and below [k + 1] makes exactly [k] indexing passes, so the
    default heading boost 1.5 indexes the headings once and a boost from
    0 up to, but not including, 1 indexes nothing. *)
Theorem boost_is_cut_to_whole_passes (boost : R) (k : nat) :
  (INR k <= boost < INR k + 1)%R →
  passes boost = k
  ∧ ∀ d tokens self t,
      postings_of (repeat_index_terms (passes boost) d tokens self) t
      = postings_of self t ++ copies k (new_postings d t tokens).
Proof.
  intros H. rewrite (passes_spec boost k H). split; [done|].
  intros. apply repeat_index_terms_postings.
Qed.

Lemma boost_is_cut_to_whole_passes_witness : passes (3/2) = 1.
Proof.
  apply (boost_is_cut_to_whole_passes (3/2) 1). simpl. lra.
Defined.

End PipelineFacts.

(** ** Further properties: text cleaning *)

Section CleanTextFacts.
Import PyStr TextProcessor.

Lemma sub_runs_single_spaced s : ∀ b,
  single_spaced b (sub_runs is_space " " b s) = true.
Proof.
  induction s as [|c s IH]; intros b; [done|].
  cbn [sub_runs]. destruct (is_space c) eqn:Hc.
  - destruct b; [apply IH|].
    cbn [single_spaced].
    change (is_space " ") with true. cbn match.
    change (Ascii.eqb " " " ") with true. cbn [andb negb]. apply IH.
  - cbn [single_spaced]. rewrite Hc. apply IH.
Qed.

Lemma single_spaced_weaken b s :
  single_spaced b s = true → single_spaced false s = true.
Proof.
  destruct s as [|c s]; [done|]. cbn [single_spaced].
  destruct (is_space c); [|done].
  destruct b; [|done]. rewrite andb_false_r. done.
Qed.

Lemma lstrip_single_spaced s : ∀ b,
  single_spaced b s = true → single_spaced false (lstrip_by is_space s) = true.
Proof.
  induction s as [|c s IH]; intros b; [done|].
  cbn [lstrip_by]. destruct (is_space c) eqn:Hc.
  - cbn [single_spaced]. rewrite Hc. intros H.
    apply andb_true_iff in H as [_ H]. by apply (IH true).
  - apply single_spaced_weaken.
Qed.

Lemma rstrip_single_spaced s : ∀ b,
  single_spaced b s = true → single_spaced b (rstrip_by is_space s) = true.
Proof.
  induction s as [|c s IH]; intros b; [done|].
  cbn [rstrip_by single_spaced]. intros H.
  destruct (is_space c) eqn:Hc.
  - apply andb_true_iff in H as [H1 H2]. specialize (IH true H2).
    destruct (rstrip_by is_space s) as [|c' r]; [done|].
    cbn [single_spaced]. rewrite Hc. cbn [single_spaced] in IH.
    by rewrite H1, IH.
  - specialize (IH false H).
    destruct (rstrip_by is_space s) as [|c' r].
    + cbn [single_spaced]. by rewrite Hc.
    + cbn [single_spaced]. rewrite Hc. exact IH.
Qed.

Lemma sub_runs_id s : ∀ b,
  single_spaced b s = true → sub_runs is_space " " b s = s.
Proof.
  induction s as [|c s IH]; intros b; [done|].
  cbn [single_spaced sub_runs]. destruct (is_space c) eqn:Hc.
  - intros H. apply andb_true_iff in H as [H H2].
    apply andb_true_iff in H as [H0 H1].
    destruct b; [done|]. apply Ascii.eqb_eq in H0 as ->.
    by rewrite (IH true H2).
  - intros H. by rewrite (IH false H).
Qed.

(** X30. The result of [clean_text] has no white space at either end,
    and every white-space character in it is a single space between two
    other characters; cleaning a cleaned text changes nothing. *)
Theorem clean_text_normal_form (text : string) :
  first_is is_space (clean_text text) = false
  ∧ last_is is_space (clean_text text) = false
  ∧ single_spaced false (clean_text text) = true
  ∧ clean_text (clean_text text) = clean_text text.
Proof.
  assert (single_spaced false (clean_text text) = true) as Hs.
  { unfold clean_text, strip.
    apply rstrip_single_spaced, (lstrip_single_spaced _ false),
      sub_runs_single_spaced. }
  split; [apply strip_first|]. split; [apply strip_last|]. split; [done|].
  unfold clean_text at 1. rewrite (sub_runs_id _ false Hs).
  unfold clean_text. apply strip_strip.
Qed.

End CleanTextFacts.
